(** * react-d3-tree: the tree layout and interaction-state engine

    A shallow embedding of [src/Tree/index.js].  JavaScript objects live in
    a store: tree nodes and arrays are both allocated at locations, so that
    the aliasing the component relies on ([node._children] and
    [node.children] are the same array, nodes are mutated in place) is
    visible in the model.  Recursive walks over the store take fuel; an
    absent result ([None]) stands for a thrown [TypeError] or exhausted
    fuel, and every walk is shown to return on a store that holds a tree. *)

From Stdlib Require Import ZArith QArith Qminmax Lia.
From stdpp Require Import base option list gmap strings.

Module Tree.

(** ** The store *)

Abbreviation loc := positive.

(** The fields of a node object that the engine reads or writes.  A field
    holding [None] is [undefined].  [children] and [_children] hold array
    references. *)
Record node := Node {
  name : string;
  id : option string;
  _collapsed : option bool;
  children : option loc;
  _children : option loc;
  depth : option nat;
}.

Record heap := Heap {
  objs : gmap loc node;
  arrs : gmap loc (list loc);
}.

Definition set_collapsed (b : option bool) (nd : node) : node :=
  Node (name nd) (id nd) b (children nd) (_children nd) (depth nd).

Definition set_id (i : option string) (nd : node) : node :=
  Node (name nd) i (_collapsed nd) (children nd) (_children nd) (depth nd).

Definition set_children (c : option loc) (nd : node) : node :=
  Node (name nd) (id nd) (_collapsed nd) c (_children nd) (depth nd).

Definition set__children (c : option loc) (nd : node) : node :=
  Node (name nd) (id nd) (_collapsed nd) (children nd) c (depth nd).

Definition set_depth (d : option nat) (nd : node) : node :=
  Node (name nd) (id nd) (_collapsed nd) (children nd) (_children nd) d.

(** [n.f = v] on the object at [n]; throws when [n] is not an object. *)
Definition update (f : node → node) (n : loc) (h : heap) : option heap :=
  nd ← objs h !! n; Some (Heap (<[n := f nd]> (objs h)) (arrs h)).

(** [arr.forEach(x => ...)] with the store threaded through the callback. *)
Fixpoint forEach {S : Type} (f : S → loc → option S) (s : S) (l : list loc)
  : option S :=
  match l with
  | [] => Some s
  | x :: l' => s' ← f s x; forEach f s' l'
  end.

(** JavaScript truthiness of a [_collapsed] field. *)
Definition truthy (b : option bool) : bool :=
  match b with Some true => true | _ => false end.

(** ** Collapse and expand *)

(** [static collapseNode(node)] *)
Fixpoint collapseNode (fuel : nat) (h : heap) (n : loc) : option heap :=
  match fuel with
  | 0 => None
  | S fuel =>
      nd ← objs h !! n;
      h1 ← update (set_collapsed (Some true)) n h;
      match _children nd with
      | Some a =>
          cs ← arrs h1 !! a;
          if bool_decide (0 < length cs)
          then forEach (collapseNode fuel) h1 cs
          else Some h1
      | None => Some h1
      end
  end.

(** [static expandNode(node)] *)
Definition expandNode (h : heap) (n : loc) : option heap :=
  update (set_collapsed (Some false)) n h.

(** ** Trees in the store *)

(** The members of [node._children], the full child list. *)
Definition kids (h : heap) (l : loc) : list loc :=
  match objs h !! l with
  | Some nd =>
      match _children nd with
      | Some a => default [] (arrs h !! a)
      | None => []
      end
  | None => []
  end.

(** [l'] is [l] or one of its descendants through [_children]. *)
Inductive reach (h : heap) : loc → loc → Prop :=
  | reach_refl l : reach h l l
  | reach_step l c l' : c ∈ kids h l → reach h c l' → reach h l l'.

(** The store holds, at [l], a tree of height below [n]: every object and
    array on the way exists. *)
Fixpoint tree_at (n : nat) (h : heap) (l : loc) : Prop :=
  match n with
  | 0 => False
  | S n =>
      ∃ nd, objs h !! l = Some nd ∧
        match _children nd with
        | Some a => ∃ cs, arrs h !! a = Some cs ∧ Forall (tree_at n h) cs
        | None => True
        end
  end.

Definition is_collapsed (h : heap) (l : loc) (b : bool) : Prop :=
  ∃ nd, objs h !! l = Some nd ∧ _collapsed nd = Some b.

(** What collapse and expand must leave alone: every field but
    [_collapsed], and every array. *)
Definition erase (nd : node) : node := set_collapsed None nd.

Definition shape (h : heap) : gmap loc node * gmap loc (list loc) :=
  (erase <$> objs h, arrs h).

(** ** Search *)

(** [nodeSet.filter(node => p(node))]; reading a field of a member that is
    not an object throws. *)
Fixpoint filter_nodes (p : node → bool) (h : heap) (ls : list loc)
  : option (list loc) :=
  match ls with
  | [] => Some []
  | l :: ls =>
      nd ← objs h !! l;
      r ← filter_nodes p h ls;
      Some (if p nd then l :: r else r)
  end.

(** [findNodesById(nodeId, nodeSet, hits)] *)
Fixpoint findNodesById (fuel : nat) (h : heap) (nodeId : string)
  (nodeSet hits : list loc) : option (list loc) :=
  match fuel with
  | 0 => None
  | S fuel =>
      if bool_decide (0 < length hits) then Some hits
      else
        found ← filter_nodes (λ nd, bool_decide (id nd = Some nodeId)) h nodeSet;
        forEach (λ hits node,
            nd ← objs h !! node;
            match _children nd with
            | Some a =>
                cs ← arrs h !! a;
                if bool_decide (0 < length cs)
                then findNodesById fuel h nodeId cs hits
                else Some hits
            | None => Some hits
            end)
          (hits ++ found) nodeSet
  end.

(** [findNodesAtDepth(depth, nodeSet, accumulator)]; [depth] is whatever
    the caller read from a node, so it may be [undefined]. *)
Fixpoint findNodesAtDepth (fuel : nat) (h : heap) (d : option nat)
  (nodeSet accumulator : list loc) : option (list loc) :=
  match fuel with
  | 0 => None
  | S fuel =>
      found ← filter_nodes (λ nd, bool_decide (depth nd = d)) h nodeSet;
      forEach (λ accumulator node,
          nd ← objs h !! node;
          match _children nd with
          | Some a =>
              cs ← arrs h !! a;
              if bool_decide (0 < length cs)
              then findNodesAtDepth fuel h d cs accumulator
              else Some accumulator
          | None => Some accumulator
          end)
        (accumulator ++ found) nodeSet
  end.

(** [collapseNeighborNodes(targetNode, nodeSet)] *)
Definition collapseNeighborNodes (fuel : nat) (h : heap) (targetNode : loc)
  (nodeSet : list loc) : option heap :=
  tn ← objs h !! targetNode;
  atDepth ← findNodesAtDepth fuel h (depth tn) nodeSet [];
  neighbors ← filter_nodes (λ nd, negb (bool_decide (id nd = id tn))) h atDepth;
  forEach (collapseNode fuel) h neighbors.

(** ** Identity assignment *)

Inductive jsref :=
  | Arr (a : loc)
  | Obj (l : loc).

(** What [data] denotes: the array itself, or the one-element array the
    function wraps a single root in. *)
Definition data_list (h : heap) (data : jsref) : option (list loc) :=
  match data with
  | Arr a => arrs h !! a
  | Obj l => Some [l]
  end.

(** [new Array]: a fresh array holding [cs]. *)
Definition alloc_arr (h : heap) (cs : list loc) : heap * loc :=
  let a := fresh (dom (arrs h)) in
  (Heap (objs h) (<[a := cs]> (arrs h)), a).

(** [static assignInternalProperties(data)].  [uuid_v4 k] is the [k]-th
    identifier the generator hands out; the counter is threaded with the
    store. *)
Fixpoint assignInternalProperties (uuid_v4 : nat → string) (fuel : nat)
  (w : heap * nat) (data : jsref) : option (heap * nat * loc) :=
  match fuel with
  | 0 => None
  | S fuel =>
      d ← data_list w.1 data;
      w' ← forEach (λ (w : heap * nat) node,
          let '(h, k) := w in
          h ← update (set_id (Some (uuid_v4 k))) node h;
          nd ← objs h !! node;
          h ← (if _collapsed nd is None
               then update (set_collapsed (Some false)) node h
               else Some h);
          match children nd with
          | Some c =>
              cs ← arrs h !! c;
              if bool_decide (0 < length cs)
              then
                '(h, k, a) ← assignInternalProperties uuid_v4 fuel (h, S k) (Arr c);
                h ← update (set_children (Some a)) node h;
                h ← update (set__children (Some a)) node h;
                Some (h, k)
              else Some (h, S k)
          | None => Some (h, S k)
          end)
        w d;
      let '(h, a) := alloc_arr w'.1 d in
      Some (h, w'.2, a)
  end.

(** ** Layout *)

(** The traversal of d3's tree layout (d3 v3, [layout.tree().nodes(root)])
    with the accessor the component installs,
    [.children(d => (d._collapsed ? null : d._children))]: nodes come out
    in pre-order, every visited node gets its [depth], and [children] is
    set to the accessor's array or deleted.  Coordinates are left out. *)
Fixpoint tree_nodes_from (fuel : nat) (h : heap) (n : loc) (d : nat)
  : option (heap * list loc) :=
  match fuel with
  | 0 => None
  | S fuel =>
      h ← update (set_depth (Some d)) n h;
      nd ← objs h !! n;
      match (if truthy (_collapsed nd) then None else _children nd) with
      | Some a =>
          cs ← arrs h !! a;
          if bool_decide (0 < length cs)
          then
            h ← update (set_children (Some a)) n h;
            '(h, out) ← forEach (λ (acc : heap * list loc) c,
                '(h, sub) ← tree_nodes_from fuel acc.1 c (S d);
                Some (h, acc.2 ++ sub))
              (h, []) cs;
            Some (h, n :: out)
          else
            h ← update (set_children None) n h;
            Some (h, [n])
      | None =>
          h ← update (set_children None) n h;
          Some (h, [n])
      end
  end.

Definition tree_nodes (fuel : nat) (h : heap) (rootNode : loc)
  : option (heap * list loc) :=
  tree_nodes_from fuel h rootNode 0.

(** [tree.links(nodes)]: one link per member of each node's [children]. *)
Fixpoint tree_links (h : heap) (nodes : list loc) : option (list (loc * loc)) :=
  match nodes with
  | [] => Some []
  | n :: nodes =>
      nd ← objs h !! n;
      cs ← match children nd with
           | Some a => arrs h !! a
           | None => Some []
           end;
      r ← tree_links h nodes;
      Some (((λ c, (n, c)) <$> cs) ++ r)
  end.

(** [n.depth >= initialDepth]; an [undefined] depth compares false. *)
Definition depth_ge (d : option nat) (initialDepth : Z) : bool :=
  match d with
  | Some d => bool_decide (initialDepth ≤ Z.of_nat d)%Z
  | None => false
  end.

(** [setInitialTreeDepth(nodeSet, initialDepth)] *)
Definition setInitialTreeDepth (h : heap) (nodeSet : list loc)
  (initialDepth : Z) : option heap :=
  forEach (λ h n,
      nd ← objs h !! n;
      update (set_collapsed (Some (depth_ge (depth nd) initialDepth))) n h)
    h nodeSet.

(** ** Geometry *)

Record point := Point { x : Q; y : Q }.

Record extent := Extent { min : Q; max : Q }.

Module Geometry.
Record t := Make { translate : point; scale : Q }.
End Geometry.

(** The props the engine reads.  [onUpdate] and [onClick] record whether
    the callback is a function. *)
Module Props.
Record t := Make {
  data : jsref;
  collapsible : bool;
  shouldCollapseNeighborNodes : bool;
  transitionDuration : Z;
  initialDepth : option Z;
  useCollapseData : bool;
  zoom : Q;
  scaleExtent : extent;
  translate : point;
  onUpdate : bool;
  onClick : bool;
}.
End Props.

(** [static calculateD3Geometry(nextProps)] *)
Definition calculateD3Geometry (nextProps : Props.t) : Geometry.t :=
  let scale :=
    if Qlt_le_dec (max (Props.scaleExtent nextProps)) (Props.zoom nextProps)
    then max (Props.scaleExtent nextProps)
    else if Qlt_le_dec (Props.zoom nextProps) (min (Props.scaleExtent nextProps))
    then min (Props.scaleExtent nextProps)
    else Props.zoom nextProps in
  Geometry.Make (Props.translate nextProps) scale.

(** The spec's wording of the scale bound. *)
Definition clamp (v lo hi : Q) : Q := Qmax lo (Qmin v hi).

(** ** The component *)

Module State.
Record t := Make {
  dataRef : jsref;
  data : loc;
  isTransitioning : bool;
  d3 : Geometry.t;
}.
End State.

Record internalState := InternalState {
  initialRender : bool;
  targetNode : option loc;
}.

(** What leaves the component: a [setState] that carries tree data, a
    [setState] that only releases the toggle lock, and calls of the
    [onUpdate] and [onClick] callbacks. *)
Inductive effect :=
  | SetData (data : loc)
  | Unlock
  | OnUpdate (node : option loc) (zoom : Q) (translate : point)
  | OnClick (node : option loc).

Record component := Component {
  props : Props.t;
  state : State.t;
  internal : internalState;
  store : heap;
  timers : list Z;
  view : list loc * list (loc * loc);
  effects : list effect;
}.

Definition with_store (h : heap) (c : component) : component :=
  Component (props c) (state c) (internal c) h (timers c) (view c) (effects c).

Definition with_state (s : State.t) (c : component) : component :=
  Component (props c) s (internal c) (store c) (timers c) (view c) (effects c).

Definition with_internal (i : internalState) (c : component) : component :=
  Component (props c) (state c) i (store c) (timers c) (view c) (effects c).

Definition with_timers (ts : list Z) (c : component) : component :=
  Component (props c) (state c) (internal c) (store c) ts (view c) (effects c).

Definition with_view (v : list loc * list (loc * loc)) (c : component)
  : component :=
  Component (props c) (state c) (internal c) (store c) (timers c) v (effects c).

Definition emit (e : effect) (c : component) : component :=
  Component (props c) (state c) (internal c) (store c) (timers c) (view c)
    (effects c ++ [e]).

(** [generateTree()]: the node list and the link list, with the store the
    layout wrote to.  [depthFactor] only rewrites a coordinate. *)
Definition generateTree (fuel : nat) (c : component)
  : option (heap * (list loc * list (loc * loc))) :=
  roots ← arrs (store c) !! State.data (state c);
  rootNode ← roots !! 0;
  '(h, nodes) ← tree_nodes fuel (store c) rootNode;
  '(h, nodes) ←
    match Props.initialDepth (props c) with
    | Some initialDepth =>
        if negb (Props.useCollapseData (props c)) && initialRender (internal c)
        then
          h ← setInitialTreeDepth h nodes initialDepth;
          tree_nodes fuel h rootNode
        else Some (h, nodes)
    | None => Some (h, nodes)
    end;
  links ← tree_links h nodes;
  Some (h, (nodes, links)).

(** [render()] *)
Definition render (fuel : nat) (c : component) : option component :=
  '(h, v) ← generateTree fuel c;
  Some (with_view v (with_store h c)).

(** The constructor: [state.data] is the input with internal properties
    assigned.  [clone] hands the engine a private copy; the copy takes the
    place of the original in the store, which the engine never reads
    again. *)
Definition construct (uuid_v4 : nat → string) (fuel : nat) (p : Props.t)
  (h : heap) : option component :=
  '(h, _, data) ← assignInternalProperties uuid_v4 fuel (h, 0) (Props.data p);
  Some (Component p
          (State.Make (Props.data p) data false (calculateD3Geometry p))
          (InternalState true None) h [] ([], []) []).

(** [componentDidMount()].  Binding the zoom listener acts on the DOM
    only. *)
Definition componentDidMount (c : component) : component :=
  with_internal (InternalState false (targetNode (internal c))) c.

(** [componentDidUpdate(prevProps)].  Rebinding the zoom listener acts
    on the DOM only. *)
Definition componentDidUpdate (c : component) : component :=
  let c :=
    if Props.onUpdate (props c)
    then emit (OnUpdate (targetNode (internal c))
                 (Geometry.scale (State.d3 (state c)))
                 (Geometry.translate (State.d3 (state c)))) c
    else c in
  with_internal (InternalState (initialRender (internal c)) None) c.

(** Mounting: construct, render, [componentDidMount]. *)
Definition mount (uuid_v4 : nat → string) (fuel : nat) (p : Props.t)
  (h : heap) : option component :=
  c ← construct uuid_v4 fuel p h;
  c ← render fuel c;
  Some (componentDidMount c).

(** A state update reaches the screen: render, then
    [componentDidUpdate]. *)
Definition flush (fuel : nat) (c : component) : option component :=
  c ← render fuel c;
  Some (componentDidUpdate c).

(** [handleOnClickCb(targetNode, evt)] *)
Definition handleOnClickCb (targetNode : option loc) (c : component)
  : component :=
  if Props.onClick (props c) then emit (OnClick targetNode) c else c.

(** [handleNodeToggle(nodeId, evt)] at time [now].  The working copy
    [clone(this.state.data)] is either committed, and then replaces the
    tree it was copied from, or never written to; it takes the place of
    that tree in the store.  [evt.persist()] does nothing to the engine.
    The handler runs inside a React event, so its [setState] is applied
    when the handler has returned: the assignment to
    [internalState.targetNode] comes before the render and
    [componentDidUpdate], the [setState] callback after. *)
Definition handleNodeToggle (fuel : nat) (now : Z) (nodeId : string)
  (c : component) : option component :=
  let data := State.data (state c) in
  nodeSet ← arrs (store c) !! data;
  matches ← findNodesById fuel (store c) nodeId nodeSet [];
  let targetNode := matches !! 0 in
  if Props.collapsible (props c) && negb (State.isTransitioning (state c))
  then
    t ← targetNode;
    nd ← objs (store c) !! t;
    h ← (if truthy (_collapsed nd)
         then
           h ← expandNode (store c) t;
           if Props.shouldCollapseNeighborNodes (props c)
           then collapseNeighborNodes fuel h t nodeSet
           else Some h
         else collapseNode fuel (store c) t);
    let c := with_store h c in
    let c := emit (SetData data)
               (with_state (State.Make (State.dataRef (state c)) data true
                              (State.d3 (state c))) c) in
    let c := with_timers
               (timers c ++ [(now + (Props.transitionDuration (props c) + 10))%Z])
               c in
    let c := with_internal
               (InternalState (initialRender (internal c)) (Some t)) c in
    c ← flush fuel c;
    Some (handleOnClickCb targetNode c)
  else Some (handleOnClickCb targetNode c).

(** The timer callback, [() => this.setState({ isTransitioning: false })]. *)
Definition unlock (fuel : nat) (c : component) : option component :=
  let s := state c in
  let c := emit Unlock
             (with_state (State.Make (State.dataRef s) (State.data s) false
                            (State.d3 s)) c) in
  flush fuel c.

Fixpoint repeat_unlock (fuel : nat) (k : nat) (c : component)
  : option component :=
  match k with
  | 0 => Some c
  | S k => c ← unlock fuel c; repeat_unlock fuel k c
  end.

(** A click on the node [nodeId] delivered at time [now]: the timers that
    are due run first, none runs early. *)
Definition click (fuel : nat) (now : Z) (nodeId : string) (c : component)
  : option component :=
  let due := filter (λ t, (t ≤ now)%Z) (timers c) in
  let waiting := filter (λ t, ¬ (t ≤ now)%Z) (timers c) in
  c ← repeat_unlock fuel (length due) (with_timers waiting c);
  handleNodeToggle fuel now nodeId c.

Definition is_SetData (e : effect) : bool :=
  match e with SetData _ => true | _ => false end.

Definition is_OnUpdate (e : effect) : bool :=
  match e with OnUpdate _ _ _ => true | _ => false end.

(** How many tree-state commits and update notifications a run left. *)
Definition commits (c : component) : nat :=
  length (filter (λ e, is_SetData e = true) (effects c)).

Definition notifications (c : component) : nat :=
  length (filter (λ e, is_OnUpdate e = true) (effects c)).

(** ** Runs of collapse and expand *)

(** [h'] has the shape of [h], and every flag that was [true] still is. *)
Definition collapsed_more (h h' : heap) : Prop :=
  shape h' = shape h ∧ ∀ l, is_collapsed h l true → is_collapsed h' l true.

Inductive op :=
  | Collapse (n : loc)
  | Expand (n : loc).

Definition op_target (o : op) : loc :=
  match o with Collapse n | Expand n => n end.

Definition run_op (fuel : nat) (h : heap) (o : op) : option heap :=
  match o with
  | Collapse n => collapseNode fuel h n
  | Expand n => expandNode h n
  end.

Fixpoint run_ops (fuel : nat) (h : heap) (os : list op) : option heap :=
  match os with
  | [] => Some h
  | o :: os => h ← run_op fuel h o; run_ops fuel h os
  end.

(** ** Reading trees off the store *)

(** The object at [l] exists and [p] holds of it. *)
Definition sat (h : heap) (p : node → bool) (l : loc) : Prop :=
  p <$> objs h !! l = Some true.

#[global] Instance sat_dec h p l : Decision (sat h p l).
Proof. unfold sat. apply _. Defined.

Definition has_id (nodeId : string) (nd : node) : bool :=
  bool_decide (id nd = Some nodeId).

Definition has_depth (d : option nat) (nd : node) : bool :=
  bool_decide (depth nd = d).

(** The nodes of the forest below [nodeSet], through [_children], in
    pre-order with siblings left to right, each with the length of its
    path from a root of [nodeSet] added to [k]; [n] bounds the height. *)
Fixpoint walk (n : nat) (h : heap) (k : nat) (nodeSet : list loc)
  : list (loc * nat) :=
  match n with
  | 0 => []
  | S n => flat_map (λ l, (l, k) :: walk n h (S k) (kids h l)) nodeSet
  end.

Fixpoint preorder (n : nat) (h : heap) (nodeSet : list loc) : list loc :=
  match n with
  | 0 => []
  | S n => flat_map (λ l, l :: preorder n h (kids h l)) nodeSet
  end.

(** The nodes whose path from a root has length [d], in pre-order. *)
Definition nodes_at_depth (n : nat) (h : heap) (d : nat) (nodeSet : list loc)
  : list loc :=
  (filter (λ p, p.2 = d) (walk n h 0 nodeSet)).*1.

(** Every node of the forest carries its path length, counted from [k] at
    the roots, in its [depth] field. *)
Fixpoint depths_from (n : nat) (h : heap) (k : nat) (nodeSet : list loc)
  : Prop :=
  match n with
  | 0 => nodeSet = []
  | S n =>
      Forall (λ l, sat h (has_depth (Some k)) l ∧
                   depths_from n h (S k) (kids h l)) nodeSet
  end.

(** The order in which [findNodesAtDepth] meets the nodes it keeps: the
    members of the node set first, then what lies below each of them. *)
Fixpoint levelwalk (n : nat) (h : heap) (p : node → bool)
  (nodeSet : list loc) : list loc :=
  match n with
  | 0 => []
  | S n =>
      filter (sat h p) nodeSet ++
      flat_map (λ l, levelwalk n h p (kids h l)) nodeSet
  end.

(** The [id] of the object at [l], if there is one. *)
Definition node_id (h : heap) (l : loc) : option string := objs h !! l ≫= id.

(** No two nodes of the forest carry the same [id]. *)
Definition unique_ids (n : nat) (h : heap) (nodeSet : list loc) : Prop :=
  NoDup (node_id h <$> preorder n h nodeSet).

(** What a search reads: each node's [id] and [_children], and the
    arrays. *)
Definition search_view (h : heap)
  : gmap loc (option string * option loc) * gmap loc (list loc) :=
  ((λ nd, (id nd, _children nd)) <$> objs h, arrs h).

(** The members of [this.state.data]. *)
Definition roots (c : component) : list loc :=
  default [] (arrs (store c) !! State.data (state c)).

(** ** Raw input trees *)

(** The members of [node.children], which is where a raw node keeps its
    children. *)
Definition raw_kids (h : heap) (l : loc) : list loc :=
  match objs h !! l with
  | Some nd =>
      match children nd with
      | Some c => default [] (arrs h !! c)
      | None => []
      end
  | None => []
  end.

Inductive raw_reach (h : heap) : loc → loc → Prop :=
  | raw_reach_refl l : raw_reach h l l
  | raw_reach_step l c l' :
      c ∈ raw_kids h l → raw_reach h c l' → raw_reach h l l'.

Fixpoint raw_tree_at (n : nat) (h : heap) (l : loc) : Prop :=
  match n with
  | 0 => False
  | S n =>
      ∃ nd, objs h !! l = Some nd ∧
        match children nd with
        | Some c => ∃ cs, arrs h !! c = Some cs ∧ Forall (raw_tree_at n h) cs
        | None => True
        end
  end.

(** [collapsed ?? false] *)
Definition or_false (collapsed : option bool) : bool := default false collapsed.

(** How identity assignment may change a node: the flag is kept or, when
    it was [undefined], set to [false]; the child list keeps its members,
    possibly in another array. *)
Definition flag_kept (nd0 nd : node) : Prop :=
  _collapsed nd = _collapsed nd0 ∨
  (_collapsed nd0 = None ∧ _collapsed nd = Some false).

Definition list_kept (arrs0 arrs1 : gmap loc (list loc)) (nd0 nd : node)
  : Prop :=
  match children nd0 with
  | Some c0 =>
      ∀ cs, arrs0 !! c0 = Some cs →
            ∃ c, children nd = Some c ∧ arrs1 !! c = Some cs
  | None => children nd = None
  end.

Definition assigned (h0 h : heap) : Prop :=
  (∀ a cs, arrs h0 !! a = Some cs → arrs h !! a = Some cs) ∧
  (∀ l nd0, objs h0 !! l = Some nd0 →
     ∃ nd, objs h !! l = Some nd ∧ flag_kept nd0 nd ∧
           list_kept (arrs h0) (arrs h) nd0 nd).

(** The flag of the object at [l] is a boolean. *)
Definition settled (h : heap) (l : loc) : Prop :=
  ∃ nd b, objs h !! l = Some nd ∧ _collapsed nd = Some b.

(** ** What a layout pass leaves behind *)

(** What a layout pass does not write: each node's [id], [_collapsed] and
    [_children], and the arrays. *)
Definition layout_view (h : heap)
  : gmap loc (option string * option bool * option loc) * gmap loc (list loc) :=
  ((λ nd, (id nd, _collapsed nd, _children nd)) <$> objs h, arrs h).

(** The node at [x] has been laid out: it has a depth, and its [children],
    when present, is an array of the store. *)
Definition placed (h : heap) (x : loc) : Prop :=
  ∃ nd dx, objs h !! x = Some nd ∧ depth nd = Some dx ∧
           ∀ a, children nd = Some a → is_Some (arrs h !! a).

Definition laid (h h' : heap) : Prop :=
  layout_view h' = layout_view h ∧ ∀ x, placed h x → placed h' x.

(** [this.state.data] is an array of the store whose members are roots of
    trees of height below [n]. *)
Definition holds_forest (n : nat) (c : component) : Prop :=
  ∃ rs, arrs (store c) !! State.data (state c) = Some rs ∧
        Forall (tree_at n (store c)) rs.

(** ** What the layout shows *)

(** The children the layout's accessor hands out: none for a collapsed
    node, the full child list otherwise. *)
Definition vkids (h : heap) (l : loc) : list loc :=
  match objs h !! l with
  | Some nd => if truthy (_collapsed nd) then [] else kids h l
  | None => []
  end.

(** The nodes below [nodeSet] that no collapsed ancestor hides, in
    pre-order with siblings left to right; [n] bounds the height. *)
Fixpoint visible (n : nat) (h : heap) (nodeSet : list loc) : list loc :=
  match n with
  | 0 => []
  | S n => flat_map (λ l, l :: visible n h (vkids h l)) nodeSet
  end.

(** One pair per shown node and shown child of it. *)
Definition visible_links (h : heap) (nodes : list loc) : list (loc * loc) :=
  flat_map (λ x, (λ c, (x, c)) <$> vkids h x) nodes.

(** What [tree.links] reads at a node: the members of its [children]
    array, none when the field is absent. *)
Definition shown_children (h : heap) (x : loc) : option (list loc) :=
  nd ← objs h !! x;
  match children nd with
  | Some a => arrs h !! a
  | None => Some []
  end.

(** The [children] field of [x] holds just the children the accessor
    hands out. *)
Definition linked (h : heap) (x : loc) : Prop :=
  shown_children h x = Some (vkids h x).

(** ** Runs of clicks *)

(** Clicks delivered one after the other, each with its time and the id
    of the node clicked. *)
Fixpoint run_clicks (fuel : nat) (evs : list (Z * string)) (c : component)
  : option component :=
  match evs with
  | [] => Some c
  | (now, nodeId) :: evs => c ← click fuel now nodeId c; run_clicks fuel evs c
  end.

(** New props reach the component. *)
Definition with_props (p : Props.t) (c : component) : component :=
  Component p (state c) (internal c) (store c) (timers c) (view c) (effects c).

(** The lock and its timer agree: unlocked with no timer pending, or
    locked with exactly one. *)
Definition lock_ok (c : component) : Prop :=
  (State.isTransitioning (state c) = false ∧ timers c = []) ∨
  (State.isTransitioning (state c) = true ∧ ∃ t, timers c = [t]).

(** ** What identity assignment builds *)

(** The raw forest below [nodeSet], through [children], in pre-order:
    the order in which [assignInternalProperties] visits it; [n] bounds
    the height. *)
Fixpoint raw_preorder (n : nat) (h : heap) (nodeSet : list loc) : list loc :=
  match n with
  | 0 => []
  | S n => flat_map (λ l, l :: raw_preorder n h (raw_kids h l)) nodeSet
  end.

(** The object at [l] in [h] is the one of [h0] after the visit that
    handed it the [i]-th identifier: [name] and [depth] as before; with
    no children, [children] and [_children] as before; otherwise both
    hold one and the same array, whose members are the node's raw
    children. *)
Definition derived (uuid_v4 : nat → string) (h0 h : heap) (i : nat) (l : loc)
  : Prop :=
  ∃ nd0 nd, objs h0 !! l = Some nd0 ∧ objs h !! l = Some nd ∧
    id nd = Some (uuid_v4 i) ∧ name nd = name nd0 ∧ depth nd = depth nd0 ∧
    match raw_kids h0 l with
    | [] => children nd = children nd0 ∧ _children nd = _children nd0
    | _ :: _ =>
        ∃ a, children nd = Some a ∧ _children nd = Some a ∧
             arrs h !! a = Some (raw_kids h0 l)
    end.

(** A raw leaf carries no [_children] of its own. *)
Definition no_stale_children (h : heap) (l : loc) : Prop :=
  ∀ nd, objs h !! l = Some nd → raw_kids h l = [] → _children nd = None.

(** New props that differ in the requested zoom only. *)
Definition with_zoom (z : Q) (p : Props.t) : Props.t :=
  Props.Make (Props.data p) (Props.collapsible p)
    (Props.shouldCollapseNeighborNodes p) (Props.transitionDuration p)
    (Props.initialDepth p) (Props.useCollapseData p) z (Props.scaleExtent p)
    (Props.translate p) (Props.onUpdate p) (Props.onClick p).

(** ** Counting what leaves the component *)

Definition is_Unlock (e : effect) : bool :=
  match e with Unlock => true | _ => false end.

Definition is_OnClick (e : effect) : bool :=
  match e with OnClick _ => true | _ => false end.

Definition count (p : effect → bool) (es : list effect) : nat :=
  length (filter (λ e, p e = true) es).

(** From [c] to [c'] the props stayed, and the effects added answer
    [clicks] clicks with [commits] tree-state commits and [unlocks] lock
    releases: one [onClick] call per click and one [onUpdate] call per
    commit or release, each only when the callback is a function. *)
Definition emitted (c c' : component) (clicks commits unlocks : nat) : Prop :=
  props c' = props c ∧
  ∃ es, effects c' = effects c ++ es ∧
    count is_OnClick es = (if Props.onClick (props c) then clicks else 0) ∧
    count is_SetData es = commits ∧ count is_Unlock es = unlocks ∧
    count is_OnUpdate es =
      (if Props.onUpdate (props c) then commits + unlocks else 0).

(** ** A sample tree

    [{name: "A", children: [{name: "B"}, {name: "C", children: [{name: "D"}]}]}]
    as the store holds it after identity assignment and a full layout:
    objects 1 to 4, the root array at 20, the child arrays at 21 and 22. *)
Module Sample.

Definition laid (n i : string) (c : bool) (cs : option loc) (d : nat) : node :=
  Node n (Some i) (Some c) (if c then None else cs) cs (Some d).

Definition store : heap :=
  Heap
    (list_to_map
       [(1%positive, laid "A" "a" false (Some 21%positive) 0);
        (2%positive, laid "B" "b" false None 1);
        (3%positive, laid "C" "c" false (Some 22%positive) 1);
        (4%positive, laid "D" "d" false None 2)])
    (list_to_map
       [(20%positive, [1%positive]);
        (21%positive, [2%positive; 3%positive]);
        (22%positive, [4%positive])]).

(** The same tree as the caller hands it in, with optional [_collapsed]
    flags on A and on C. *)
Definition rawnode (n : string) (c : option bool) (cs : option loc) : node :=
  Node n None c cs None None.

Definition raw (cA cC : option bool) : heap :=
  Heap
    (list_to_map
       [(1%positive, rawnode "A" cA (Some 21%positive));
        (2%positive, rawnode "B" None None);
        (3%positive, rawnode "C" cC (Some 22%positive));
        (4%positive, rawnode "D" None None)])
    (list_to_map
       [(21%positive, [2%positive; 3%positive]);
        (22%positive, [4%positive])]).

(** An identifier generator for the samples: "a", "b", "c", ... *)
Definition uuid_v4 (k : nat) : string :=
  String (Ascii.ascii_of_nat (97 + k)) "".

(** The default props, with both callbacks supplied. *)
Definition props (initialDepth : option Z) (useCollapseData : bool) : Props.t :=
  Props.Make (Obj 1%positive) true false 500 initialDepth useCollapseData
    1 (Extent (1 # 10) 1) (Point 0 0) true true.

(** A component showing the laid-out sample tree, its first render
    behind it. *)
Definition component : component :=
  Component (props None false)
    (State.Make (Obj 1%positive) 20%positive false
       (calculateD3Geometry (props None false)))
    (InternalState false None) store [] ([], []) [].

(** The same after a click on C: C and D are collapsed. *)
Definition store_C : heap :=
  Heap
    (list_to_map
       [(1%positive, laid "A" "a" false (Some 21%positive) 0);
        (2%positive, laid "B" "b" false None 1);
        (3%positive, laid "C" "c" true (Some 22%positive) 1);
        (4%positive, laid "D" "d" true None 2)])
    (arrs store).

Definition component_C : Tree.component :=
  Component (props None false)
    (State.Make (Obj 1%positive) 20%positive false
       (calculateD3Geometry (props None false)))
    (InternalState false None) store_C [] ([], []) [].

End Sample.

End Tree.

Import Tree.

(** * Properties *)

(** ** The store and [forEach] *)

Lemma update_Some f n h h' :
  update f n h = Some h' ↔
  ∃ nd, objs h !! n = Some nd ∧ h' = Heap (<[n := f nd]> (objs h)) (arrs h).
Proof.
  unfold update. destruct (objs h !! n) as [nd|]; simpl; split.
  - intros [= <-]. eauto.
  - intros (nd' & [= <-] & ->). done.
  - done.
  - intros (? & ? & _). done.
Qed.

Lemma update_arrs f n h h' : update f n h = Some h' → arrs h' = arrs h.
Proof. intros (nd & _ & ->)%update_Some. done. Qed.

Lemma update_lookup f n h h' l :
  update f n h = Some h' →
  objs h' !! l = if decide (n = l) then f <$> objs h !! l else objs h !! l.
Proof.
  intros (nd & Hn & ->)%update_Some. simpl. rewrite lookup_insert.
  case_decide; subst; by rewrite ?Hn.
Qed.

Lemma update_total f n h nd :
  objs h !! n = Some nd →
  ∃ h', update f n h = Some h' ∧ objs h' !! n = Some (f nd) ∧ arrs h' = arrs h.
Proof.
  intros Hn. unfold update. rewrite Hn. simpl. eexists. split; [done|].
  simpl. by rewrite lookup_insert_eq.
Qed.

(** A property that every call of the callback keeps holds at the end. *)
Lemma forEach_inv {S : Type} (P : S → Prop) (f : S → loc → option S) l :
  ∀ s s',
  P s →
  (∀ s x s', x ∈ l → P s → f s x = Some s' → P s') →
  forEach f s l = Some s' → P s'.
Proof.
  induction l as [|x l IH]; simpl; intros s s' Hs Hf.
  - by intros [= <-].
  - destruct (f s x) as [s1|] eqn:E; simpl; [|done].
    apply IH.
    + eapply Hf; [left | done..].
    + intros ???? ; apply Hf. by right.
Qed.

(** If every call of the callback returns and keeps [P], so does the loop. *)
Lemma forEach_total {S : Type} (P : S → Prop) (f : S → loc → option S) l :
  ∀ s,
  P s →
  (∀ s x, x ∈ l → P s → ∃ s', f s x = Some s' ∧ P s') →
  ∃ s', forEach f s l = Some s' ∧ P s'.
Proof.
  induction l as [|x l IH]; simpl; intros s Hs Hf.
  - eauto.
  - destruct (Hf s x) as (s1 & -> & Hs1); [left | done |]. simpl.
    apply IH; [done|]. intros ????. apply Hf; [by right | done].
Qed.

(** ** Shapes: what does not depend on the [_collapsed] flags *)

Lemma shape_arrs h h' : shape h = shape h' → arrs h = arrs h'.
Proof. by intros [= _ ?]. Qed.

Lemma shape_lookup h h' l :
  shape h = shape h' → erase <$> objs h !! l = erase <$> objs h' !! l.
Proof. intros [= E _]. by rewrite <- !lookup_fmap, E. Qed.

Lemma shape_lookup_Some h h' l nd :
  shape h = shape h' → objs h !! l = Some nd →
  ∃ nd', objs h' !! l = Some nd' ∧ erase nd' = erase nd.
Proof.
  intros E%(shape_lookup _ _ l) Hl. rewrite Hl in E. simpl in E.
  destruct (objs h' !! l) as [nd'|]; [|done].
  exists nd'. split; [done|]. simpl in E. congruence.
Qed.

Lemma erase__children nd nd' : erase nd' = erase nd → _children nd' = _children nd.
Proof. by intros [= ]. Qed.

Lemma erase_set_collapsed b nd : erase (set_collapsed b nd) = erase nd.
Proof. done. Qed.

Lemma shape_update_collapsed b n h h' :
  update (set_collapsed b) n h = Some h' → shape h' = shape h.
Proof.
  intros (nd & Hn & ->)%update_Some. unfold shape. simpl. f_equal.
  rewrite fmap_insert, erase_set_collapsed. apply insert_id.
  by rewrite lookup_fmap, Hn.
Qed.

Lemma kids_shape h h' l : shape h = shape h' → kids h l = kids h' l.
Proof.
  intros E. unfold kids. pose proof (shape_lookup _ _ l E) as El.
  rewrite <- (shape_arrs _ _ E).
  destruct (objs h !! l) as [nd|], (objs h' !! l) as [nd'|]; try done.
  rewrite (erase__children nd' nd); [done|]. simpl in El. congruence.
Qed.

Lemma reach_shape h h' l l' : shape h = shape h' → reach h l l' → reach h' l l'.
Proof.
  intros E. induction 1 as [|l c l' Hc _ IH]; [constructor|].
  eapply reach_step; [|done]. by rewrite <- (kids_shape h h').
Qed.

Lemma tree_at_shape n : ∀ h h' l, shape h = shape h' → tree_at n h l → tree_at n h' l.
Proof.
  induction n as [|n IH]; simpl; intros h h' l E; [done|].
  intros (nd & Hl & Hc).
  destruct (shape_lookup_Some _ _ _ _ E Hl) as (nd' & Hl' & Hnd).
  exists nd'. split; [done|]. rewrite (erase__children _ _ Hnd).
  destruct (_children nd) as [a|]; [|done].
  destruct Hc as (cs & Ha & Hcs). exists cs. rewrite <- (shape_arrs _ _ E).
  split; [done|]. eapply Forall_impl; [done|]. intros c. by apply IH.
Qed.

Lemma tree_at_S n : ∀ h l, tree_at n h l → tree_at (S n) h l.
Proof.
  induction n as [|n IH]; intros h l; [done|].
  intros (nd & Hl & Hc). exists nd. split; [done|].
  destruct (_children nd) as [a|]; [|done].
  destruct Hc as (cs & Ha & Hcs). exists cs. split; [done|].
  eapply Forall_impl; [done|]. intros c. apply IH.
Qed.

Lemma tree_at_le n m h l : n ≤ m → tree_at n h l → tree_at m h l.
Proof. induction 1; [done|]. intros. by apply tree_at_S, IHle. Qed.

Lemma kids_tree_at n h l c : tree_at (S n) h l → c ∈ kids h l → tree_at n h c.
Proof.
  intros (nd & Hl & Hc). unfold kids. rewrite Hl.
  destruct (_children nd) as [a|]; [|by intros ?%elem_of_nil].
  destruct Hc as (cs & -> & Hcs). simpl. intros Hin.
  by eapply Forall_forall in Hcs.
Qed.

(** ** Collapse *)

Lemma collapsed_more_refl h : collapsed_more h h.
Proof. by split. Qed.

Lemma collapsed_more_trans h1 h2 h3 :
  collapsed_more h1 h2 → collapsed_more h2 h3 → collapsed_more h1 h3.
Proof. intros [E1 M1] [E2 M2]. split; [congruence | auto]. Qed.

Lemma collapsed_more_update n h h' :
  update (set_collapsed (Some true)) n h = Some h' →
  collapsed_more h h' ∧ is_collapsed h' n true.
Proof.
  intros Hu. split; [split|].
  - by eapply shape_update_collapsed.
  - intros l (nd & Hl & Hc). unfold is_collapsed.
    rewrite (update_lookup _ _ _ _ l Hu), Hl. case_decide; simpl; eauto.
  - unfold is_collapsed. rewrite (update_lookup _ _ _ _ n Hu).
    apply update_Some in Hu as (nd & -> & _). rewrite decide_True by done.
    simpl. eauto.
Qed.

Lemma reach_leaf h l l' : kids h l = [] → reach h l l' → l' = l.
Proof. intros Hk. inversion 1 as [|? c ? Hc]; subst; [done|]. rewrite Hk in Hc. by apply elem_of_nil in Hc. Qed.

(** Collapsing a tree of height below [n] with fuel [n] returns, keeps the
    shape, clears no flag and sets the flag of everything below. *)
Lemma collapseNode_spec n :
  ∀ h l, tree_at n h l →
  ∃ h', collapseNode n h l = Some h' ∧ collapsed_more h h' ∧
        ∀ l', reach h l l' → is_collapsed h' l' true.
Proof.
  induction n as [|n IH]; intros h l; [done|].
  intros Ht. pose proof Ht as (nd & Hl & Hc). simpl. rewrite Hl. simpl.
  destruct (update (set_collapsed (Some true)) l h) as [h1|] eqn:Hu; simpl;
    [|by unfold update in Hu; rewrite Hl in Hu].
  destruct (collapsed_more_update _ _ _ Hu) as [[E1 M1] Hl1].
  assert (Hloop : ∀ cs h1, Forall (tree_at n h1) cs →
    ∃ h', forEach (collapseNode n) h1 cs = Some h' ∧ collapsed_more h1 h' ∧
          ∀ c l', c ∈ cs → reach h1 c l' → is_collapsed h' l' true).
  { clear -IH. induction cs as [|c cs IHcs]; intros h1 Hcs; simpl.
    - exists h1. split; [done|]. split; [apply collapsed_more_refl|].
      by intros ?? ?%elem_of_nil.
    - apply Forall_cons in Hcs as [Hc Hcs].
      destruct (IH _ _ Hc) as (h2 & -> & [E2 M2] & R2). simpl.
      destruct (IHcs h2) as (h3 & -> & [E3 M3] & R3).
      { eapply Forall_impl; [done|]. intros ?. by apply tree_at_shape. }
      exists h3. split; [done|]. split.
      { split; [congruence | auto]. }
      intros c' l' [->|Hin]%elem_of_cons Hr.
      + by apply M3, R2.
      + eapply R3; [done|]. by apply (reach_shape h1). }
  destruct (_children nd) as [a|] eqn:Ha.
  - destruct Hc as (cs & Hcs & Hall).
    rewrite (update_arrs _ _ _ _ Hu), Hcs. simpl.
    assert (Hk : kids h l = cs) by (unfold kids; by rewrite Hl, Ha, Hcs).
    case_bool_decide.
    + destruct (Hloop cs h1) as (h2 & -> & [E2 M2] & R2).
      { eapply Forall_impl; [done|]. intros ?. by apply tree_at_shape. }
      exists h2. split; [done|]. split.
      { split; [congruence | auto]. }
      inversion 1 as [|? c ? Hin Hr]; subst; [by apply M2|].
      eapply R2; [done|]. by apply (reach_shape h).
    + exists h1. split; [done|]. split; [done|].
      intros l' Hr. apply reach_leaf in Hr as ->; [done|].
      rewrite Hk. destruct cs; [done|]. simpl in *. lia.
  - exists h1. split; [done|]. split; [done|].
    intros l' Hr. apply reach_leaf in Hr as ->; [done|].
    unfold kids. by rewrite Hl, Ha.
Qed.

Lemma collapseNode_fuel n m h l :
  n ≤ m → tree_at n h l →
  ∃ h', collapseNode m h l = Some h' ∧ collapsed_more h h' ∧
        ∀ l', reach h l l' → is_collapsed h' l' true.
Proof. intros Hle Ht. apply collapseNode_spec. by eapply tree_at_le. Qed.

(** C1.  For a node [n] at the root of a tree in the store, [collapseNode]
    returns, and afterwards [n._collapsed] is [true] and so is the flag of
    every node reached from [n] through [_children]. *)
Theorem collapse_cascades k fuel h n :
  tree_at k h n → k ≤ fuel →
  ∃ h', collapseNode fuel h n = Some h' ∧
        is_collapsed h' n true ∧
        ∀ l, reach h n l → is_collapsed h' l true.
Proof.
  intros Ht Hle.
  destruct (collapseNode_fuel k fuel h n Hle Ht) as (h' & Hc & _ & Hr).
  exists h'. split; [done|]. split; [|done]. apply Hr. constructor.
Qed.

(** ** Expand *)

Lemma reach_tree_at k h c l : reach h c l → tree_at k h c → tree_at k h l.
Proof.
  induction 1 as [|c c' l Hc _ IH]; [done|]. intros Ht.
  destruct k as [|k]; [done|]. apply IH, tree_at_S. by eapply kids_tree_at.
Qed.

(** A tree in the store has no cycle: a node is not its own descendant. *)
Lemma tree_at_acyclic k : ∀ h n c, tree_at k h n → c ∈ kids h n → ¬ reach h c n.
Proof.
  induction k as [|k IH]; intros h n c Ht Hc Hr; [done|].
  assert (tree_at k h n) as Ht'.
  { eapply reach_tree_at; [done|]. by eapply kids_tree_at. }
  by eapply IH.
Qed.

(** C6.  [expandNode] returns on any node object, sets its flag to
    [false], and leaves every other object as it was, so in a tree no
    descendant's flag changes; the arrays are not touched. *)
Theorem expand_frame k h n :
  tree_at k h n →
  ∃ h', expandNode h n = Some h' ∧
        is_collapsed h' n false ∧
        (∀ l, l ≠ n → objs h' !! l = objs h !! l) ∧
        (∀ c l, c ∈ kids h n → reach h c l → objs h' !! l = objs h !! l) ∧
        arrs h' = arrs h.
Proof.
  intros Ht. destruct k as [|k]; [done|]. pose proof Ht as (nd & Hn & _).
  unfold expandNode.
  destruct (update (set_collapsed (Some false)) n h) as [h'|] eqn:Hu;
    [|by unfold update in Hu; rewrite Hn in Hu].
  exists h'. split; [done|].
  assert (∀ l, l ≠ n → objs h' !! l = objs h !! l) as Hframe.
  { intros l Hne. rewrite (update_lookup _ _ _ _ l Hu). by rewrite decide_False. }
  repeat split.
  - unfold is_collapsed. rewrite (update_lookup _ _ _ _ n Hu), Hn.
    rewrite decide_True by done. simpl. eauto.
  - done.
  - intros c l Hc Hr. apply Hframe. intros ->.
    by eapply tree_at_acyclic.
  - by eapply update_arrs.
Qed.

(** ** Runs of collapse and expand *)

Lemma run_op_shape k fuel h o :
  k ≤ fuel → tree_at k h (op_target o) →
  ∃ h', run_op fuel h o = Some h' ∧ shape h' = shape h.
Proof.
  intros Hle Ht. destruct o as [n|n]; simpl in *.
  - destruct (collapseNode_fuel k fuel h n Hle Ht) as (h' & -> & [E _] & _).
    eauto.
  - destruct k as [|k]; [done|]. destruct Ht as (nd & Hn & _).
    destruct (update_total (set_collapsed (Some false)) n h nd Hn)
      as (h' & He & _).
    exists h'. split; [done|]. by eapply shape_update_collapsed.
Qed.

Lemma run_ops_shape k fuel ops :
  ∀ h, k ≤ fuel → Forall (λ o, tree_at k h (op_target o)) ops →
  ∃ h', run_ops fuel h ops = Some h' ∧ shape h' = shape h.
Proof.
  induction ops as [|o ops IH]; intros h Hle Hall; simpl; [eauto|].
  apply Forall_cons in Hall as [Ho Hall].
  destruct (run_op_shape k fuel h o Hle Ho) as (h1 & -> & E1). simpl.
  destruct (IH h1 Hle) as (h2 & -> & E2).
  { eapply Forall_impl; [done|]. intros ?. by apply tree_at_shape. }
  exists h2. split; [done | congruence].
Qed.

(** C2.  Any run of [collapseNode] and [expandNode] calls on nodes of the
    tree returns and leaves every array as it was (length, order and
    members), every node's [_children] reference as it was, and every
    field other than [_collapsed] as it was. *)
Theorem fullChildren_invariant k fuel h ops :
  k ≤ fuel → Forall (λ o, tree_at k h (op_target o)) ops →
  ∃ h', run_ops fuel h ops = Some h' ∧
        arrs h' = arrs h ∧
        (∀ l, _children <$> objs h' !! l = _children <$> objs h !! l) ∧
        (∀ l, kids h' l = kids h l) ∧
        erase <$> objs h' = erase <$> objs h.
Proof.
  intros Hle Hall.
  destruct (run_ops_shape k fuel ops h Hle Hall) as (h' & Hrun & E).
  exists h'. split; [done|]. repeat split.
  - by apply shape_arrs.
  - intros l. pose proof (shape_lookup _ _ l E) as El.
    destruct (objs h' !! l) as [nd'|], (objs h !! l) as [nd|]; try done.
    simpl in *. f_equal. apply erase__children. congruence.
  - intros l. by apply kids_shape.
  - by injection E.
Qed.

(** ** The sample tree *)

Lemma sample_tree_at : tree_at 3 Sample.store 1%positive.
Proof.
  exists (Sample.laid "A" "a" false (Some 21%positive) 0). split; [done|].
  exists [2%positive; 3%positive]. split; [done|].
  repeat constructor.
  - by exists (Sample.laid "B" "b" false None 1).
  - exists (Sample.laid "C" "c" false (Some 22%positive) 1). split; [done|].
    exists [4%positive]. split; [done|]. repeat constructor.
    by exists (Sample.laid "D" "d" false None 2).
Qed.

Lemma collapse_cascades_witness :
  tree_at 3 Sample.store 1%positive ∧ 3 ≤ 3 ∧
  ∃ h', collapseNode 3 Sample.store 1%positive = Some h' ∧
        is_collapsed h' 1%positive true ∧
        ∀ l, reach Sample.store 1%positive l → is_collapsed h' l true.
Proof.
  split; [apply sample_tree_at|]. split; [lia|].
  apply (collapse_cascades 3 3 Sample.store 1%positive); [apply sample_tree_at | lia].
Defined.

Lemma expand_frame_witness :
  tree_at 3 Sample.store 1%positive ∧
  ∃ h', expandNode Sample.store 1%positive = Some h' ∧
        is_collapsed h' 1%positive false ∧
        (∀ l, l ≠ 1%positive → objs h' !! l = objs Sample.store !! l) ∧
        (∀ c l, c ∈ kids Sample.store 1%positive → reach Sample.store c l →
                objs h' !! l = objs Sample.store !! l) ∧
        arrs h' = arrs Sample.store.
Proof.
  split; [apply sample_tree_at|].
  apply (expand_frame 3 Sample.store 1%positive), sample_tree_at.
Defined.

(** ** Search by id *)

Lemma tree_at_is_Some n h l : tree_at n h l → is_Some (objs h !! l).
Proof. destruct n; [done|]. intros (nd & -> & _). eauto. Qed.

Lemma filter_nodes_Some p h ls :
  Forall (λ l, is_Some (objs h !! l)) ls →
  filter_nodes p h ls = Some (filter (sat h p) ls).
Proof.
  induction 1 as [|l ls [nd Hl] _ IH]; simpl; [done|].
  rewrite Hl, IH. simpl. rewrite filter_cons.
  destruct (decide (sat h p l)) as [Hs|Hs]; unfold sat in Hs;
    rewrite Hl in Hs; simpl in Hs; destruct (p nd); congruence.
Qed.

Lemma filter_nodes_tree n p h ls :
  Forall (tree_at n h) ls → filter_nodes p h ls = Some (filter (sat h p) ls).
Proof.
  intros Hall. apply filter_nodes_Some. eapply Forall_impl; [done|].
  intros l. apply tree_at_is_Some.
Qed.

Lemma kids_Forall n h l : tree_at (S n) h l → Forall (tree_at n h) (kids h l).
Proof. intros Ht. apply Forall_forall. intros c. by apply kids_tree_at. Qed.

(** On a tree node the callback of the two searches descends into [kids]. *)
Lemma descend_kids {S : Type} n h (rec : list loc → S → option S) acc node :
  tree_at n h node →
  (nd ← objs h !! node;
   match _children nd with
   | Some a =>
       cs ← arrs h !! a;
       if bool_decide (0 < length cs) then rec cs acc else Some acc
   | None => Some acc
   end) =
  (if bool_decide (0 < length (kids h node))
   then rec (kids h node) acc else Some acc).
Proof.
  destruct n; [done|]. intros (nd & Hl & Hc). unfold kids. rewrite Hl. simpl.
  destruct (_children nd) as [a|]; [|done].
  destruct Hc as (cs & -> & _). done.
Qed.

Lemma flat_map_cons_perm {A : Type} (g : A → list A) ns :
  flat_map (λ l, l :: g l) ns ≡ₚ ns ++ flat_map g ns.
Proof.
  induction ns as [|l ns IH]; simpl; [done|].
  rewrite IH. by rewrite (assoc_L (++)), (Permutation_app_comm (g l) ns), <- (assoc_L (++)).
Qed.

Lemma short_list_perm {A : Type} (l1 l2 : list A) :
  l1 ≡ₚ l2 → length l1 ≤ 1 → l1 = l2.
Proof.
  intros Hp Hlen. destruct l1 as [|a [|b l1]]; simpl in Hlen; [| |lia].
  - by apply Permutation_nil_l in Hp.
  - by apply Permutation_singleton_l in Hp.
Qed.

(** With at most one bearer of the id in the forest, the search returns
    the accumulator when it is not empty, and the bearers otherwise. *)
Lemma findNodesById_unique fuel :
  ∀ n h nodeId ns hits,
  n < fuel → Forall (tree_at n h) ns →
  length (filter (sat h (has_id nodeId)) (preorder n h ns)) ≤ 1 →
  findNodesById fuel h nodeId ns hits =
  Some (if hits is [] then filter (sat h (has_id nodeId)) (preorder n h ns)
        else hits).
Proof.
  induction fuel as [|fuel IH]; intros n h nodeId ns hits Hlt Hall Hone; [lia|].
  simpl. destruct hits as [|x hits]; [|done]. simpl.
  destruct n as [|n].
  { destruct ns as [|l ns]; [done|]. by apply Forall_cons in Hall as [[] _]. }
  rewrite (filter_nodes_tree (S n)) by done. simpl.
  set (P := sat h (has_id nodeId)) in *.
  set (g := λ l, preorder n h (kids h l)).
  assert (Hloop : ∀ ls acc,
    Forall (tree_at (S n) h) ls →
    length (acc ++ filter P (flat_map g ls)) ≤ 1 →
    forEach (λ hits node,
        nd ← objs h !! node;
        match _children nd with
        | Some a =>
            cs ← arrs h !! a;
            if bool_decide (0 < length cs)
            then findNodesById fuel h nodeId cs hits
            else Some hits
        | None => Some hits
        end) acc ls = Some (acc ++ filter P (flat_map g ls))).
  { induction ls as [|l ls IHls]; intros acc Hls Hlen; simpl in Hlen |- *.
    - by rewrite filter_nil, (right_id_L [] (++)).
    - apply Forall_cons in Hls as [Hl Hls].
      rewrite (descend_kids (S n) h (λ cs hits, findNodesById fuel h nodeId cs hits))
        by done.
      rewrite filter_app in Hlen |- *. rewrite !length_app in Hlen.
      assert ((if bool_decide (0 < length (kids h l))
               then findNodesById fuel h nodeId (kids h l) acc else Some acc)
              = Some (acc ++ filter P (g l))) as ->.
      { case_bool_decide as Hk.
        - rewrite (IH n);
            [| lia | by apply kids_Forall | change (length (filter P (g l)) ≤ 1); lia].
          fold P. fold (g l). destruct acc as [|a acc]; [done|].
          simpl in Hlen. destruct (filter P (g l)); simpl in *; [|lia].
          by rewrite (right_id_L [] (++)).
        - unfold g. destruct (kids h l); simpl in Hk; [|lia].
          assert (preorder n h [] = []) as -> by (by destruct n).
          by rewrite filter_nil, (right_id_L [] (++)). }
      simpl. rewrite IHls; [by rewrite (assoc_L (++))|done|].
      rewrite !length_app. lia. }
  assert (filter P ns ++ filter P (flat_map g ns)
          ≡ₚ filter P (flat_map (λ l, l :: g l) ns)) as Hp.
  { by rewrite <- filter_app, <- flat_map_cons_perm. }
  change (length (filter P (flat_map (λ l, l :: g l) ns)) ≤ 1) in Hone.
  etrans; [apply (Hloop ns (filter P ns)); [done|by rewrite Hp]|].
  f_equal. apply short_list_perm; [done|by rewrite Hp].
Qed.

Lemma filter_unique {A B : Type} (f : A → B) (P : A → Prop)
  `{∀ x, Decision (P x)} (v : B) (l : list A) :
  NoDup (f <$> l) → (∀ x, P x → f x = v) → length (filter P l) ≤ 1.
Proof.
  intros Hnd Hv. induction l as [|a l IH]; simpl; [lia|].
  rewrite fmap_cons in Hnd. apply NoDup_cons in Hnd as [Ha Hnd].
  rewrite filter_cons. case_decide as Hpa; [|by apply IH].
  assert (filter P l = []) as ->; [|simpl; lia].
  destruct (filter P l) as [|y ys] eqn:Ef; [done|].
  assert (y ∈ filter P l) as [Hy Hin]%list_elem_of_filter by (rewrite Ef; left).
  destruct Ha. apply list_elem_of_fmap. exists y. split; [|done].
  rewrite (Hv a), (Hv y); done.
Qed.

Lemma sat_has_id h nodeId l : sat h (has_id nodeId) l → node_id h l = Some nodeId.
Proof.
  unfold sat, node_id, has_id. destruct (objs h !! l) as [nd|]; simpl; [|done].
  intros [= Hb]. by apply bool_decide_eq_true in Hb.
Qed.

Lemma forEach_ext {S : Type} (f g : S → loc → option S) l :
  (∀ s x, x ∈ l → f s x = g s x) → ∀ s, forEach f s l = forEach g s l.
Proof.
  induction l as [|x l IH]; simpl; intros Hfg s; [done|].
  rewrite Hfg by left. destruct (g s x); simpl; [|done].
  apply IH. intros ???. apply Hfg. by right.
Qed.

Lemma filter_nodes_ext p h h' ls :
  (∀ l, p <$> objs h' !! l = p <$> objs h !! l) →
  filter_nodes p h' ls = filter_nodes p h ls.
Proof.
  intros E. induction ls as [|l ls IH]; simpl; [done|]. rewrite IH.
  specialize (E l).
  destruct (objs h' !! l) as [nd'|], (objs h !! l) as [nd|]; simplify_eq/=; [|done].
  destruct (filter_nodes p h ls); simpl; [|done]. by rewrite E.
Qed.

Lemma search_view_lookup h h' l :
  search_view h' = search_view h →
  (λ nd, (id nd, _children nd)) <$> objs h' !! l =
  (λ nd, (id nd, _children nd)) <$> objs h !! l.
Proof. intros [= E _]. by rewrite <- !lookup_fmap, E. Qed.

(** A search by id reads nothing but ids, [_children] and the arrays. *)
Lemma findNodesById_view fuel h h' nodeId :
  search_view h' = search_view h →
  ∀ ns hits,
  findNodesById fuel h' nodeId ns hits = findNodesById fuel h nodeId ns hits.
Proof.
  intros E.
  assert (arrs h' = arrs h) as Ea by (by injection E).
  pose proof (λ l, search_view_lookup _ _ l E) as El. clear E.
  induction fuel as [|fuel IH]; intros ns hits; simpl; [done|].
  case_bool_decide; [done|].
  rewrite (filter_nodes_ext _ h h').
  2:{ intros l. specialize (El l).
      destruct (objs h' !! l) as [nd'|], (objs h !! l) as [nd|]; simpl in *;
        try done.
      injection El as Hi _. by rewrite Hi. }
  destruct (filter_nodes _ h ns); simpl; [|done].
  apply forEach_ext. intros acc x _. specialize (El x). rewrite Ea.
  destruct (objs h' !! x) as [nd'|], (objs h !! x) as [nd|]; simpl in *;
    try done.
  injection El as _ Hc. rewrite Hc.
  destruct (_children nd) as [a|]; [|done].
  destruct (arrs h !! a); simpl; [|done].
  case_bool_decide; [apply IH | done].
Qed.

(** C4.  [findNodesById(id, roots, [])] on a forest in the store:
    a non-empty accumulator is returned at once, whatever the node set,
    so nothing is searched after a match; the search reads only ids,
    [_children] and the arrays, so collapse flags and the filtered
    [children] cannot hide a node; and when ids are unique it returns the
    bearers of the id among all nodes of the forest, at most one. *)
Theorem findNodesById_first_match n fuel h nodeId roots :
  n < fuel → Forall (tree_at n h) roots →
  (∀ nodeSet hits, hits ≠ [] →
     findNodesById fuel h nodeId nodeSet hits = Some hits) ∧
  (∀ h', search_view h' = search_view h →
     findNodesById fuel h' nodeId roots [] = findNodesById fuel h nodeId roots []) ∧
  (unique_ids n h roots →
     ∃ r, findNodesById fuel h nodeId roots [] = Some r ∧
          length r ≤ 1 ∧
          r = filter (sat h (has_id nodeId)) (preorder n h roots)).
Proof.
  intros Hlt Hall. split; [|split].
  - intros nodeSet hits Hne. destruct fuel as [|fuel]; [lia|]. simpl.
    destruct hits; [done|]. done.
  - intros h' E. by apply findNodesById_view.
  - intros Hu.
    assert (length (filter (sat h (has_id nodeId)) (preorder n h roots)) ≤ 1) as Hone.
    { eapply (filter_unique (node_id h)); [done|]. apply sat_has_id. }
    eexists. split; [by apply (findNodesById_unique fuel n)|]. done.
Qed.

(** ** Search by depth *)

Lemma levelwalk_nil n h p : levelwalk n h p [] = [].
Proof. by destruct n. Qed.

(** The search by depth returns on a forest and appends to the
    accumulator, in the order of [levelwalk], the nodes whose [depth]
    field is the one asked for. *)
Lemma findNodesAtDepth_levelwalk fuel :
  ∀ n h d ns acc,
  n < fuel → Forall (tree_at n h) ns →
  findNodesAtDepth fuel h d ns acc = Some (acc ++ levelwalk n h (has_depth d) ns).
Proof.
  induction fuel as [|fuel IH]; intros n h d ns acc Hlt Hall; [lia|].
  simpl. destruct n as [|n].
  { destruct ns as [|l ns]; [|by apply Forall_cons in Hall as [[] _]].
    simpl. by rewrite (right_id_L [] (++)). }
  rewrite (filter_nodes_tree (S n)) by done. simpl.
  set (p := has_depth d).
  assert (Hloop : ∀ ls acc,
    Forall (tree_at (S n) h) ls →
    forEach (λ accumulator node,
        nd ← objs h !! node;
        match _children nd with
        | Some a =>
            cs ← arrs h !! a;
            if bool_decide (0 < length cs)
            then findNodesAtDepth fuel h d cs accumulator
            else Some accumulator
        | None => Some accumulator
        end) acc ls
    = Some (acc ++ flat_map (λ l, levelwalk n h p (kids h l)) ls)).
  { induction ls as [|l ls IHls]; intros acc' Hls; simpl.
    - by rewrite (right_id_L [] (++)).
    - apply Forall_cons in Hls as [Hl Hls].
      rewrite (descend_kids (S n) h (λ cs acc, findNodesAtDepth fuel h d cs acc))
        by done.
      assert ((if bool_decide (0 < length (kids h l))
               then findNodesAtDepth fuel h d (kids h l) acc' else Some acc')
              = Some (acc' ++ levelwalk n h p (kids h l))) as ->.
      { case_bool_decide as Hk.
        - apply (IH n); [lia | by apply kids_Forall].
        - destruct (kids h l); simpl in Hk; [|lia].
          by rewrite levelwalk_nil, (right_id_L [] (++)). }
      simpl. rewrite IHls by done. by rewrite (assoc_L (++)). }
  etrans; [apply (Hloop ns (acc ++ filter (sat h p) ns) Hall)|].
  by rewrite (assoc_L (++)).
Qed.

Lemma preorder_nil n h : preorder n h [] = [].
Proof. by destruct n. Qed.

(** [levelwalk] keeps exactly the nodes of the forest that satisfy [p]. *)
Lemma levelwalk_perm n : ∀ h p ns,
  levelwalk n h p ns ≡ₚ filter (sat h p) (preorder n h ns).
Proof.
  induction n as [|n IH]; intros h p ns; simpl; [done|].
  rewrite (flat_map_cons_perm (λ l, preorder n h (kids h l)) ns), filter_app.
  apply Permutation_app_head.
  induction ns as [|l ns IHns]; simpl; [done|].
  by rewrite filter_app, IH, IHns.
Qed.

Lemma sat_has_depth h k d l :
  sat h (has_depth (Some k)) l → sat h (has_depth (Some d)) l ↔ d = k.
Proof.
  unfold sat, has_depth. destruct (objs h !! l) as [nd|]; simpl; [|done].
  intros [= Hk%bool_decide_eq_true]. rewrite Hk. split.
  - intros [= Hd%bool_decide_eq_true]. congruence.
  - intros ->. by rewrite bool_decide_eq_true_2.
Qed.

Lemma levelwalk_below n : ∀ h k ns d,
  depths_from n h k ns → d < k → levelwalk n h (has_depth (Some d)) ns = [].
Proof.
  induction n as [|n IH]; intros h k ns d Hd Hlt; simpl in *; [done|].
  induction Hd as [|l ns [Hl Hk] _ IHns]; simpl; [done|].
  rewrite filter_cons. rewrite decide_False.
  2:{ intros Hs. apply (sat_has_depth _ _ _ _ Hl) in Hs. lia. }
  apply app_eq_nil in IHns as [-> ->].
  rewrite (IH h (S k)); [done..|lia].
Qed.

Lemma walk_ge n : ∀ h k ns p, p ∈ walk n h k ns → k ≤ p.2.
Proof.
  induction n as [|n IH]; intros h k ns p; simpl; [by intros ?%elem_of_nil|].
  induction ns as [|l ns IHns]; simpl; [by intros ?%elem_of_nil|].
  intros [->|[Hin|Hin]%elem_of_app]%elem_of_cons; simpl; [lia| |by apply IHns].
  apply IH in Hin. lia.
Qed.

Lemma walk_below n h k ns d :
  d < k → filter (λ p : loc * nat, p.2 = d) (walk n h k ns) = [].
Proof.
  intros Hlt. destruct (filter _ _) as [|p ps] eqn:Ef; [done|].
  assert (p ∈ filter (λ p : loc * nat, p.2 = d) (walk n h k ns))
    as [Hp Hin%walk_ge]%list_elem_of_filter by (rewrite Ef; left).
  lia.
Qed.

(** When the [depth] fields hold the path lengths, [levelwalk] lists the
    nodes at path length [d] in pre-order. *)
Lemma levelwalk_walk n : ∀ h k ns d,
  depths_from n h k ns →
  levelwalk n h (has_depth (Some d)) ns =
  (filter (λ p : loc * nat, p.2 = d) (walk n h k ns)).*1.
Proof.
  induction n as [|n IH]; intros h k ns d Hd; simpl in *; [done|].
  destruct (decide (d = k)) as [->|Hne].
  - induction Hd as [|l ns [Hl Hk] _ IHns]; simpl; [done|].
    rewrite !filter_cons, filter_app.
    rewrite decide_True by (by apply (sat_has_depth _ _ _ _ Hl)).
    rewrite decide_True by done.
    rewrite (levelwalk_below n h (S k)) by (done || lia).
    rewrite (walk_below n h (S k)) by lia. simpl in *. by f_equal.
  - assert (filter (sat h (has_depth (Some d))) ns = []) as ->.
    { induction Hd as [|l ns [Hl _] _ IHf]; [done|].
      rewrite filter_cons, decide_False; [done|].
      by rewrite (sat_has_depth _ _ _ _ Hl). }
    simpl. induction Hd as [|l ns [Hl Hk] _ IHns]; simpl; [done|].
    rewrite filter_cons, decide_False by (simpl; congruence).
    by rewrite filter_app, fmap_app, <- (IH h (S k)), IHns.
Qed.

(** With no short-circuit, the search by depth returns exactly the nodes
    of the forest whose [depth] field is [d]. *)
Lemma findNodesAtDepth_depth_field n fuel h d roots :
  n < fuel → Forall (tree_at n h) roots →
  ∃ r, findNodesAtDepth fuel h d roots [] = Some r ∧
       r ≡ₚ filter (sat h (has_depth d)) (preorder n h roots).
Proof.
  intros Hlt Hall. eexists. split.
  - by apply (findNodesAtDepth_levelwalk fuel n).
  - apply levelwalk_perm.
Qed.

(** C5, amended.  On a forest in which every node's [depth] field holds
    its path length from the root (every node has been laid out),
    [findNodesAtDepth(d, roots, [])] returns exactly the nodes at path
    length [d], over the full [_children] structure, in pre-order with
    siblings left to right. *)
Theorem findNodesAtDepth_laid_out n fuel h d roots :
  n < fuel → Forall (tree_at n h) roots → depths_from n h 0 roots →
  findNodesAtDepth fuel h (Some d) roots [] = Some (nodes_at_depth n h d roots).
Proof.
  intros Hlt Hall Hd.
  rewrite (findNodesAtDepth_levelwalk fuel n) by done. simpl.
  unfold nodes_at_depth. by rewrite <- (levelwalk_walk n h 0).
Qed.

(** C5 as stated fails.  Mount the sample tree with C collapsed in the
    input data: the layout never reaches D, D keeps an [undefined] depth,
    and the search for depth 2 returns nothing although D is at path
    length 2. *)
Lemma findNodesAtDepth_hidden_counterexample :
  ∃ c, mount Sample.uuid_v4 4 (Sample.props None true)
         (Sample.raw None (Some true)) = Some c ∧
       Forall (tree_at 3 (store c)) (roots c) ∧
       findNodesAtDepth 4 (store c) (Some 2) (roots c) [] = Some [] ∧
       nodes_at_depth 3 (store c) 2 (roots c) = [4%positive].
Proof.
  eexists. split; [vm_compute; reflexivity|]. split; [|split].
  - repeat first
      [ apply Forall_nil_2 | apply Forall_cons_2 | progress (simpl tree_at)
      | eexists | split; [vm_compute; reflexivity|] | exact I ].
  - vm_compute. reflexivity.
  - vm_compute. reflexivity.
Qed.

(** Trees and depth fields of a concrete store, by evaluation. *)
Ltac solve_tree_at :=
  repeat first
    [ apply Forall_nil_2 | apply Forall_cons_2
    | progress (simpl tree_at) | progress (simpl depths_from)
    | eexists | split; [vm_compute; reflexivity|] | exact I
    | split | vm_compute; reflexivity ].

Lemma fullChildren_invariant_witness :
  let ops := [Collapse 3%positive; Expand 1%positive; Collapse 1%positive;
              Expand 3%positive] in
  3 ≤ 3 ∧ Forall (λ o, tree_at 3 Sample.store (op_target o)) ops ∧
  ∃ h', run_ops 3 Sample.store ops = Some h' ∧
        arrs h' = arrs Sample.store ∧
        (∀ l, _children <$> objs h' !! l = _children <$> objs Sample.store !! l) ∧
        (∀ l, kids h' l = kids Sample.store l) ∧
        erase <$> objs h' = erase <$> objs Sample.store.
Proof.
  intros ops.
  assert (Forall (λ o, tree_at 3 Sample.store (op_target o)) ops) as Hops
    by (subst ops; solve_tree_at).
  split; [lia|]. split; [done|].
  apply (fullChildren_invariant 3 3 Sample.store ops); [lia | done].
Defined.

Lemma findNodesById_first_match_witness :
  3 < 4 ∧ Forall (tree_at 3 Sample.store) [1%positive] ∧
  (∀ nodeSet hits, hits ≠ [] →
     findNodesById 4 Sample.store "d" nodeSet hits = Some hits) ∧
  (∀ h', search_view h' = search_view Sample.store →
     findNodesById 4 h' "d" [1%positive] [] =
     findNodesById 4 Sample.store "d" [1%positive] []) ∧
  (unique_ids 3 Sample.store [1%positive] →
     ∃ r, findNodesById 4 Sample.store "d" [1%positive] [] = Some r ∧
          length r ≤ 1 ∧
          r = filter (sat Sample.store (has_id "d"))
                (preorder 3 Sample.store [1%positive])).
Proof.
  assert (Forall (tree_at 3 Sample.store) [1%positive]) as Ht by solve_tree_at.
  split; [lia|]. split; [done|].
  apply (findNodesById_first_match 3 4 Sample.store "d" [1%positive]); [lia | done].
Defined.

(** The ids of the sample tree are unique, and searching it for "d"
    finds D, two levels down. *)
Lemma sample_findNodesById :
  unique_ids 3 Sample.store [1%positive] ∧
  findNodesById 4 Sample.store "d" [1%positive] [] = Some [4%positive].
Proof.
  split; [|vm_compute; reflexivity].
  unfold unique_ids. apply (bool_decide_unpack _). vm_compute. exact I.
Qed.

Lemma findNodesAtDepth_laid_out_witness :
  3 < 4 ∧ Forall (tree_at 3 Sample.store) [1%positive] ∧
  depths_from 3 Sample.store 0 [1%positive] ∧
  findNodesAtDepth 4 Sample.store (Some 1) [1%positive] [] =
  Some (nodes_at_depth 3 Sample.store 1 [1%positive]).
Proof.
  assert (Forall (tree_at 3 Sample.store) [1%positive]) as Ht by solve_tree_at.
  assert (depths_from 3 Sample.store 0 [1%positive]) as Hd by solve_tree_at.
  split; [lia|]. split; [done|]. split; [done|].
  apply (findNodesAtDepth_laid_out 3 4 Sample.store 1 [1%positive]); [lia | done..].
Defined.

Lemma sample_findNodesAtDepth :
  findNodesAtDepth 4 Sample.store (Some 1) [1%positive] [] =
  Some [2%positive; 3%positive].
Proof. vm_compute. reflexivity. Qed.

(** ** Geometry *)

(** C7.  With [min <= max], the resolved scale is the requested zoom
    clamped to the extent, and [translate] is handed through. *)
Theorem calculateD3Geometry_clamps (p : Props.t) :
  (min (Props.scaleExtent p) <= max (Props.scaleExtent p))%Q →
  (Geometry.scale (calculateD3Geometry p) ==
   clamp (Props.zoom p) (min (Props.scaleExtent p)) (max (Props.scaleExtent p)))%Q ∧
  Geometry.translate (calculateD3Geometry p) = Props.translate p.
Proof.
  intros Hext. split; [|done]. unfold calculateD3Geometry, clamp. simpl.
  destruct (Qlt_le_dec _ _) as [Hhi|Hhi].
  - rewrite Q.min_r by (by apply Qlt_le_weak). by rewrite Q.max_r.
  - rewrite Q.min_l by done.
    destruct (Qlt_le_dec _ _) as [Hlo|Hlo].
    + by rewrite Q.max_l by (by apply Qlt_le_weak).
    + by rewrite Q.max_r.
Qed.

Lemma calculateD3Geometry_clamps_witness :
  let p := Props.Make (Obj 1%positive) true false 500 None false
             5 (Extent (1 # 10) 2) (Point 0 0) true true in
  (min (Props.scaleExtent p) <= max (Props.scaleExtent p))%Q ∧
  (Geometry.scale (calculateD3Geometry p) ==
   clamp (Props.zoom p) (min (Props.scaleExtent p)) (max (Props.scaleExtent p)))%Q ∧
  Geometry.translate (calculateD3Geometry p) = Props.translate p.
Proof.
  intros p.
  assert (min (Props.scaleExtent p) <= max (Props.scaleExtent p))%Q as Hext
    by (vm_compute; discriminate).
  split; [done|]. apply (calculateD3Geometry_clamps p), Hext.
Defined.

(** The spec's scenario: zoom 5 with extent 0.1 to 2 resolves to scale 2. *)
Lemma calculateD3Geometry_scenario (tr : point) :
  Geometry.scale
    (calculateD3Geometry
       (Props.Make (Obj 1%positive) true false 500 None false
          5 (Extent (1 # 10) 2) tr true true)) = 2%Q.
Proof. reflexivity. Qed.

(** ** Identity assignment *)

Lemma assigned_refl h : assigned h h.
Proof.
  split; [done|]. intros l nd Hl. exists nd. split; [done|]. split; [by left|].
  unfold list_kept. destruct (children nd) as [c|]; eauto.
Qed.

Lemma flag_kept_trans nd0 nd1 nd2 :
  flag_kept nd0 nd1 → flag_kept nd1 nd2 → flag_kept nd0 nd2.
Proof. unfold flag_kept. intros [?|[??]] [?|[??]]; intuition congruence. Qed.

Lemma assigned_trans h0 h1 h2 : assigned h0 h1 → assigned h1 h2 → assigned h0 h2.
Proof.
  intros [A1 N1] [A2 N2]. split; [by auto|].
  intros l nd0 Hl. destruct (N1 l nd0 Hl) as (nd1 & Hl1 & F1 & L1).
  destruct (N2 l nd1 Hl1) as (nd2 & Hl2 & F2 & L2).
  exists nd2. split; [done|]. split; [by eapply flag_kept_trans|].
  unfold list_kept in *. destruct (children nd0) as [c0|].
  - intros cs Hc0. destruct (L1 cs Hc0) as (c1 & Hc1 & Ha1). rewrite Hc1 in L2.
    by apply L2.
  - by rewrite L1 in L2.
Qed.

(** An update that respects the flag and the child list is an assignment
    step. *)
Lemma assigned_update f n h h' :
  update f n h = Some h' →
  (∀ nd, objs h !! n = Some nd →
         flag_kept nd (f nd) ∧ list_kept (arrs h) (arrs h) nd (f nd)) →
  assigned h h'.
Proof.
  intros Hu Hf. pose proof (update_arrs _ _ _ _ Hu) as Ea.
  split; [by rewrite Ea|]. intros l nd0 Hl.
  rewrite (update_lookup _ _ _ _ l Hu), Ea, Hl. case_decide as Hn; simpl.
  - subst l. exists (f nd0). split; [done|]. by apply Hf.
  - exists nd0. split; [done|]. split; [by left|].
    unfold list_kept. destruct (children nd0) as [c|]; eauto.
Qed.

Lemma list_kept_same A nd nd' : children nd' = children nd → list_kept A A nd nd'.
Proof. unfold list_kept. intros ->. destruct (children nd) as [c|]; eauto. Qed.

Lemma assigned_alloc h d h' a :
  alloc_arr h d = (h', a) → assigned h h' ∧ arrs h' !! a = Some d.
Proof.
  unfold alloc_arr. intros [= <- <-]. simpl.
  pose proof (is_fresh (dom (arrs h))) as Hfresh.
  apply not_elem_of_dom in Hfresh.
  assert (∀ a' cs, arrs h !! a' = Some cs →
            <[fresh (dom (arrs h)) := d]> (arrs h) !! a' = Some cs) as Hold.
  { intros a' cs Ha'. rewrite lookup_insert_ne; [done|]. congruence. }
  split; [|by rewrite lookup_insert_eq]. split; simpl; [done|].
  intros l nd0 Hl. exists nd0. split; [done|]. split; [by left|].
  unfold list_kept. destruct (children nd0) as [c|]; eauto.
Qed.

Lemma settled_assigned h h' l : assigned h h' → settled h l → settled h' l.
Proof.
  intros [_ N] (nd & b & Hl & Hb). destruct (N l nd Hl) as (nd' & Hl' & F & _).
  exists nd', b. split; [done|]. destruct F as [F|[F _]]; congruence.
Qed.

Lemma raw_tree_at_assigned n : ∀ h h' l,
  assigned h h' → raw_tree_at n h l →
  raw_tree_at n h' l ∧ raw_kids h' l = raw_kids h l.
Proof.
  induction n as [|n IH]; intros h h' l HA; [done|]. simpl.
  intros (nd & Hl & Hc). pose proof HA as [A N].
  destruct (N l nd Hl) as (nd' & Hl' & _ & L). unfold list_kept in L.
  unfold raw_kids. rewrite Hl, Hl'.
  destruct (children nd) as [c|].
  - destruct Hc as (cs & Hcs & Hall). destruct (L cs Hcs) as (c' & Hc' & Ha').
    rewrite Hc', Ha', Hcs. split; [|done]. exists nd'. split; [done|].
    rewrite Hc'. exists cs. split; [done|].
    eapply Forall_impl; [done|]. intros x Hx. by apply (IH h h' x HA).
  - rewrite L. split; [|done]. exists nd'. by rewrite L.
Qed.

Lemma raw_kids_tree_at n h l c :
  raw_tree_at (S n) h l → c ∈ raw_kids h l → raw_tree_at n h c.
Proof.
  intros (nd & Hl & Hc). unfold raw_kids. rewrite Hl.
  destruct (children nd) as [a|]; [|by intros ?%elem_of_nil].
  destruct Hc as (cs & -> & Hcs). simpl. intros Hin.
  by eapply Forall_forall in Hcs.
Qed.

Lemma raw_reach_assigned n h h' r l :
  assigned h h' → raw_tree_at n h r → raw_reach h r l → raw_reach h' r l.
Proof.
  intros HA Ht Hr. revert n Ht.
  induction Hr as [|r c l Hc _ IH]; intros n Ht; [constructor|].
  destruct n as [|n]; [done|].
  eapply raw_reach_step.
  - by rewrite (proj2 (raw_tree_at_assigned _ _ _ _ HA Ht)).
  - apply (IH n). by eapply raw_kids_tree_at.
Qed.

Lemma raw_reach_leaf h l l' : raw_kids h l = [] → raw_reach h l l' → l' = l.
Proof.
  intros Hk. inversion 1 as [|? c ? Hc]; subst; [done|].
  rewrite Hk in Hc. by apply elem_of_nil in Hc.
Qed.

(** Identity assignment returns on a raw forest; it keeps or defaults
    every flag, keeps every child list, and leaves a boolean flag on every
    node of the forest. *)
Lemma assignInternalProperties_spec uuid_v4 fuel :
  ∀ n h k data d,
  n < fuel → data_list h data = Some d → Forall (raw_tree_at n h) d →
  ∃ h' k' a,
    assignInternalProperties uuid_v4 fuel (h, k) data = Some (h', k', a) ∧
    assigned h h' ∧ arrs h' !! a = Some d ∧
    ∀ r l, r ∈ d → raw_reach h r l → settled h' l.
Proof.
  induction fuel as [|fuel IH]; intros n h k data d Hlt Hd Hall; [lia|].
  simpl. rewrite Hd. simpl.
  match goal with |- context [forEach ?f _ _] => set (CB := f) end.
  assert (Hnode : ∀ h1 k1 l, raw_tree_at n h1 l →
    ∃ h2 k2, CB (h1, k1) l = Some (h2, k2) ∧ assigned h1 h2 ∧
             ∀ l', raw_reach h1 l l' → settled h2 l').
  { intros h1 k1 l Ht. destruct n as [|n]; [done|].
    pose proof Ht as (nd1 & Hl & Hc). unfold CB. simpl.
    destruct (update_total (set_id (Some (uuid_v4 k1))) l h1 nd1 Hl)
      as (ha & Hua & Hla & Eaa). rewrite Hua. simpl. rewrite Hla. simpl.
    assert (assigned h1 ha) as HAa.
    { eapply assigned_update; [done|].
      intros nd Hnd. split; [by left|]. by apply list_kept_same. }
    assert (∃ hb ndb,
      (if _collapsed nd1 is None
       then update (set_collapsed (Some false)) l ha else Some ha) = Some hb ∧
      assigned ha hb ∧ objs hb !! l = Some ndb ∧
      children ndb = children nd1 ∧ settled hb l ∧ arrs hb = arrs ha)
      as (hb & ndb & -> & HAb & Hlb & Hcb & Hsb & Eab).
    { destruct (_collapsed nd1) as [b|] eqn:Ec.
      - exists ha, (set_id (Some (uuid_v4 k1)) nd1).
        repeat split; try done. { apply assigned_refl. }
        eexists. exists b. split; [done|]. done.
      - destruct (update_total (set_collapsed (Some false)) l ha _ Hla)
          as (hb & Hub & Hlb & Eab).
        exists hb, (set_collapsed (Some false) (set_id (Some (uuid_v4 k1)) nd1)).
        split; [done|]. split.
        { eapply assigned_update; [done|]. intros nd Hnd.
          rewrite Hla in Hnd. injection Hnd as <-.
          split; [right; by split | by apply list_kept_same]. }
        repeat split; try done. eexists. exists false. split; [done|]. done. }
    simpl.
    assert (assigned h1 hb) as HA1b by (by eapply assigned_trans).
    assert (raw_kids h1 l = default [] (children nd1 ≫= (arrs h1 !!.))) as Hkids.
    { unfold raw_kids. rewrite Hl. by destruct (children nd1). }
    destruct (children nd1) as [c|] eqn:Ech.
    - destruct Hc as (cs & Hcs & Hcsall). simpl in Hkids. rewrite Hcs in Hkids.
      rewrite Eab, Eaa, Hcs. simpl. case_bool_decide as Hne.
      + destruct (IH n hb (S k1) (Arr c) cs) as (hc & kc & a & -> & HAc & Haa & Hset).
        { lia. }
        { simpl. by rewrite Eab, Eaa. }
        { eapply Forall_impl; [done|]. intros x Hx.
          by apply (raw_tree_at_assigned n h1 hb x HA1b). }
        simpl. pose proof HAc as [_ Nc].
        destruct (Nc l ndb Hlb) as (ndc & Hlc & _ & Lc).
        unfold list_kept in Lc. rewrite Hcb in Lc.
        destruct (Lc cs) as (c' & Hc' & Hac'); [by rewrite Eab, Eaa|].
        destruct (update_total (set_children (Some a)) l hc ndc Hlc)
          as (hd & Hud & Hld & Ead). rewrite Hud. simpl.
        destruct (update_total (set__children (Some a)) l hd _ Hld)
          as (he & Hue & Hle & Eae). rewrite Hue. simpl.
        assert (assigned hc hd) as HAd.
        { eapply assigned_update; [done|]. intros nd Hnd.
          rewrite Hlc in Hnd. injection Hnd as <-. split; [by left|].
          unfold list_kept. rewrite Hc'. intros cs0 Hcs0.
          exists a. split; [done|]. congruence. }
        assert (assigned hd he) as HAe.
        { eapply assigned_update; [done|]. intros nd Hnd.
          split; [by left | by apply list_kept_same]. }
        assert (assigned hb he) as HAbe.
        { eapply assigned_trans; [done|]. by eapply assigned_trans. }
        exists he, kc. split; [done|]. split; [by eapply assigned_trans|].
        intros l'. inversion 1 as [|? x ? Hx Hr]; subst.
        * by eapply settled_assigned.
        * rewrite Hkids in Hx. simpl in Hx.
          apply (settled_assigned hc he); [by apply (assigned_trans hc hd he)|].
          apply (Hset x l' Hx).
          apply (raw_reach_assigned n h1 hb); [done| |done].
          by eapply Forall_forall in Hcsall.
      + exists hb, (S k1). split; [done|]. split; [done|].
        intros l' Hr. apply raw_reach_leaf in Hr as ->; [done|].
        rewrite Hkids. destruct cs; [done|]. simpl in Hne. lia.
    - exists hb, (S k1). split; [done|]. split; [done|].
      intros l' Hr. by apply raw_reach_leaf in Hr as ->. }
  assert (Hloop : ∀ ls h1 k1, Forall (raw_tree_at n h1) ls →
    ∃ h2 k2, forEach CB (h1, k1) ls = Some (h2, k2) ∧ assigned h1 h2 ∧
             ∀ r l, r ∈ ls → raw_reach h1 r l → settled h2 l).
  { induction ls as [|x ls IHls]; intros h1 k1 Hls.
    - exists h1, k1. split; [done|]. split; [apply assigned_refl|].
      by intros ?? ?%elem_of_nil.
    - apply Forall_cons in Hls as [Hx Hls].
      change (forEach CB (h1, k1) (x :: ls))
        with (CB (h1, k1) x ≫= λ s', forEach CB s' ls).
      destruct (Hnode h1 k1 x Hx) as (h2 & k2 & -> & HA2 & Hs2).
      change (Some (h2, k2) ≫= λ s', forEach CB s' ls)
        with (forEach CB (h2, k2) ls).
      destruct (IHls h2 k2) as (h3 & k3 & -> & HA3 & Hs3).
      { eapply Forall_impl; [done|]. intros y Hy.
        by apply (raw_tree_at_assigned n h1 h2 y HA2). }
      exists h3, k3. split; [done|]. split; [by eapply assigned_trans|].
      intros r l [->|Hin]%elem_of_cons Hr.
      + eapply settled_assigned; [done|]. by apply Hs2.
      + apply (Hs3 r l Hin). apply (raw_reach_assigned n h1 h2); [done| |done].
        by eapply Forall_forall in Hls. }
  destruct (Hloop d h k Hall) as (h2 & k2 & -> & HA2 & Hs2). simpl.
  destruct (assigned_alloc h2 d _ _ eq_refl) as [HA3 Ha].
  do 3 eexists. split; [reflexivity|]. split; [by eapply assigned_trans|].
  split; [done|]. intros r l Hin Hr.
  eapply settled_assigned; [done|]. by eapply Hs2.
Qed.

(** C8.  Identity assignment returns on a raw forest, and every node of
    the input ends with the flag [collapsed ?? false]: a supplied [true]
    or [false] is kept, an [undefined] flag becomes [false]. *)
Theorem assignInternalProperties_collapsed uuid_v4 n fuel h k data d :
  n < fuel → data_list h data = Some d → Forall (raw_tree_at n h) d →
  ∃ h' k' a,
    assignInternalProperties uuid_v4 fuel (h, k) data = Some (h', k', a) ∧
    ∀ r l nd, r ∈ d → raw_reach h r l → objs h !! l = Some nd →
      ∃ nd', objs h' !! l = Some nd' ∧
             _collapsed nd' = Some (or_false (_collapsed nd)).
Proof.
  intros Hlt Hd Hall.
  destruct (assignInternalProperties_spec uuid_v4 fuel n h k data d Hlt Hd Hall)
    as (h' & k' & a & Hrun & [_ N] & _ & Hset).
  exists h', k', a. split; [done|]. intros r l nd Hin Hr Hl.
  destruct (N l nd Hl) as (nd' & Hl' & F & _).
  destruct (Hset r l Hin Hr) as (nd'' & b & Hl'' & Hb).
  rewrite Hl' in Hl''. injection Hl'' as <-.
  exists nd'. split; [done|]. unfold or_false.
  destruct F as [F|[F1 F2]]; [rewrite <- F, Hb | rewrite F1, F2]; done.
Qed.

Ltac solve_raw_tree_at :=
  repeat first
    [ apply Forall_nil_2 | apply Forall_cons_2
    | progress (simpl raw_tree_at)
    | eexists | split; [vm_compute; reflexivity|] | exact I ].

Lemma assignInternalProperties_collapsed_witness :
  let h := Sample.raw (Some true) None in
  3 < 4 ∧ data_list h (Obj 1%positive) = Some [1%positive] ∧
  Forall (raw_tree_at 3 h) [1%positive] ∧
  ∃ h' k' a,
    assignInternalProperties Sample.uuid_v4 4 (h, 0) (Obj 1%positive)
      = Some (h', k', a) ∧
    ∀ r l nd, r ∈ [1%positive] → raw_reach h r l → objs h !! l = Some nd →
      ∃ nd', objs h' !! l = Some nd' ∧
             _collapsed nd' = Some (or_false (_collapsed nd)).
Proof.
  intros h.
  assert (Forall (raw_tree_at 3 h) [1%positive]) as Ht
    by (subst h; solve_raw_tree_at).
  split; [lia|]. split; [done|]. split; [done|].
  apply (assignInternalProperties_collapsed Sample.uuid_v4 3 4 h 0
           (Obj 1%positive) [1%positive]); [lia | done | done].
Defined.

(** On the sample input with [_collapsed: true] on A only, A keeps [true]
    and B, C and D get [false]. *)
Lemma sample_assignInternalProperties :
  ∃ h' k' a,
    assignInternalProperties Sample.uuid_v4 4 (Sample.raw (Some true) None, 0)
      (Obj 1%positive) = Some (h', k', a) ∧
    (λ l, _collapsed <$> objs h' !! l) <$> [1; 2; 3; 4]%positive =
    [Some (Some true); Some (Some false); Some (Some false); Some (Some false)].
Proof. do 3 eexists. split; vm_compute; reflexivity. Qed.

(** ** Layout *)

Lemma laid_refl h : laid h h.
Proof. by split. Qed.

Lemma laid_trans h1 h2 h3 : laid h1 h2 → laid h2 h3 → laid h1 h3.
Proof. intros [E1 P1] [E2 P2]. split; [congruence | auto]. Qed.

Lemma layout_view_lookup h h' l :
  layout_view h' = layout_view h →
  (λ nd, (id nd, _collapsed nd, _children nd)) <$> objs h' !! l =
  (λ nd, (id nd, _collapsed nd, _children nd)) <$> objs h !! l.
Proof. intros [= E _]. by rewrite <- !lookup_fmap, E. Qed.

Lemma layout_view_collapsed h h' l :
  layout_view h' = layout_view h →
  _collapsed <$> objs h' !! l = _collapsed <$> objs h !! l.
Proof.
  intros E%(layout_view_lookup _ _ l).
  destruct (objs h' !! l), (objs h !! l); simpl in *; try done.
  injection E as _ Hc _. by rewrite Hc.
Qed.

Lemma layout_view_search h h' :
  layout_view h' = layout_view h → search_view h' = search_view h.
Proof.
  intros E. unfold search_view. f_equal; [|by injection E].
  apply map_eq. intros l. rewrite !lookup_fmap.
  pose proof (layout_view_lookup _ _ l E) as El.
  destruct (objs h' !! l), (objs h !! l); simpl in *; try done.
  injection El as Hi _ Hc. by rewrite Hi, Hc.
Qed.

Lemma shape_search h h' : shape h' = shape h → search_view h' = search_view h.
Proof.
  intros E. unfold search_view. f_equal; [|by injection E].
  apply map_eq. intros l. rewrite !lookup_fmap.
  pose proof (shape_lookup _ _ l E) as El.
  destruct (objs h' !! l), (objs h !! l); simpl in *; try done.
  injection El as _ Hi _ Hc _. by rewrite Hi, Hc.
Qed.

(** Whether the store holds a tree depends on [_children] and the arrays
    only. *)
Lemma tree_at_view n : ∀ h h' l,
  search_view h' = search_view h → tree_at n h l → tree_at n h' l.
Proof.
  induction n as [|n IH]; simpl; intros h h' l E; [done|].
  intros (nd & Hl & Hc).
  pose proof (search_view_lookup _ _ l E) as El. rewrite Hl in El.
  destruct (objs h' !! l) as [nd'|]; simpl in El; [|done].
  injection El as _ Hch. exists nd'. split; [done|]. rewrite Hch.
  destruct (_children nd) as [a|]; [|done].
  destruct Hc as (cs & Ha & Hcs). exists cs.
  assert (arrs h' = arrs h) as -> by (by injection E).
  split; [done|]. eapply Forall_impl; [done|]. intros c. by apply IH.
Qed.

(** An update that writes neither [id], [_collapsed] nor [_children] and
    keeps the node placed is a layout step. *)
Lemma laid_update f n h h' :
  update f n h = Some h' →
  (∀ nd, id (f nd) = id nd ∧ _collapsed (f nd) = _collapsed nd ∧
         _children (f nd) = _children nd) →
  (∀ nd, objs h !! n = Some nd → is_Some (depth nd) → is_Some (depth (f nd))) →
  (∀ nd a, objs h !! n = Some nd → children (f nd) = Some a →
           children nd = Some a ∨ is_Some (arrs h !! a)) →
  laid h h'.
Proof.
  intros Hu Hkeep Hdepth Hch. pose proof Hu as (nd0 & Hn & ->)%update_Some.
  split.
  - unfold layout_view. simpl. f_equal. rewrite fmap_insert.
    destruct (Hkeep nd0) as (-> & -> & ->). apply insert_id.
    by rewrite lookup_fmap, Hn.
  - intros x (nd & dx & Hx & Hdx & Harr). unfold placed. simpl.
    rewrite lookup_insert. case_decide as Hnx.
    + subst x. rewrite Hn in Hx. injection Hx as ->.
      destruct (Hdepth nd Hn) as [dx' Hdx']; [by eauto|].
      exists (f nd), dx'. split; [done|]. split; [done|].
      intros a Ha. destruct (Hch nd a Hn Ha) as [Hold|Hnew]; auto.
    + exists nd, dx. auto.
Qed.

Lemma laid_arrs h h' : laid h h' → arrs h' = arrs h.
Proof. intros [E _]. by injection E. Qed.

(** A layout pass over a tree returns; it is made of layout steps, every
    node it lists is placed, and every other object is untouched. *)
Lemma tree_nodes_from_spec fuel :
  ∀ n h l d, n ≤ fuel → tree_at n h l →
  ∃ h' out, tree_nodes_from fuel h l d = Some (h', out) ∧ laid h h' ∧
            (∀ x, x ∈ out → placed h' x) ∧
            (∀ x, x ∉ out → objs h' !! x = objs h !! x).
Proof.
  induction fuel as [|fuel IH]; intros n h l d Hle Ht.
  { destruct n; [done | lia]. }
  destruct n as [|n]; [done|]. pose proof Ht as (nd0 & Hl & Hc). simpl.
  destruct (update_total (set_depth (Some d)) l h nd0 Hl)
    as (h1 & Hu1 & Hl1 & Ea1). rewrite Hu1. simpl. rewrite Hl1. simpl.
  assert (laid h h1) as HL1.
  { eapply laid_update; [done|done| |]; simpl; eauto. }
  assert (∀ x, x ≠ l → objs h1 !! x = objs h !! x) as Hf1.
  { intros x Hx. rewrite (update_lookup _ _ _ _ x Hu1). by rewrite decide_False. }
  assert (Hleaf : ∃ h2, update (set_children None) l h1 = Some h2 ∧ laid h h2 ∧
            (∀ x, x ∈ [l] → placed h2 x) ∧
            (∀ x, x ∉ [l] → objs h2 !! x = objs h !! x)).
  { destruct (update_total (set_children None) l h1 _ Hl1)
      as (h2 & Hu2 & Hl2 & Ea2).
    exists h2. split; [done|]. split.
    { eapply laid_trans; [done|]. eapply laid_update; [done|done| |]; simpl; eauto.
      intros ?? _ [=]. }
    split.
    - intros x ->%list_elem_of_singleton. eexists _, d. split; [done|].
      split; [done|]. intros a [=].
    - intros x Hx%not_elem_of_cons. destruct Hx as [Hx _].
      rewrite (update_lookup _ _ _ _ x Hu2). rewrite decide_False by done. auto. }
  destruct (truthy (_collapsed nd0)); [|destruct (_children nd0) as [a|] eqn:Ha].
  - destruct Hleaf as (h2 & -> & ?). simpl. eauto.
  - destruct Hc as (cs & Hcs & Hall). rewrite Ea1, Hcs. simpl.
    case_bool_decide as Hne.
    + destruct (update_total (set_children (Some a)) l h1 _ Hl1)
        as (h2 & Hu2 & Hl2 & Ea2). rewrite Hu2. simpl.
      assert (laid h1 h2) as HL2.
      { eapply laid_update; [done|done| |]; simpl; eauto.
        intros ?? _ [= <-]. right. rewrite Ea1, Hcs. eauto. }
      assert (Hloop : ∀ cs h3 out3,
        Forall (tree_at n h3) cs →
        ∃ h4 out4,
          forEach (λ (acc : heap * list loc) c,
              '(h, sub) ← tree_nodes_from fuel acc.1 c (S d);
              Some (h, acc.2 ++ sub)) (h3, out3) cs = Some (h4, out3 ++ out4) ∧
          laid h3 h4 ∧ (∀ x, x ∈ out4 → placed h4 x) ∧
          (∀ x, x ∉ out4 → objs h4 !! x = objs h3 !! x)).
      { clear -IH Hle. induction cs as [|c cs IHcs]; intros h3 out3 Hcs; simpl.
        - exists h3, []. rewrite (right_id_L [] (++)). split; [done|].
          split; [apply laid_refl|]. split; [by intros ? ?%elem_of_nil | done].
        - apply Forall_cons in Hcs as [Hc Hcs].
          destruct (IH n h3 c (S d)) as (h4 & sub & -> & HL4 & Hp4 & Hf4);
            [lia | done |]. simpl.
          destruct (IHcs h4 (out3 ++ sub)) as (h5 & out5 & -> & HL5 & Hp5 & Hf5).
          { eapply Forall_impl; [done|]. intros y.
            apply tree_at_view. apply layout_view_search. by destruct HL4. }
          exists h5, (sub ++ out5). rewrite (assoc_L (++)). split; [done|].
          split; [by eapply laid_trans|]. split.
          + intros x [Hx|Hx]%elem_of_app; [|by apply Hp5].
            destruct HL5 as [_ P5]. by apply P5, Hp4.
          + intros x Hx. rewrite not_elem_of_app in Hx. destruct Hx as [Hx1 Hx2].
            rewrite Hf5 by done. by apply Hf4. }
      destruct (Hloop cs h2 []) as (h4 & out4 & -> & HL4 & Hp4 & Hf4).
      { eapply Forall_impl; [done|]. intros y.
        apply tree_at_view. apply layout_view_search.
        destruct (laid_trans _ _ _ HL1 HL2) as [E _]. done. }
      simpl. exists h4, (l :: out4). split; [done|].
      split; [by eapply laid_trans; [eapply laid_trans|]|]. split.
      * intros x [->|Hx]%elem_of_cons; [|by apply Hp4].
        destruct HL4 as [_ P4]. apply P4.
        eexists _, d. split; [done|]. split; [done|].
        intros a' [= <-]. rewrite Ea2, Ea1, Hcs. eauto.
      * intros x Hx%not_elem_of_cons. destruct Hx as [Hx1 Hx2].
        rewrite Hf4 by done. rewrite (update_lookup _ _ _ _ x Hu2).
        rewrite decide_False by done. auto.
    + destruct Hleaf as (h2 & -> & ?). simpl. eauto.
  - destruct Hleaf as (h2 & -> & ?). simpl. eauto.
Qed.

(** What [setInitialTreeDepth] writes to a node. *)
Lemma setInitialTreeDepth_spec nodeSet initialDepth :
  ∀ h, Forall (λ n, is_Some (objs h !! n)) nodeSet →
  ∃ h', setInitialTreeDepth h nodeSet initialDepth = Some h' ∧
        arrs h' = arrs h ∧
        ∀ l, objs h' !! l =
             if decide (l ∈ nodeSet)
             then (λ nd, set_collapsed (Some (depth_ge (depth nd) initialDepth)) nd)
                    <$> objs h !! l
             else objs h !! l.
Proof.
  unfold setInitialTreeDepth.
  induction nodeSet as [|n ns IH]; intros h Hall; simpl.
  - exists h. split; [done|]. split; [done|]. by intros l.
  - apply Forall_cons in Hall as [[nd Hn] Hall]. rewrite Hn. simpl.
    destruct (update_total
                (set_collapsed (Some (depth_ge (depth nd) initialDepth))) n h nd Hn)
      as (h1 & Hu1 & Hn1 & Ea1). rewrite Hu1. simpl.
    destruct (IH h1) as (h2 & -> & Ea2 & Hl2).
    { eapply Forall_impl; [done|]. intros x [ndx Hx].
      rewrite (update_lookup _ _ _ _ x Hu1). case_decide; rewrite Hx; eauto. }
    exists h2. split; [done|]. split; [congruence|].
    intros l. rewrite Hl2, (update_lookup _ _ _ _ l Hu1).
    destruct (decide (n = l)) as [->|Hne].
    + rewrite (decide_True (P := l ∈ l :: ns)) by (apply elem_of_cons; by left).
      rewrite Hn. by case_decide.
    + destruct (decide (l ∈ ns)) as [Hin|Hin].
      * rewrite decide_True; [done|]. apply elem_of_cons. by right.
      * rewrite decide_False; [done|]. by intros [->|?]%elem_of_cons.
Qed.

Lemma tree_links_total h nodes :
  Forall (placed h) nodes → is_Some (tree_links h nodes).
Proof.
  induction 1 as [|n nodes (nd & dx & Hn & _ & Harr) _ [r IH]]; simpl; [eauto|].
  rewrite Hn. simpl. rewrite IH.
  destruct (children nd) as [a|]; simpl; [|eauto].
  destruct (Harr a) as [cs ->]; [done|]. simpl. eauto.
Qed.

Lemma placed_is_Some h x : placed h x → is_Some (objs h !! x).
Proof. intros (nd & ? & -> & _). eauto. Qed.

(** C10.  On the first render, with [useCollapseData] false and an
    [initialDepth], [generateTree] returns, and for every node [l] of the
    first, collapse-aware layout pass the flag ends as
    [depth >= initialDepth], so as [false] below [initialDepth], whatever
    flag the input carried; every node outside that pass keeps its flag. *)
Theorem initial_depth_pass fuel n c initialDepth rs rootNode :
  Props.initialDepth (props c) = Some initialDepth →
  Props.useCollapseData (props c) = false →
  initialRender (internal c) = true →
  arrs (store c) !! State.data (state c) = Some rs →
  rs !! 0 = Some rootNode →
  tree_at n (store c) rootNode → n ≤ fuel →
  ∃ h1 nodes1 h' v,
    tree_nodes fuel (store c) rootNode = Some (h1, nodes1) ∧
    generateTree fuel c = Some (h', v) ∧
    (∀ l, l ∈ nodes1 →
       ∃ nd1 d nd', objs h1 !! l = Some nd1 ∧ depth nd1 = Some d ∧
         objs h' !! l = Some nd' ∧
         _collapsed nd' = Some (bool_decide (initialDepth ≤ Z.of_nat d)%Z) ∧
         ((Z.of_nat d < initialDepth)%Z → _collapsed nd' = Some false)) ∧
    (∀ l, l ∉ nodes1 →
       _collapsed <$> objs h' !! l = _collapsed <$> objs (store c) !! l).
Proof.
  intros Hid Hucd Hir Hrs Hroot Ht Hle. unfold generateTree, tree_nodes.
  rewrite Hrs. simpl. rewrite Hroot. simpl.
  destruct (tree_nodes_from_spec fuel n (store c) rootNode 0 Hle Ht)
    as (h1 & nodes1 & -> & HL1 & Hp1 & Hf1). simpl.
  rewrite Hid, Hucd, Hir. simpl.
  destruct (setInitialTreeDepth_spec nodes1 initialDepth h1)
    as (h2 & -> & Ea2 & Hl2).
  { apply Forall_forall. intros x Hx. by apply placed_is_Some, Hp1. }
  simpl.
  assert (layout_view h1 = layout_view (store c)) as E1 by (by destruct HL1).
  assert (search_view h2 = search_view h1) as E2.
  { unfold search_view. rewrite Ea2. f_equal. apply map_eq. intros l.
    rewrite !lookup_fmap, Hl2. case_decide; [|done].
    by destruct (objs h1 !! l). }
  destruct (tree_nodes_from_spec fuel n h2 rootNode 0 Hle)
    as (h3 & nodes2 & -> & HL3 & Hp3 & Hf3).
  { apply (tree_at_view n h1); [done|].
    apply (tree_at_view n (store c)); [|done]. by apply layout_view_search. }
  simpl.
  destruct (tree_links_total h3 nodes2) as [links ->].
  { apply Forall_forall. intros x. apply Hp3. }
  simpl. exists h1, nodes1, h3, (nodes2, links).
  split; [done|]. split; [done|].
  assert (layout_view h3 = layout_view h2) as E3 by (by destruct HL3).
  split.
  - intros l Hl. destruct (Hp1 l Hl) as (nd1 & d & Hl1 & Hd & _).
    pose proof (layout_view_collapsed _ _ l E3) as Hc3.
    rewrite Hl2, decide_True, Hl1 in Hc3 by done. simpl in Hc3.
    destruct (objs h3 !! l) as [nd'|]; simpl in Hc3; [|done].
    injection Hc3 as Hc3. rewrite Hd in Hc3. simpl in Hc3.
    exists nd1, d, nd'. repeat split; try done.
    intros Hlt. rewrite Hc3. f_equal. apply bool_decide_eq_false_2. lia.
  - intros l Hl.
    rewrite (layout_view_collapsed _ _ l E3), Hl2, decide_False by done.
    by apply layout_view_collapsed.
Qed.

Lemma initial_depth_pass_witness :
  ∃ c, construct Sample.uuid_v4 4 (Sample.props (Some 1%Z) false)
         (Sample.raw (Some true) None) = Some c ∧
    Props.initialDepth (props c) = Some 1%Z ∧
    Props.useCollapseData (props c) = false ∧
    initialRender (internal c) = true ∧
    arrs (store c) !! State.data (state c) = Some [1%positive] ∧
    [1%positive] !! 0 = Some 1%positive ∧
    tree_at 3 (store c) 1%positive ∧ 3 ≤ 4 ∧
    ∃ h1 nodes1 h' v,
      tree_nodes 4 (store c) 1%positive = Some (h1, nodes1) ∧
      generateTree 4 c = Some (h', v) ∧
      (∀ l, l ∈ nodes1 →
         ∃ nd1 d nd', objs h1 !! l = Some nd1 ∧ depth nd1 = Some d ∧
           objs h' !! l = Some nd' ∧
           _collapsed nd' = Some (bool_decide (1 ≤ Z.of_nat d)%Z) ∧
           ((Z.of_nat d < 1)%Z → _collapsed nd' = Some false)) ∧
      (∀ l, l ∉ nodes1 →
         _collapsed <$> objs h' !! l = _collapsed <$> objs (store c) !! l).
Proof.
  eexists. split; [vm_compute; reflexivity|].
  match goal with |- _ ∧ _ ∧ _ ∧ _ ∧ _ ∧ tree_at 3 (store ?c) _ ∧ _ => set (c0 := c) end.
  assert (tree_at 3 (store c0) 1%positive) as Ht by (subst c0; solve_tree_at).
  assert (arrs (store c0) !! State.data (state c0) = Some [1%positive]) as Hrs
    by (vm_compute; reflexivity).
  repeat (split; [done || lia|]).
  apply (initial_depth_pass 4 3 c0 1%Z [1%positive] 1%positive);
    done || lia.
Defined.

(** C3 on a failing input.  Mount the sample tree with [_collapsed: true]
    on the root A, [initialDepth = 1] and [useCollapseData = false].  The
    first pass lays out A alone; the forcing reopens A and reaches nothing
    else; the second pass then lays out the whole tree.  B is at depth
    1 >= [initialDepth] with [_collapsed = false], and D, at depth 2, is
    in the rendered node list. *)
Theorem initial_depth_misses_hidden_nodes :
  ∃ c, mount Sample.uuid_v4 4 (Sample.props (Some 1%Z) false)
         (Sample.raw (Some true) None) = Some c ∧
       depth <$> objs (store c) !! 2%positive = Some (Some 1) ∧
       _collapsed <$> objs (store c) !! 2%positive = Some (Some false) ∧
       view c = ([1; 2; 3; 4]%positive,
                 [(1, 2); (1, 3); (3, 4)]%positive).
Proof.
  eexists. split; [vm_compute; reflexivity|].
  repeat split; vm_compute; reflexivity.
Qed.

(** Without flags in the input the same props do cap the tree: B and C
    are collapsed and D is not rendered. *)
Lemma initial_depth_scenario :
  ∃ c, mount Sample.uuid_v4 4 (Sample.props (Some 1%Z) false)
         (Sample.raw None None) = Some c ∧
       (λ l, _collapsed <$> objs (store c) !! l) <$> [1; 2; 3; 4]%positive =
       [Some (Some false); Some (Some true); Some (Some true); Some (Some true)] ∧
       view c = ([1; 2; 3]%positive, [(1, 2); (1, 3)]%positive).
Proof.
  eexists. split; [vm_compute; reflexivity|].
  repeat split; vm_compute; reflexivity.
Qed.

(** ** What the component's steps keep *)

Lemma collapseNode_shape fuel : ∀ h l h',
  collapseNode fuel h l = Some h' → shape h' = shape h.
Proof.
  induction fuel as [|fuel IH]; intros h l h'; simpl; [done|].
  destruct (objs h !! l) as [nd|]; simpl; [|done].
  destruct (update (set_collapsed (Some true)) l h) as [h1|] eqn:Hu; simpl; [|done].
  pose proof (shape_update_collapsed _ _ _ _ Hu) as E1.
  assert (∀ cs, forEach (collapseNode fuel) h1 cs = Some h' → shape h' = shape h)
    as Hloop.
  { intros cs. apply (forEach_inv (λ s, shape s = shape h)); [done|].
    intros s x s' _ Hs Hx. rewrite (IH _ _ _ Hx). done. }
  destruct (_children nd) as [a|]; [|by intros [= <-]].
  destruct (arrs h1 !! a) as [cs|]; simpl; [|done].
  case_bool_decide; [apply Hloop | by intros [= <-]].
Qed.

Lemma collapseNeighborNodes_shape fuel h t nodeSet h' :
  collapseNeighborNodes fuel h t nodeSet = Some h' → shape h' = shape h.
Proof.
  unfold collapseNeighborNodes.
  destruct (objs h !! t) as [tn|]; simpl; [|done].
  destruct (findNodesAtDepth fuel h (depth tn) nodeSet []) as [ns|]; simpl; [|done].
  destruct (filter_nodes _ h ns) as [neighbors|]; simpl; [|done].
  apply (forEach_inv (λ s, shape s = shape h)); [done|].
  intros s x s' _ Hs Hx. by rewrite (collapseNode_shape _ _ _ _ Hx).
Qed.

Lemma update_layout_view f n h h' :
  update f n h = Some h' →
  (∀ nd, id (f nd) = id nd ∧ _collapsed (f nd) = _collapsed nd ∧
         _children (f nd) = _children nd) →
  layout_view h' = layout_view h.
Proof.
  intros (nd0 & Hn & ->)%update_Some Hkeep.
  unfold layout_view. simpl. f_equal. rewrite fmap_insert.
  destruct (Hkeep nd0) as (-> & -> & ->). apply insert_id.
  by rewrite lookup_fmap, Hn.
Qed.

(** A layout pass, when it returns, has written neither [id],
    [_collapsed], [_children] nor an array. *)
Lemma tree_nodes_from_view fuel : ∀ h l d h' out,
  tree_nodes_from fuel h l d = Some (h', out) → layout_view h' = layout_view h.
Proof.
  induction fuel as [|fuel IH]; intros h l d h' out; simpl; [done|].
  destruct (update (set_depth (Some d)) l h) as [h1|] eqn:Hu1; simpl; [|done].
  pose proof (update_layout_view _ _ _ _ Hu1 (λ _, ltac:(done))) as E1.
  destruct (objs h1 !! l) as [nd|]; simpl; [|done].
  assert (Hleaf : ∀ r,
    (h ← update (set_children None) l h1; Some (h, r)) = Some (h', out) →
    layout_view h' = layout_view h).
  { intros r. destruct (update (set_children None) l h1) as [h2|] eqn:Hu2;
      simpl; [|done].
    intros [= <- _].
    by rewrite (update_layout_view _ _ _ _ Hu2 (λ _, ltac:(done))). }
  destruct (if truthy (_collapsed nd) then None else _children nd) as [a|];
    [|apply Hleaf].
  destruct (arrs h1 !! a) as [cs|]; simpl; [|done].
  case_bool_decide; [|apply Hleaf].
  destruct (update (set_children (Some a)) l h1) as [h2|] eqn:Hu2; simpl; [|done].
  pose proof (update_layout_view _ _ _ _ Hu2 (λ _, ltac:(done))) as E2.
  destruct (forEach _ (h2, []) cs) as [[h3 out3]|] eqn:Hloop; simpl; [|done].
  intros [= <- _]. revert Hloop.
  apply (forEach_inv (λ s : heap * list loc, layout_view s.1 = layout_view h));
    [simpl; congruence|].
  intros [s o] x [s' o'] _ Hs. simpl in *.
  destruct (tree_nodes_from fuel s x (S d)) as [[s1 sub]|] eqn:Hx; simpl; [|done].
  intros [= <- _]. by rewrite (IH _ _ _ _ _ Hx).
Qed.

Lemma setInitialTreeDepth_shape h nodeSet k h' :
  setInitialTreeDepth h nodeSet k = Some h' → shape h' = shape h.
Proof.
  unfold setInitialTreeDepth.
  apply (forEach_inv (λ s, shape s = shape h)); [done|].
  intros s x s' _ Hs. destruct (objs s !! x) as [nd|]; simpl; [|done].
  intros Hu. by rewrite (shape_update_collapsed _ _ _ _ Hu).
Qed.

Lemma generateTree_view fuel c h' v :
  generateTree fuel c = Some (h', v) → search_view h' = search_view (store c).
Proof.
  unfold generateTree, tree_nodes.
  destruct (arrs (store c) !! State.data (state c)) as [rs|]; simpl; [|done].
  destruct (rs !! 0) as [rootNode|]; simpl; [|done].
  destruct (tree_nodes_from fuel (store c) rootNode 0) as [[h1 nodes1]|] eqn:H1;
    simpl; [|done].
  pose proof (layout_view_search _ _ (tree_nodes_from_view _ _ _ _ _ _ H1)) as E1.
  assert (∀ h2 nodes2,
    (links ← tree_links h2 nodes2; Some (h2, (nodes2, links))) = Some (h', v) →
    h' = h2) as Hlinks.
  { intros h2 nodes2. destruct (tree_links h2 nodes2); simpl; [|done].
    by intros [= <- _]. }
  destruct (Props.initialDepth (props c)) as [k|];
    [destruct (negb _ && _)|]; simpl.
  - destruct (setInitialTreeDepth h1 nodes1 k) as [h2|] eqn:H2; simpl; [|done].
    destruct (tree_nodes_from fuel h2 rootNode 0) as [[h3 nodes3]|] eqn:H3;
      simpl; [|done].
    intros ->%Hlinks.
    rewrite (layout_view_search _ _ (tree_nodes_from_view _ _ _ _ _ _ H3)).
    rewrite (shape_search _ _ (setInitialTreeDepth_shape _ _ _ _ H2)). done.
  - by intros ->%Hlinks.
  - by intros ->%Hlinks.
Qed.

(** After the first render the initial-depth forcing is off: a later
    [generateTree] changes no flag, whatever [initialDepth] is. *)
Lemma generateTree_keeps_flags fuel c h' v l :
  initialRender (internal c) = false →
  generateTree fuel c = Some (h', v) →
  _collapsed <$> objs h' !! l = _collapsed <$> objs (store c) !! l.
Proof.
  unfold generateTree, tree_nodes. intros Hir.
  destruct (arrs (store c) !! State.data (state c)) as [rs|]; simpl; [|done].
  destruct (rs !! 0) as [rootNode|]; simpl; [|done].
  destruct (tree_nodes_from fuel (store c) rootNode 0) as [[h1 nodes1]|] eqn:H1;
    simpl; [|done].
  rewrite Hir, andb_false_r.
  assert ((match Props.initialDepth (props c) with
           | Some _ => Some (h1, nodes1) | None => Some (h1, nodes1) end)
          = Some (h1, nodes1)) as -> by (by destruct (Props.initialDepth _)).
  simpl. destruct (tree_links h1 nodes1); simpl; [|done].
  intros [= <- _]. apply layout_view_collapsed.
  by eapply tree_nodes_from_view.
Qed.

(** ** The toggle lock *)

(** Reading a field through the component's setters, innermost first. *)
Ltac with_fields :=
  cbv beta iota zeta delta
    [with_store with_state with_internal with_timers with_view emit
     props state internal store timers view effects
     State.data State.isTransitioning State.d3 State.dataRef
     initialRender targetNode].

Ltac with_fields_in H :=
  cbv beta iota zeta delta
    [with_store with_state with_internal with_timers with_view emit
     props state internal store timers view effects
     State.data State.isTransitioning State.d3 State.dataRef
     initialRender targetNode] in H.

Lemma findNodesById_total fuel : ∀ n h nodeId ns hits,
  n < fuel → Forall (tree_at n h) ns →
  is_Some (findNodesById fuel h nodeId ns hits).
Proof.
  induction fuel as [|fuel IH]; intros n h nodeId ns hits Hlt Hall; [lia|].
  simpl. case_bool_decide; [eauto|].
  rewrite (filter_nodes_tree n) by done. simpl.
  match goal with |- is_Some (forEach ?f ?s ?l) =>
    destruct (forEach_total (λ _, True) f l s) as (r & -> & _) end;
    [done| |eauto].
  intros acc x Hx _. eapply Forall_forall in Hall; [|done].
  destruct n as [|n]; [done|].
  rewrite (descend_kids (S n) h (λ cs hits, findNodesById fuel h nodeId cs hits))
    by done.
  case_bool_decide; [|eauto].
  destruct (IH n h nodeId (kids h x) acc) as [r ->];
    [lia | by apply kids_Forall | eauto].
Qed.

Lemma holds_forest_view n c c' :
  search_view (store c') = search_view (store c) →
  State.data (state c') = State.data (state c) →
  holds_forest n c → holds_forest n c'.
Proof.
  intros E Ed (rs & Hrs & Hall). exists rs.
  assert (arrs (store c') = arrs (store c)) as Ea by (by injection E).
  rewrite Ea, Ed. split; [done|].
  eapply Forall_impl; [done|]. intros x. by apply tree_at_view.
Qed.

Lemma flush_inv fuel c c' :
  flush fuel c = Some c' →
  ∃ h' v, generateTree fuel c = Some (h', v) ∧
          c' = componentDidUpdate (with_view v (with_store h' c)).
Proof.
  unfold flush, render.
  destruct (generateTree fuel c) as [[h' v]|]; simpl; [|done].
  intros [= <-]. eauto.
Qed.

Lemma count_app (p : effect → bool) (l1 l2 : list effect) :
  length (filter (λ e, p e = true) (l1 ++ l2)) =
  length (filter (λ e, p e = true) l1) + length (filter (λ e, p e = true) l2).
Proof. by rewrite filter_app, length_app. Qed.

Lemma commits_handleOnClickCb tgt c : commits (handleOnClickCb tgt c) = commits c.
Proof.
  unfold handleOnClickCb, commits. destruct (Props.onClick (props c)); [|done].
  simpl. rewrite count_app. simpl. lia.
Qed.

Lemma notifications_handleOnClickCb tgt c :
  notifications (handleOnClickCb tgt c) = notifications c.
Proof.
  unfold handleOnClickCb, notifications. destruct (Props.onClick (props c)); [|done].
  simpl. rewrite count_app. simpl. lia.
Qed.

(** An accepted toggle: what it leaves in the component. *)
Lemma handleNodeToggle_accepted fuel now nodeId c c1 :
  Props.collapsible (props c) = true →
  State.isTransitioning (state c) = false →
  Props.onUpdate (props c) = true →
  handleNodeToggle fuel now nodeId c = Some c1 →
  search_view (store c1) = search_view (store c) ∧
  props c1 = props c ∧
  State.data (state c1) = State.data (state c) ∧
  State.isTransitioning (state c1) = true ∧
  timers c1 = timers c ++ [(now + (Props.transitionDuration (props c) + 10))%Z] ∧
  commits c1 = S (commits c) ∧
  notifications c1 = S (notifications c).
Proof.
  destruct c as [p [dref d tr g] i h0 ts v0 es].
  cbn [props state State.isTransitioning]. intros Hcol -> Hup.
  unfold handleNodeToggle. with_fields. rewrite Hcol.
  cbv beta iota zeta delta [andb negb].
  intros (nodeSet & _ & H)%bind_Some.
  apply bind_Some in H as (matches & _ & H).
  apply bind_Some in H as (t & _ & H).
  apply bind_Some in H as (nd & _ & H).
  apply bind_Some in H as (h & Htoggle & H).
  apply bind_Some in H as (c2 & Hflush & [= <-]).
  assert (shape h = shape h0) as Eh.
  { destruct (truthy (_collapsed nd)).
    - apply bind_Some in Htoggle as (h1 & He & Htoggle).
      pose proof (shape_update_collapsed _ _ _ _ He) as E0.
      destruct (Props.shouldCollapseNeighborNodes p).
      + rewrite (collapseNeighborNodes_shape _ _ _ _ _ Htoggle). done.
      + by injection Htoggle as <-.
    - by eapply collapseNode_shape. }
  with_fields_in Hflush.
  apply flush_inv in Hflush as (h' & v & Hgen & ->).
  apply generateTree_view in Hgen. with_fields_in Hgen.
  rewrite commits_handleOnClickCb, notifications_handleOnClickCb.
  unfold commits, notifications, componentDidUpdate, handleOnClickCb.
  with_fields. rewrite Hup. destruct (Props.onClick p); with_fields;
    rewrite Hgen, <- !(assoc_L (++)), !count_app; simpl;
    (repeat split; try done; try lia); by apply shape_search.
Qed.

(** A toggle that arrives while the lock is held changes nothing: it only
    reaches the [onClick] callback. *)
Lemma handleNodeToggle_locked n fuel now nodeId c :
  holds_forest n c → n < fuel →
  State.isTransitioning (state c) = true →
  ∃ tgt, handleNodeToggle fuel now nodeId c = Some (handleOnClickCb tgt c).
Proof.
  intros (rs & Hrs & Hall) Hlt Htr. unfold handleNodeToggle.
  rewrite Hrs, Htr, andb_false_r. simpl.
  destruct (findNodesById_total fuel n (store c) nodeId rs [] Hlt Hall)
    as [matches ->].
  simpl. eauto.
Qed.

Lemma with_timers_id c : with_timers (timers c) c = c.
Proof. by destruct c. Qed.

(** With no timer due, a click goes straight to the toggle handler. *)
Lemma click_no_due fuel now nodeId c :
  Forall (λ t, (now < t)%Z) (timers c) →
  click fuel now nodeId c = handleNodeToggle fuel now nodeId c.
Proof.
  intros Hts. unfold click.
  assert (filter (λ t, (t ≤ now)%Z) (timers c) = [] ∧
          filter (λ t, ¬ (t ≤ now)%Z) (timers c) = timers c) as [-> ->].
  { induction Hts as [|t ts Ht _ [IH1 IH2]]; [done|].
    rewrite !filter_cons, IH1, IH2.
    rewrite decide_False by lia. by rewrite decide_True by lia. }
  simpl. by rewrite with_timers_id.
Qed.

(** After a first click handled at [t1], a click before
    [t1 + transitionDuration + 10] finds the lock held and is dropped. *)
Lemma second_click_dropped n fuel c t1 id1 c1 t2 id2 :
  holds_forest n c → n < fuel →
  timers c = [] → State.isTransitioning (state c) = false →
  Props.collapsible (props c) = true → Props.onUpdate (props c) = true →
  click fuel t1 id1 c = Some c1 →
  (t1 ≤ t2 < t1 + (Props.transitionDuration (props c) + 10))%Z →
  State.isTransitioning (state c1) = true ∧
  ∃ tgt, click fuel t2 id2 c1 = Some (handleOnClickCb tgt c1) ∧
         commits (handleOnClickCb tgt c1) = S (commits c) ∧
         notifications (handleOnClickCb tgt c1) = S (notifications c).
Proof.
  intros Hwf Hlt Htm Htr Hcol Hup Hclick Hwin.
  rewrite click_no_due in Hclick by (rewrite Htm; constructor).
  destruct (handleNodeToggle_accepted _ _ _ _ _ Hcol Htr Hup Hclick)
    as (Ev & Ep & Ed & Htr1 & Htm1 & Hc1 & Hn1).
  split; [done|]. rewrite Htm in Htm1. simpl in Htm1.
  assert (holds_forest n c1) as Hwf1 by (by eapply holds_forest_view).
  destruct (handleNodeToggle_locked n fuel t2 id2 c1 Hwf1 Hlt Htr1) as [tgt Htgt].
  exists tgt. rewrite commits_handleOnClickCb, notifications_handleOnClickCb.
  split; [|done]. rewrite click_no_due; [done|].
  rewrite Htm1. repeat constructor. lia.
Qed.

(** A freshly mounted component is unlocked, has no timer pending and has
    its first render behind it. *)
Lemma mount_unlocked uuid_v4 fuel p h c :
  mount uuid_v4 fuel p h = Some c →
  timers c = [] ∧ State.isTransitioning (state c) = false ∧
  initialRender (internal c) = false ∧ effects c = [].
Proof.
  unfold mount, construct, render.
  intros (c0 & Hc0 & H)%bind_Some.
  apply bind_Some in Hc0 as ([[h1 k1] a] & _ & [= <-]).
  apply bind_Some in H as (c1 & Hc1 & [= <-]).
  apply bind_Some in Hc1 as ([h2 v] & _ & [= <-]).
  unfold componentDidMount. with_fields. done.
Qed.

Lemma flush_initialRender fuel c c' :
  flush fuel c = Some c' →
  initialRender (internal c') = initialRender (internal c).
Proof.
  intros (h' & v & _ & ->)%flush_inv.
  destruct c as [p s [ir tn] h ts v0 es].
  unfold componentDidUpdate. with_fields. by destruct (Props.onUpdate p).
Qed.

Lemma handleOnClickCb_initialRender tgt c :
  initialRender (internal (handleOnClickCb tgt c)) = initialRender (internal c).
Proof. unfold handleOnClickCb. by destruct (Props.onClick (props c)), c. Qed.

Lemma handleNodeToggle_initialRender fuel now nodeId c c' :
  handleNodeToggle fuel now nodeId c = Some c' →
  initialRender (internal c') = initialRender (internal c).
Proof.
  unfold handleNodeToggle.
  intros (nodeSet & _ & H)%bind_Some.
  apply bind_Some in H as (matches & _ & H). revert H. cbv zeta.
  destruct (Props.collapsible (props c) && negb (State.isTransitioning (state c))).
  - intros (t & _ & H)%bind_Some.
    apply bind_Some in H as (nd & _ & H).
    apply bind_Some in H as (h & _ & H).
    apply bind_Some in H as (c2 & Hf & [= <-]).
    rewrite handleOnClickCb_initialRender, (flush_initialRender _ _ _ Hf).
    by destruct c.
  - intros [= <-]. apply handleOnClickCb_initialRender.
Qed.

Lemma repeat_unlock_initialRender fuel k : ∀ c c',
  repeat_unlock fuel k c = Some c' →
  initialRender (internal c') = initialRender (internal c).
Proof.
  induction k as [|k IH]; intros c c'; simpl; [by intros [= <-]|].
  intros (c1 & Hu & Hr)%bind_Some. rewrite (IH _ _ Hr).
  unfold unlock in Hu. rewrite (flush_initialRender _ _ _ Hu). by destruct c.
Qed.

(** No click brings the first render back, so the initial-depth forcing
    stays off. *)
Lemma click_initialRender fuel now nodeId c c' :
  click fuel now nodeId c = Some c' →
  initialRender (internal c') = initialRender (internal c).
Proof.
  unfold click. intros (c0 & Hu & Ht)%bind_Some.
  rewrite (handleNodeToggle_initialRender _ _ _ _ _ Ht).
  rewrite (repeat_unlock_initialRender _ _ _ _ Hu). by destruct c.
Qed.

(** The sample component through three clicks: the click on C at time 0
    commits and notifies; the click on B at time 100 is inside the window
    of 510 ms and only reaches [onClick]; at time 510 the timer has
    released the lock with a node-less notification, and the click on B
    commits. *)
Lemma sample_clicks :
  (c ← mount Sample.uuid_v4 4 (Sample.props None false) (Sample.raw None None);
   c ← click 4 0 "c" c;
   c ← click 4 100 "b" c;
   c ← click 4 510 "b" c;
   Some (effects c, timers c)) =
  Some ([SetData 25%positive; OnUpdate (Some 3%positive) 1 (Point 0 0);
         OnClick (Some 3%positive);
         OnClick (Some 2%positive);
         Unlock; OnUpdate None 1 (Point 0 0);
         SetData 25%positive; OnUpdate (Some 2%positive) 1 (Point 0 0);
         OnClick (Some 2%positive)],
        [1020%Z]).
Proof. vm_compute. reflexivity. Qed.

(** ** The first click returns *)

Lemma preorder_tree_at n : ∀ h ns x,
  Forall (tree_at n h) ns → x ∈ preorder n h ns → tree_at n h x.
Proof.
  induction n as [|n IH]; intros h ns x Hall; simpl; [by intros ?%elem_of_nil|].
  rewrite list_elem_of_In, in_flat_map. intros (l & Hl & Hx).
  apply list_elem_of_In in Hl, Hx. eapply Forall_forall in Hall; [|done].
  apply elem_of_cons in Hx as [->|Hx]; [done|].
  apply tree_at_S, (IH h (kids h l)); [by apply kids_Forall | done].
Qed.

(** Whatever a search by id returns was in the accumulator or is a node
    of the forest. *)
Lemma findNodesById_in_forest fuel : ∀ n m h nodeId ns hits r,
  n < fuel → n ≤ m → Forall (tree_at n h) ns →
  findNodesById fuel h nodeId ns hits = Some r →
  Forall (tree_at m h) hits → Forall (tree_at m h) r.
Proof.
  induction fuel as [|fuel IH]; intros n m h nodeId ns hits r Hlt Hnm Hall; [lia|].
  simpl. case_bool_decide; [by intros [= <-]|].
  rewrite (filter_nodes_tree n) by done. simpl. intros Hrun Hhits.
  revert Hrun. apply (forEach_inv (λ acc, Forall (tree_at m h) acc)).
  { apply Forall_app. split; [done|]. apply Forall_forall.
    intros x [_ Hx]%list_elem_of_filter. eapply Forall_forall in Hall; [|done].
    by eapply tree_at_le. }
  intros acc x acc' Hx Hacc. eapply Forall_forall in Hall; [|done].
  destruct n as [|n]; [done|].
  rewrite (descend_kids (S n) h (λ cs hits, findNodesById fuel h nodeId cs hits))
    by done.
  case_bool_decide; [|by intros [= <-]]. intros Hrec.
  apply (IH n m h nodeId (kids h x) acc acc'); [lia | lia | | done | done].
  by apply kids_Forall.
Qed.

Lemma levelwalk_tree_at n h p ns :
  Forall (tree_at n h) ns → Forall (tree_at n h) (levelwalk n h p ns).
Proof.
  intros Hall. apply Forall_forall. intros x Hx.
  rewrite (levelwalk_perm n h p ns) in Hx.
  apply list_elem_of_filter in Hx as [_ Hx]. by eapply preorder_tree_at.
Qed.

Lemma collapseNeighborNodes_total n fuel h t ns :
  n < fuel → Forall (tree_at n h) ns → is_Some (objs h !! t) →
  is_Some (collapseNeighborNodes fuel h t ns).
Proof.
  intros Hlt Hall [tn Ht]. unfold collapseNeighborNodes. rewrite Ht. simpl.
  rewrite (findNodesAtDepth_levelwalk fuel n) by done. simpl.
  pose proof (levelwalk_tree_at n h (has_depth (depth tn)) ns Hall) as Hlw.
  rewrite (filter_nodes_tree n) by done. simpl.
  match goal with |- is_Some (forEach ?f ?s ?l) =>
    destruct (forEach_total (λ s, shape s = shape h) f l s) as (r & -> & _) end;
    [done| |eauto].
  intros s x [_ Hx]%list_elem_of_filter Es.
  eapply Forall_forall in Hlw; [|done].
  destruct (collapseNode_fuel n fuel s x) as (s' & -> & [E _] & _);
    [lia | by apply (tree_at_shape n h s) |].
  exists s'. split; [done | congruence].
Qed.

(** [generateTree] returns whenever the first root sits on a tree. *)
Lemma generateTree_total n fuel c rs rootNode :
  arrs (store c) !! State.data (state c) = Some rs →
  rs !! 0 = Some rootNode →
  tree_at n (store c) rootNode → n ≤ fuel →
  is_Some (generateTree fuel c).
Proof.
  intros Hrs Hroot Ht Hle. unfold generateTree, tree_nodes.
  rewrite Hrs. simpl. rewrite Hroot. simpl.
  destruct (tree_nodes_from_spec fuel n (store c) rootNode 0 Hle Ht)
    as (h1 & nodes1 & -> & HL1 & Hp1 & _). simpl.
  assert (∀ h2 nodes2, (∀ x, x ∈ nodes2 → placed h2 x) →
    is_Some (links ← tree_links h2 nodes2; Some (h2, (nodes2, links)))) as Hlinks.
  { intros h2 nodes2 Hp. destruct (tree_links_total h2 nodes2) as [links ->];
      [by apply Forall_forall | simpl; eauto]. }
  destruct (Props.initialDepth (props c)) as [k|];
    [destruct (negb _ && _)|]; simpl; [|by apply Hlinks..].
  destruct (setInitialTreeDepth_spec nodes1 k h1) as (h2 & H2 & _).
  { apply Forall_forall. intros x Hx. by apply placed_is_Some, Hp1. }
  rewrite H2. simpl.
  destruct (tree_nodes_from_spec fuel n h2 rootNode 0 Hle)
    as (h3 & nodes3 & -> & _ & Hp3 & _).
  { apply (tree_at_view n (store c)); [|done].
    rewrite (shape_search _ _ (setInitialTreeDepth_shape _ _ _ _ H2)).
    apply layout_view_search. by destruct HL1. }
  simpl. by apply Hlinks.
Qed.

(** A click on a node of the forest is handled: the handler returns. *)
Lemma handleNodeToggle_returns n fuel now nodeId c rootNode t ts :
  holds_forest n c → n < fuel →
  roots c !! 0 = Some rootNode →
  findNodesById fuel (store c) nodeId (roots c) [] = Some (t :: ts) →
  is_Some (handleNodeToggle fuel now nodeId c).
Proof.
  destruct c as [p [dref d tr g] i h0 ts0 v0 es].
  unfold holds_forest, roots, handleNodeToggle. with_fields.
  intros (rs & Hrs & Hall) Hlt. rewrite Hrs. simpl. intros Hroot Hfind.
  rewrite Hfind. simpl.
  destruct (Props.collapsible p && negb tr); [|eauto].
  assert (tree_at n h0 t) as Ht.
  { pose proof (findNodesById_in_forest fuel n n h0 nodeId rs [] (t :: ts)
                  Hlt (le_n _) Hall Hfind (Forall_nil_2 _)) as Hr.
    by apply Forall_cons in Hr as [? _]. }
  destruct (tree_at_is_Some _ _ _ Ht) as [nd Hnd]. rewrite Hnd. simpl.
  match goal with |- is_Some (?toggle ≫= _) =>
    assert (∃ h, toggle = Some h ∧ shape h = shape h0) as (h & -> & Eh) end.
  { destruct (truthy (_collapsed nd)).
    - unfold expandNode.
      destruct (update_total (set_collapsed (Some false)) t h0 nd Hnd)
        as (h1 & Hu & Hl1 & _). rewrite Hu. simpl.
      pose proof (shape_update_collapsed _ _ _ _ Hu) as E1.
      destruct (Props.shouldCollapseNeighborNodes p); [|eauto].
      destruct (collapseNeighborNodes_total n fuel h1 t rs) as [h2 H2];
        [done | | by eauto |].
      { eapply Forall_impl; [done|]. intros x. by apply tree_at_shape. }
      exists h2. split; [done|].
      rewrite (collapseNeighborNodes_shape _ _ _ _ _ H2). done.
    - destruct (collapseNode_fuel n fuel h0 t) as (h1 & -> & [E _] & _);
        [lia | done | eauto]. }
  simpl. unfold flush, render.
  match goal with |- context [generateTree fuel ?cx] =>
    destruct (generateTree_total n fuel cx rs rootNode) as [[h' v] ->] end;
    with_fields; try done; try lia.
  - by rewrite (shape_arrs _ _ Eh).
  - eapply Forall_forall in Hall; [|by eapply list_elem_of_lookup_2].
    by apply (tree_at_shape n h0 h).
Qed.

Lemma first_click_returns n fuel now nodeId c rootNode t ts :
  holds_forest n c → n < fuel → timers c = [] →
  roots c !! 0 = Some rootNode →
  findNodesById fuel (store c) nodeId (roots c) [] = Some (t :: ts) →
  is_Some (click fuel now nodeId c).
Proof.
  intros Hwf Hlt Htm Hroot Hfind.
  rewrite click_no_due by (rewrite Htm; constructor).
  by eapply handleNodeToggle_returns.
Qed.

(** C9.  Take an unlocked component with no timer pending, a click at
    time [t1] on a node of its tree, and a second click at [t2], before
    [t1 + transitionDuration + 10].  The first click is handled and holds
    the lock; the second is dropped: it reaches [onClick] at most and
    queues nothing, and the pair leaves exactly one tree-state commit and
    one [onUpdate] notification. *)
Theorem toggle_lock n fuel c rootNode t1 id1 t ts t2 id2 :
  holds_forest n c → n < fuel →
  roots c !! 0 = Some rootNode →
  findNodesById fuel (store c) id1 (roots c) [] = Some (t :: ts) →
  timers c = [] → State.isTransitioning (state c) = false →
  Props.collapsible (props c) = true → Props.onUpdate (props c) = true →
  (t1 ≤ t2 < t1 + (Props.transitionDuration (props c) + 10))%Z →
  ∃ c1, click fuel t1 id1 c = Some c1 ∧
        State.isTransitioning (state c1) = true ∧
        ∃ tgt, click fuel t2 id2 c1 = Some (handleOnClickCb tgt c1) ∧
               commits (handleOnClickCb tgt c1) = S (commits c) ∧
               notifications (handleOnClickCb tgt c1) = S (notifications c).
Proof.
  intros Hwf Hlt Hroot Hfind Htm Htr Hcol Hup Hwin.
  destruct (first_click_returns n fuel t1 id1 c rootNode t ts
              Hwf Hlt Htm Hroot Hfind) as [c1 Hc1].
  exists c1. split; [done|].
  by apply (second_click_dropped n fuel c t1 id1 c1 t2 id2).
Qed.

Lemma toggle_lock_witness :
  ∃ c,
    mount Sample.uuid_v4 4 (Sample.props None false) (Sample.raw None None)
      = Some c ∧
    holds_forest 3 c ∧ 3 < 4 ∧
    roots c !! 0 = Some 1%positive ∧
    findNodesById 4 (store c) "c" (roots c) [] = Some [3%positive] ∧
    timers c = [] ∧ State.isTransitioning (state c) = false ∧
    Props.collapsible (props c) = true ∧ Props.onUpdate (props c) = true ∧
    (0 ≤ 100 < 0 + (Props.transitionDuration (props c) + 10))%Z ∧
    ∃ c1, click 4 0 "c" c = Some c1 ∧
          State.isTransitioning (state c1) = true ∧
          ∃ tgt, click 4 100 "b" c1 = Some (handleOnClickCb tgt c1) ∧
                 commits (handleOnClickCb tgt c1) = S (commits c) ∧
                 notifications (handleOnClickCb tgt c1) = S (notifications c).
Proof.
  eexists. split; [vm_compute; reflexivity|].
  match goal with |- holds_forest 3 ?c ∧ _ => set (c0 := c) end.
  assert (holds_forest 3 c0) as Hwf.
  { exists [1%positive]. split; [vm_compute; reflexivity|].
    subst c0. solve_tree_at. }
  split; [done|]. split; [lia|].
  do 6 (split; [vm_compute; reflexivity|]).
  split; [vm_compute; split; [discriminate | reflexivity]|].
  apply (toggle_lock 3 4 c0 1%positive 0%Z "c" 3%positive [] 100%Z "b");
    first [ exact Hwf | lia | vm_compute; reflexivity
          | vm_compute; split; [discriminate | reflexivity] ].
Defined.

(** * Further properties of the engine *)

(** ** Searching for an id nobody bears *)

(** A search for an id that no node of the forest bears comes back
    empty. *)
Lemma findNodesById_no_bearer n fuel h nodeId roots :
  n < fuel → Forall (tree_at n h) roots →
  (∀ l, l ∈ preorder n h roots → node_id h l ≠ Some nodeId) →
  findNodesById fuel h nodeId roots [] = Some [].
Proof.
  intros Hlt Hall Hmiss.
  assert (filter (sat h (has_id nodeId)) (preorder n h roots) = []) as Hnone.
  { destruct (filter _ _) as [|x xs] eqn:Ef; [done|].
    assert (x ∈ filter (sat h (has_id nodeId)) (preorder n h roots))
      as [Hs Hin]%list_elem_of_filter by (rewrite Ef; apply elem_of_cons; by left).
    by destruct (Hmiss x Hin), (sat_has_id h nodeId x Hs). }
  rewrite (findNodesById_unique fuel n) by (done || (rewrite Hnone; simpl; lia)).
  by rewrite Hnone.
Qed.

(** X1.  A search for an id that no node of the forest bears returns the
    empty list, whatever the collapse state: a miss is a result, not an
    error. *)
Theorem findNodesById_miss n fuel h nodeId roots :
  n < fuel → Forall (tree_at n h) roots →
  (∀ l, l ∈ preorder n h roots → node_id h l ≠ Some nodeId) →
  findNodesById fuel h nodeId roots [] = Some [].
Proof. apply findNodesById_no_bearer. Qed.

Lemma findNodesById_miss_witness :
  3 < 4 ∧ Forall (tree_at 3 Sample.store) [1%positive] ∧
  (∀ l, l ∈ preorder 3 Sample.store [1%positive] →
        node_id Sample.store l ≠ Some "z") ∧
  findNodesById 4 Sample.store "z" [1%positive] [] = Some [].
Proof.
  assert (Forall (tree_at 3 Sample.store) [1%positive]) as Ht by solve_tree_at.
  assert (∀ l, l ∈ preorder 3 Sample.store [1%positive] →
               node_id Sample.store l ≠ Some "z") as Hmiss.
  { intros l Hl. apply (Forall_forall (λ l, node_id Sample.store l ≠ Some "z")
                          (preorder 3 Sample.store [1%positive])); [|done].
    vm_compute. repeat constructor; discriminate. }
  split; [lia|]. split; [done|]. split; [done|].
  apply (findNodesById_miss 3 4 Sample.store "z" [1%positive]); [lia | done | done].
Defined.

(** ** Clicks that cannot toggle *)

Lemma handleOnClickCb_fields tgt c :
  store (handleOnClickCb tgt c) = store c ∧
  state (handleOnClickCb tgt c) = state c ∧
  timers (handleOnClickCb tgt c) = timers c ∧
  props (handleOnClickCb tgt c) = props c.
Proof. unfold handleOnClickCb. by destruct (Props.onClick (props c)), c. Qed.

Lemma holds_forest_roots n c :
  holds_forest n c →
  arrs (store c) !! State.data (state c) = Some (roots c) ∧
  Forall (tree_at n (store c)) (roots c).
Proof. intros (rs & Hrs & Hall). unfold roots. by rewrite Hrs. Qed.

(** X2.  A click whose id no node bears: when toggling is enabled (the
    tree is collapsible and the lock is free) the handler throws, reading
    [_collapsed] of [undefined]; otherwise it only hands [undefined] to
    [onClick]. *)
Theorem handleNodeToggle_unknown_id n fuel now nodeId c :
  holds_forest n c → n < fuel →
  (∀ l, l ∈ preorder n (store c) (roots c) →
        node_id (store c) l ≠ Some nodeId) →
  handleNodeToggle fuel now nodeId c =
  if Props.collapsible (props c) && negb (State.isTransitioning (state c))
  then None
  else Some (handleOnClickCb None c).
Proof.
  intros [Hrs Hall]%holds_forest_roots Hlt Hmiss.
  pose proof (findNodesById_no_bearer n fuel (store c) nodeId (roots c)
                Hlt Hall Hmiss) as Hfind.
  unfold handleNodeToggle. rewrite Hrs.
  change (Some (roots c) ≫= ?f) with (f (roots c)). cbv beta.
  rewrite Hfind. change (Some [] ≫= ?f) with (f (@nil loc)). cbv beta zeta.
  by destruct (Props.collapsible (props c) && negb (State.isTransitioning (state c))).
Qed.

Lemma handleNodeToggle_unknown_id_witness :
  holds_forest 3 Sample.component ∧ 3 < 4 ∧
  (∀ l, l ∈ preorder 3 (store Sample.component) (roots Sample.component) →
        node_id (store Sample.component) l ≠ Some "z") ∧
  handleNodeToggle 4 0 "z" Sample.component =
  if Props.collapsible (props Sample.component) &&
     negb (State.isTransitioning (state Sample.component))
  then None
  else Some (handleOnClickCb None Sample.component).
Proof.
  assert (holds_forest 3 Sample.component) as Hwf.
  { exists [1%positive]. split; [vm_compute; reflexivity|]. solve_tree_at. }
  assert (∀ l, l ∈ preorder 3 (store Sample.component) (roots Sample.component) →
               node_id (store Sample.component) l ≠ Some "z") as Hmiss.
  { intros l Hl.
    apply (Forall_forall (λ l, node_id (store Sample.component) l ≠ Some "z")
             (preorder 3 (store Sample.component) (roots Sample.component)));
      [|done].
    vm_compute. repeat constructor; discriminate. }
  split; [done|]. split; [lia|]. split; [done|].
  apply (handleNodeToggle_unknown_id 3 4 0%Z "z" Sample.component);
    [done | lia | done].
Defined.

(** X3.  With [collapsible] false a click never toggles: whatever the
    lock and the node's state, the handler returns, hands the node it
    found to [onClick], and leaves store, state and timers as they were,
    with no commit and no notification. *)
Theorem handleNodeToggle_not_collapsible n fuel now nodeId c :
  holds_forest n c → n < fuel →
  Props.collapsible (props c) = false →
  ∃ matches c',
    findNodesById fuel (store c) nodeId (roots c) [] = Some matches ∧
    handleNodeToggle fuel now nodeId c = Some c' ∧
    c' = handleOnClickCb (matches !! 0) c ∧
    store c' = store c ∧ state c' = state c ∧ timers c' = timers c ∧
    commits c' = commits c ∧ notifications c' = notifications c.
Proof.
  intros [Hrs Hall]%holds_forest_roots Hlt Hcol.
  destruct (findNodesById_total fuel n (store c) nodeId (roots c) [] Hlt Hall)
    as [matches Hfind].
  exists matches, (handleOnClickCb (matches !! 0) c).
  split; [done|]. split.
  { unfold handleNodeToggle. rewrite Hrs.
    change (Some (roots c) ≫= ?f) with (f (roots c)). cbv beta.
    rewrite Hfind. change (Some matches ≫= ?f) with (f matches). cbv beta zeta.
    by rewrite Hcol. }
  split; [done|].
  destruct (handleOnClickCb_fields (matches !! 0) c) as (-> & -> & -> & _).
  by rewrite commits_handleOnClickCb, notifications_handleOnClickCb.
Qed.

Lemma handleNodeToggle_not_collapsible_witness :
  let c := with_props
             (Props.Make (Obj 1%positive) false false 500 None false
                1 (Extent (1 # 10) 1) (Point 0 0) true true)
             Sample.component in
  holds_forest 3 c ∧ 3 < 4 ∧ Props.collapsible (props c) = false ∧
  ∃ matches c',
    findNodesById 4 (store c) "c" (roots c) [] = Some matches ∧
    handleNodeToggle 4 0 "c" c = Some c' ∧
    c' = handleOnClickCb (matches !! 0) c ∧
    store c' = store c ∧ state c' = state c ∧ timers c' = timers c ∧
    commits c' = commits c ∧ notifications c' = notifications c.
Proof.
  intros c.
  assert (holds_forest 3 c) as Hwf.
  { exists [1%positive]. split; [vm_compute; reflexivity|]. solve_tree_at. }
  split; [done|]. split; [lia|]. split; [done|].
  apply (handleNodeToggle_not_collapsible 3 4 0%Z "c" c); [done | lia | done].
Defined.

(** ** More on collapse and expand *)

Lemma kids_lookup h l nd a cs :
  objs h !! l = Some nd → _children nd = Some a → arrs h !! a = Some cs →
  kids h l = cs.
Proof. intros Hl Ha Hcs. unfold kids. by rewrite Hl, Ha, Hcs. Qed.

(** [collapseNode] writes to no object outside the subtree it is called
    on. *)
Lemma collapseNode_outside fuel : ∀ h n h' l,
  collapseNode fuel h n = Some h' → ¬ reach h n l →
  objs h' !! l = objs h !! l.
Proof.
  induction fuel as [|fuel IH]; intros h n h' l; simpl; [done|].
  destruct (objs h !! n) as [nd|] eqn:Hn; simpl; [|done].
  destruct (update (set_collapsed (Some true)) n h) as [h1|] eqn:Hu; simpl; [|done].
  intros Hrun Hout.
  assert (n ≠ l) as Hne by (intros ->; apply Hout; constructor).
  assert (objs h1 !! l = objs h !! l) as E1.
  { rewrite (update_lookup _ _ _ _ l Hu). by rewrite decide_False. }
  pose proof (shape_update_collapsed _ _ _ _ Hu) as S1.
  destruct (_children nd) as [a|] eqn:Ha; [|by injection Hrun as <-].
  rewrite (update_arrs _ _ _ _ Hu) in Hrun.
  destruct (arrs h !! a) as [cs|] eqn:Hcs; simpl in Hrun; [|done].
  pose proof (kids_lookup _ _ _ _ _ Hn Ha Hcs) as Hk.
  case_bool_decide; [|by injection Hrun as <-].
  assert (shape h' = shape h ∧ objs h' !! l = objs h !! l) as [_ ?]; [|done].
  revert Hrun.
  apply (forEach_inv (λ s, shape s = shape h ∧ objs s !! l = objs h !! l));
    [done|].
  intros s x s' Hx [Es El] Hrec. split.
  - by rewrite (collapseNode_shape _ _ _ _ Hrec).
  - rewrite (IH _ _ _ l Hrec); [done|]. intros Hr. apply Hout.
    eapply reach_step; [by rewrite Hk|]. by apply (reach_shape s h).
Qed.

(** X4.  [collapseNode] changes nothing outside the subtree of its
    argument: every object not reached from the node through [_children]
    is what it was, and so is every array. *)
Theorem collapseNode_frame fuel h n h' :
  collapseNode fuel h n = Some h' →
  (∀ l, ¬ reach h n l → objs h' !! l = objs h !! l) ∧ arrs h' = arrs h.
Proof.
  intros Hrun. split.
  - intros l Hl. by apply (collapseNode_outside fuel h n h' l).
  - apply shape_arrs. by rewrite (collapseNode_shape _ _ _ _ Hrun).
Qed.

Lemma collapseNode_frame_witness :
  ∃ h', collapseNode 3 Sample.store 3%positive = Some h' ∧
        (∀ l, ¬ reach Sample.store 3%positive l →
              objs h' !! l = objs Sample.store !! l) ∧
        arrs h' = arrs Sample.store.
Proof.
  eexists. split; [vm_compute; reflexivity|].
  apply (collapseNode_frame 3 Sample.store 3%positive). vm_compute. reflexivity.
Defined.

Lemma set_collapsed_same nd b : _collapsed nd = b → set_collapsed b nd = nd.
Proof. intros <-. by destruct nd. Qed.

(** Collapsing a subtree that is collapsed already leaves the store as it
    is. *)
Lemma collapseNode_noop fuel : ∀ k h n,
  k ≤ fuel → tree_at k h n →
  (∀ l, reach h n l → is_collapsed h l true) →
  collapseNode fuel h n = Some h.
Proof.
  induction fuel as [|fuel IH]; intros k h n Hle Ht Hall.
  { destruct k; [done | lia]. }
  destruct k as [|k]; [done|]. pose proof Ht as (nd & Hn & Hc). simpl.
  rewrite Hn. simpl.
  destruct (Hall n (reach_refl _ _)) as (nd' & Hn' & Hflag).
  rewrite Hn in Hn'. injection Hn' as <-.
  assert (update (set_collapsed (Some true)) n h = Some h) as ->.
  { unfold update. rewrite Hn. simpl. rewrite set_collapsed_same by done.
    rewrite insert_id by done. by destruct h. }
  simpl. destruct (_children nd) as [a|] eqn:Ha; [|done].
  destruct Hc as (cs & Hcs & Hkids). rewrite Hcs. simpl.
  pose proof (kids_lookup _ _ _ _ _ Hn Ha Hcs) as Hk.
  case_bool_decide; [|done].
  assert (∀ ls, ls ⊆ cs → forEach (collapseNode fuel) h ls = Some h) as Hloop.
  { induction ls as [|x ls IHls]; intros Hsub; simpl; [done|].
    rewrite (IH k h x); [|lia| |].
    - simpl. apply IHls. intros y Hy. apply Hsub, elem_of_cons. by right.
    - eapply Forall_forall in Hkids; [done|]. apply Hsub, elem_of_cons. by left.
    - intros l Hr. apply Hall. eapply reach_step; [|done].
      rewrite Hk. apply Hsub, elem_of_cons. by left. }
  by apply Hloop.
Qed.

(** X5.  [collapseNode] is idempotent: collapsing a node a second time
    changes nothing in the store. *)
Theorem collapseNode_idempotent k fuel h n h' :
  tree_at k h n → k ≤ fuel →
  collapseNode fuel h n = Some h' →
  collapseNode fuel h' n = Some h'.
Proof.
  intros Ht Hle Hrun.
  destruct (collapseNode_fuel k fuel h n Hle Ht) as (h1 & Hrun1 & [E _] & Hall).
  rewrite Hrun in Hrun1. injection Hrun1 as <-.
  apply (collapseNode_noop fuel k); [done | by apply (tree_at_shape k h h') |].
  intros l Hr. apply Hall. by apply (reach_shape h' h).
Qed.

Lemma collapseNode_idempotent_witness :
  ∃ h', tree_at 3 Sample.store 1%positive ∧ 3 ≤ 3 ∧
        collapseNode 3 Sample.store 1%positive = Some h' ∧
        collapseNode 3 h' 1%positive = Some h'.
Proof.
  eexists.
  assert (tree_at 3 Sample.store 1%positive) as Ht by solve_tree_at.
  split; [done|]. split; [lia|].
  assert (collapseNode 3 Sample.store 1%positive = Some _) as Hrun
    by (vm_compute; reflexivity).
  split; [exact Hrun|].
  apply (collapseNode_idempotent 3 3 Sample.store 1%positive); [done | lia | exact Hrun].
Defined.

(** X6.  Collapsing a node and then expanding it does not bring the
    subtree back: the node itself is expanded again, every proper
    descendant stays collapsed, whatever its flag was before. *)
Theorem collapse_then_expand k fuel h n :
  tree_at k h n → k ≤ fuel →
  ∃ h1 h2, collapseNode fuel h n = Some h1 ∧ expandNode h1 n = Some h2 ∧
           is_collapsed h2 n false ∧
           ∀ c l, c ∈ kids h n → reach h c l → is_collapsed h2 l true.
Proof.
  intros Ht Hle.
  destruct (collapseNode_fuel k fuel h n Hle Ht) as (h1 & Hrun & [E _] & Hall).
  destruct (Hall n (reach_refl _ _)) as (nd1 & Hn1 & _).
  destruct (update_total (set_collapsed (Some false)) n h1 nd1 Hn1)
    as (h2 & Hu & Hn2 & _).
  exists h1, h2. split; [done|]. split; [done|]. split.
  - exists (set_collapsed (Some false) nd1). by split.
  - intros c l Hc Hr.
    assert (l ≠ n) as Hne by (intros ->; by eapply tree_at_acyclic).
    destruct (Hall l) as (nd & Hl & Hflag); [by eapply reach_step|].
    exists nd. split; [|done].
    rewrite (update_lookup _ _ _ _ l Hu). by rewrite decide_False.
Qed.

Lemma collapse_then_expand_witness :
  tree_at 3 Sample.store 1%positive ∧ 3 ≤ 3 ∧
  ∃ h1 h2, collapseNode 3 Sample.store 1%positive = Some h1 ∧
           expandNode h1 1%positive = Some h2 ∧
           is_collapsed h2 1%positive false ∧
           ∀ c l, c ∈ kids Sample.store 1%positive → reach Sample.store c l →
                  is_collapsed h2 l true.
Proof.
  assert (tree_at 3 Sample.store 1%positive) as Ht by solve_tree_at.
  split; [done|]. split; [lia|].
  apply (collapse_then_expand 3 3 Sample.store 1%positive); [done | lia].
Defined.

(** ** What an accepted toggle does to the tree *)

(** An accepted toggle, taken apart: the node found, the store the toggle
    left, and, once the first render is past, the flags of the committed
    store. *)
Lemma handleNodeToggle_accepted_inv fuel now nodeId c c1 :
  Props.collapsible (props c) = true →
  State.isTransitioning (state c) = false →
  handleNodeToggle fuel now nodeId c = Some c1 →
  ∃ matches t nd h,
    findNodesById fuel (store c) nodeId (roots c) [] = Some matches ∧
    matches !! 0 = Some t ∧ objs (store c) !! t = Some nd ∧
    (if truthy (_collapsed nd)
     then h1 ← expandNode (store c) t;
          if Props.shouldCollapseNeighborNodes (props c)
          then collapseNeighborNodes fuel h1 t (roots c) else Some h1
     else collapseNode fuel (store c) t) = Some h ∧
    (initialRender (internal c) = false →
     ∀ l, _collapsed <$> objs (store c1) !! l = _collapsed <$> objs h !! l).
Proof.
  destruct c as [p [dref d tr g] [ir tn] h0 ts v0 es].
  unfold roots. cbn [props state internal store State.isTransitioning
                     State.data initialRender].
  intros Hcol ->. unfold handleNodeToggle. with_fields. rewrite Hcol.
  cbv beta iota zeta delta [andb negb].
  intros (nodeSet & Hns & H)%bind_Some. rewrite Hns. simpl default.
  apply bind_Some in H as (matches & Hm & H).
  apply bind_Some in H as (t & Ht & H).
  apply bind_Some in H as (nd & Hnd & H).
  apply bind_Some in H as (h & Htoggle & H).
  apply bind_Some in H as (c2 & Hflush & [= <-]).
  exists matches, t, nd, h. repeat (split; [done|]).
  intros ->. intros l.
  apply flush_inv in Hflush as (h' & v & Hgen & ->).
  apply (generateTree_keeps_flags _ _ _ _ l) in Hgen; [|done].
  with_fields_in Hgen. rewrite <- Hgen.
  unfold handleOnClickCb, componentDidUpdate. with_fields.
  by destruct (Props.onUpdate p), (Props.onClick p).
Qed.

Lemma flags_is_collapsed h h' l b :
  _collapsed <$> objs h' !! l = _collapsed <$> objs h !! l →
  is_collapsed h l b → is_collapsed h' l b.
Proof.
  intros E (nd & Hl & Hb). rewrite Hl in E. simpl in E.
  destruct (objs h' !! l) as [nd'|] eqn:Hl'; simpl in E; [|done].
  exists nd'. split; [done|]. congruence.
Qed.

(** X7.  A click on an expanded node of a collapsible, unlocked tree
    collapses the node and its whole subtree in the committed store and
    changes no flag outside that subtree. *)
Theorem toggle_collapses_subtree n fuel now nodeId c rootNode t ts nd :
  holds_forest n c → n < fuel →
  roots c !! 0 = Some rootNode →
  findNodesById fuel (store c) nodeId (roots c) [] = Some (t :: ts) →
  objs (store c) !! t = Some nd → truthy (_collapsed nd) = false →
  Props.collapsible (props c) = true →
  State.isTransitioning (state c) = false →
  initialRender (internal c) = false →
  ∃ c1, handleNodeToggle fuel now nodeId c = Some c1 ∧
        (∀ l, reach (store c) t l → is_collapsed (store c1) l true) ∧
        (∀ l, ¬ reach (store c) t l →
              _collapsed <$> objs (store c1) !! l =
              _collapsed <$> objs (store c) !! l).
Proof.
  intros Hwf Hlt Hroot Hfind Hnd Hflag Hcol Htr Hir.
  destruct (handleNodeToggle_returns n fuel now nodeId c rootNode t ts
              Hwf Hlt Hroot Hfind) as [c1 Hc1].
  exists c1. split; [done|].
  destruct (handleNodeToggle_accepted_inv _ _ _ _ _ Hcol Htr Hc1)
    as (matches & t' & nd' & h & Hm & Ht' & Hnd' & Htoggle & Hflags).
  rewrite Hfind in Hm. injection Hm as <-. injection Ht' as <-.
  rewrite Hnd in Hnd'. injection Hnd' as <-. rewrite Hflag in Htoggle.
  specialize (Hflags Hir).
  apply holds_forest_roots in Hwf as [_ Hall].
  assert (tree_at n (store c) t) as Ht.
  { pose proof (findNodesById_in_forest fuel n n (store c) nodeId (roots c) []
                  (t :: ts) Hlt (le_n _) Hall Hfind (Forall_nil_2 _)) as Hr.
    by apply Forall_cons in Hr as [? _]. }
  destruct (collapseNode_fuel n fuel (store c) t) as (h1 & Hrun & _ & Hcoll);
    [lia | done |].
  rewrite Htoggle in Hrun. injection Hrun as <-. split.
  - intros l Hr. apply (flags_is_collapsed h); [done | by apply Hcoll].
  - intros l Hr. rewrite Hflags.
    by rewrite (collapseNode_outside _ _ _ _ l Htoggle).
Qed.

(** X8.  A click on a collapsed node, with [shouldCollapseNeighborNodes]
    off, expands that node and nothing else: every other flag in the
    committed store is what it was, so children that were collapsed stay
    collapsed. *)
Theorem toggle_expands_node n fuel now nodeId c rootNode t ts nd :
  holds_forest n c → n < fuel →
  roots c !! 0 = Some rootNode →
  findNodesById fuel (store c) nodeId (roots c) [] = Some (t :: ts) →
  objs (store c) !! t = Some nd → truthy (_collapsed nd) = true →
  Props.shouldCollapseNeighborNodes (props c) = false →
  Props.collapsible (props c) = true →
  State.isTransitioning (state c) = false →
  initialRender (internal c) = false →
  ∃ c1, handleNodeToggle fuel now nodeId c = Some c1 ∧
        is_collapsed (store c1) t false ∧
        (∀ l, l ≠ t →
              _collapsed <$> objs (store c1) !! l =
              _collapsed <$> objs (store c) !! l).
Proof.
  intros Hwf Hlt Hroot Hfind Hnd Hflag Hnb Hcol Htr Hir.
  destruct (handleNodeToggle_returns n fuel now nodeId c rootNode t ts
              Hwf Hlt Hroot Hfind) as [c1 Hc1].
  exists c1. split; [done|].
  destruct (handleNodeToggle_accepted_inv _ _ _ _ _ Hcol Htr Hc1)
    as (matches & t' & nd' & h & Hm & Ht' & Hnd' & Htoggle & Hflags).
  rewrite Hfind in Hm. injection Hm as <-. injection Ht' as <-.
  rewrite Hnd in Hnd'. injection Hnd' as <-.
  rewrite Hflag, Hnb in Htoggle. specialize (Hflags Hir).
  apply bind_Some in Htoggle as (h1 & He & [= <-]). unfold expandNode in He.
  split.
  - apply (flags_is_collapsed h1); [done|].
    exists (set_collapsed (Some false) nd). split; [|done].
    rewrite (update_lookup _ _ _ _ t He), Hnd. by rewrite decide_True.
  - intros l Hne. rewrite Hflags, (update_lookup _ _ _ _ l He).
    by rewrite decide_False.
Qed.

Lemma toggle_collapses_subtree_witness :
  let c := Sample.component in
  holds_forest 3 c ∧ 3 < 4 ∧ roots c !! 0 = Some 1%positive ∧
  findNodesById 4 (store c) "c" (roots c) [] = Some [3%positive] ∧
  objs (store c) !! 3%positive =
    Some (Sample.laid "C" "c" false (Some 22%positive) 1) ∧
  truthy (_collapsed (Sample.laid "C" "c" false (Some 22%positive) 1)) = false ∧
  Props.collapsible (props c) = true ∧
  State.isTransitioning (state c) = false ∧
  initialRender (internal c) = false ∧
  ∃ c1, handleNodeToggle 4 0 "c" c = Some c1 ∧
        (∀ l, reach (store c) 3%positive l → is_collapsed (store c1) l true) ∧
        (∀ l, ¬ reach (store c) 3%positive l →
              _collapsed <$> objs (store c1) !! l =
              _collapsed <$> objs (store c) !! l).
Proof.
  intros c.
  assert (holds_forest 3 c) as Hwf.
  { exists [1%positive]. split; [vm_compute; reflexivity|]. solve_tree_at. }
  split; [done|]. split; [lia|].
  do 7 (split; [vm_compute; reflexivity|]).
  apply (toggle_collapses_subtree 3 4 0%Z "c" c 1%positive 3%positive []
           (Sample.laid "C" "c" false (Some 22%positive) 1));
    first [ done | lia | vm_compute; reflexivity ].
Defined.

Lemma toggle_expands_node_witness :
  let c := Sample.component_C in
  holds_forest 3 c ∧ 3 < 4 ∧ roots c !! 0 = Some 1%positive ∧
  findNodesById 4 (store c) "c" (roots c) [] = Some [3%positive] ∧
  objs (store c) !! 3%positive =
    Some (Sample.laid "C" "c" true (Some 22%positive) 1) ∧
  truthy (_collapsed (Sample.laid "C" "c" true (Some 22%positive) 1)) = true ∧
  Props.shouldCollapseNeighborNodes (props c) = false ∧
  Props.collapsible (props c) = true ∧
  State.isTransitioning (state c) = false ∧
  initialRender (internal c) = false ∧
  ∃ c1, handleNodeToggle 4 0 "c" c = Some c1 ∧
        is_collapsed (store c1) 3%positive false ∧
        (∀ l, l ≠ 3%positive →
              _collapsed <$> objs (store c1) !! l =
              _collapsed <$> objs (store c) !! l).
Proof.
  intros c.
  assert (holds_forest 3 c) as Hwf.
  { exists [1%positive]. split; [vm_compute; reflexivity|]. solve_tree_at. }
  split; [done|]. split; [lia|].
  do 8 (split; [vm_compute; reflexivity|]).
  apply (toggle_expands_node 3 4 0%Z "c" c 1%positive 3%positive []
           (Sample.laid "C" "c" true (Some 22%positive) 1));
    first [ done | lia | vm_compute; reflexivity ].
Defined.

(** ** The lock over time *)

(** What a toggle does to the lock: an accepted one takes it and starts a
    timer, a refused one leaves lock and timers alone. *)
Lemma handleNodeToggle_lock fuel now nodeId c c1 :
  handleNodeToggle fuel now nodeId c = Some c1 →
  props c1 = props c ∧
  ((Props.collapsible (props c) && negb (State.isTransitioning (state c)) = true ∧
    State.isTransitioning (state c1) = true ∧
    timers c1 =
      timers c ++ [(now + (Props.transitionDuration (props c) + 10))%Z]) ∨
   (Props.collapsible (props c) && negb (State.isTransitioning (state c)) = false ∧
    State.isTransitioning (state c1) = State.isTransitioning (state c) ∧
    timers c1 = timers c)).
Proof.
  destruct c as [p [dref d tr g] [ir tn] h0 ts v0 es].
  unfold handleNodeToggle. with_fields.
  intros (nodeSet & _ & H)%bind_Some.
  apply bind_Some in H as (matches & _ & H). revert H. cbv zeta.
  destruct (Props.collapsible p && negb tr).
  - intros (t & _ & H)%bind_Some.
    apply bind_Some in H as (nd & _ & H).
    apply bind_Some in H as (h & _ & H).
    apply bind_Some in H as (c2 & Hflush & [= <-]).
    apply flush_inv in Hflush as (h' & v & _ & ->).
    unfold handleOnClickCb, componentDidUpdate. with_fields.
    destruct (Props.onUpdate p); with_fields; destruct (Props.onClick p);
      with_fields; (split; [done|]); left; done.
  - intros [= <-]. unfold handleOnClickCb. with_fields.
    destruct (Props.onClick p); with_fields; (split; [done|]); right; done.
Qed.

Lemma unlock_lock fuel c c1 :
  unlock fuel c = Some c1 →
  props c1 = props c ∧ State.isTransitioning (state c1) = false ∧
  timers c1 = timers c.
Proof.
  destruct c as [p [dref d tr g] [ir tn] h0 ts v0 es]. unfold unlock.
  intros (h' & v & _ & ->)%flush_inv.
  unfold componentDidUpdate. with_fields.
  by destruct (Props.onUpdate p).
Qed.

Lemma repeat_unlock_lock fuel k : ∀ c c1,
  repeat_unlock fuel k c = Some c1 →
  props c1 = props c ∧ timers c1 = timers c ∧
  State.isTransitioning (state c1) =
    (if k is 0 then State.isTransitioning (state c) else false).
Proof.
  induction k as [|k IH]; intros c c1; simpl; [by intros [= <-]|].
  intros (c0 & Hu & Hr)%bind_Some.
  destruct (unlock_lock _ _ _ Hu) as (Ep & Et & Em).
  destruct (IH _ _ Hr) as (Ep' & Em' & Et').
  split; [congruence|]. split; [congruence|].
  rewrite Et'. by destruct k.
Qed.

Lemma click_lock_ok fuel now nodeId c c' :
  lock_ok c → click fuel now nodeId c = Some c' → lock_ok c'.
Proof.
  unfold click. intros Hok (c1 & Hu & Ht)%bind_Some.
  destruct (repeat_unlock_lock _ _ _ _ Hu) as (Ep & Em & Etr).
  assert (timers (with_timers
            (filter (λ t, ¬ (t ≤ now)%Z) (timers c)) c)
          = filter (λ t, ¬ (t ≤ now)%Z) (timers c)) as Ew by (by destruct c).
  assert (State.isTransitioning (state (with_timers
            (filter (λ t, ¬ (t ≤ now)%Z) (timers c)) c))
          = State.isTransitioning (state c)) as Es by (by destruct c).
  rewrite Ew in Em. rewrite Es in Etr. clear Ew Es Hu.
  assert (lock_ok c1) as Hok1.
  { destruct Hok as [[Htr Htm]|[Htr [t Htm]]]; rewrite Htm in Em, Etr.
    - rewrite !filter_nil in Em, Etr. simpl in Etr. left. split; congruence.
    - rewrite !filter_cons, !filter_nil in Em, Etr.
      destruct (decide (t ≤ now)%Z).
      + rewrite decide_False in Em by tauto. simpl in Etr. by left.
      + rewrite decide_True in Em by done. simpl in Etr. right.
        split; [congruence|eauto]. }
  clear Hok Em Etr.
  destruct (handleNodeToggle_lock _ _ _ _ _ Ht) as (_ & [(Hg & Htr & Htm)|(Hg & Htr & Htm)]).
  - apply andb_true_iff in Hg as [_ Hg%negb_true_iff].
    destruct Hok1 as [[_ Htm1]|[Htr1 _]]; [|congruence].
    right. split; [done|]. rewrite Htm, Htm1. simpl. eauto.
  - destruct Hok1 as [[Htr1 Htm1]|[Htr1 Htm1]]; [left | right];
      rewrite Htr, Htm; done.
Qed.

Lemma run_clicks_inv fuel (P : component → Prop) evs :
  (∀ now nodeId c c', P c → click fuel now nodeId c = Some c' → P c') →
  ∀ c c', P c → run_clicks fuel evs c = Some c' → P c'.
Proof.
  intros Hstep. induction evs as [|[now nodeId] evs IH]; intros c c' Hc; simpl.
  - by intros [= <-].
  - intros (c1 & H1 & Hr)%bind_Some. eapply IH; [|done]. by eapply Hstep.
Qed.

(** X9.  From mount on, through any run of clicks at any times, the lock
    and its timer agree: the component is unlocked with no timer pending,
    or locked with exactly one, so a held lock always has the timer that
    will release it and timers never pile up. *)
Theorem lock_invariant uuid_v4 fuel p h c0 evs c :
  mount uuid_v4 fuel p h = Some c0 →
  run_clicks fuel evs c0 = Some c →
  lock_ok c.
Proof.
  intros Hm. apply (run_clicks_inv fuel lock_ok).
  - intros ????. apply click_lock_ok.
  - left. by destruct (mount_unlocked _ _ _ _ _ Hm) as (-> & -> & _).
Qed.

Lemma lock_invariant_witness :
  ∃ c0 c,
    mount Sample.uuid_v4 4 (Sample.props None false) (Sample.raw None None)
      = Some c0 ∧
    run_clicks 4 [(0%Z, "c"); (100%Z, "b"); (510%Z, "b")] c0 = Some c ∧
    lock_ok c.
Proof.
  eexists. eexists. split; [vm_compute; reflexivity|].
  split; [vm_compute; reflexivity|].
  eapply (lock_invariant Sample.uuid_v4 4 (Sample.props None false)
            (Sample.raw None None) _ [(0%Z, "c"); (100%Z, "b"); (510%Z, "b")]);
    vm_compute; reflexivity.
Defined.

(** X10.  The initial-depth forcing belongs to the first render only:
    after mount and any run of clicks, [generateTree] changes no
    [_collapsed] flag, whatever props (and so whatever [initialDepth]) it
    is given. *)
Theorem forcing_not_reapplied uuid_v4 fuel p h c0 evs c p' h' v l :
  mount uuid_v4 fuel p h = Some c0 →
  run_clicks fuel evs c0 = Some c →
  generateTree fuel (with_props p' c) = Some (h', v) →
  _collapsed <$> objs h' !! l = _collapsed <$> objs (store c) !! l.
Proof.
  intros Hm Hrun Hgen.
  assert (initialRender (internal c) = false) as Hir.
  { revert Hrun.
    apply (run_clicks_inv fuel (λ c, initialRender (internal c) = false)).
    - intros ???? H0 Hc. by rewrite (click_initialRender _ _ _ _ _ Hc).
    - by destruct (mount_unlocked _ _ _ _ _ Hm) as (_ & _ & -> & _). }
  by apply (generateTree_keeps_flags fuel (with_props p' c) h' v l Hir).
Qed.

Lemma forcing_not_reapplied_witness :
  ∃ c0 c h' v,
    mount Sample.uuid_v4 4 (Sample.props (Some 1%Z) false) (Sample.raw None None)
      = Some c0 ∧
    run_clicks 4 [(0%Z, "b")] c0 = Some c ∧
    generateTree 4 (with_props (Sample.props (Some 0%Z) false) c) = Some (h', v) ∧
    ∀ l, _collapsed <$> objs h' !! l = _collapsed <$> objs (store c) !! l.
Proof.
  do 4 eexists. split; [vm_compute; reflexivity|].
  split; [vm_compute; reflexivity|].
  split; [vm_compute; reflexivity|].
  intros l.
  eapply (forcing_not_reapplied Sample.uuid_v4 4 (Sample.props (Some 1%Z) false)
            (Sample.raw None None) _ [(0%Z, "b")] _
            (Sample.props (Some 0%Z) false));
    vm_compute; reflexivity.
Defined.



Lemma with_timers_fields ts c :
  store (with_timers ts c) = store c ∧ state (with_timers ts c) = state c ∧
  props (with_timers ts c) = props c ∧ timers (with_timers ts c) = ts ∧
  effects (with_timers ts c) = effects c.
Proof. by destruct c. Qed.



(** ** What the layout shows *)

Lemma layout_view_kids h h' l :
  layout_view h' = layout_view h → kids h' l = kids h l.
Proof.
  intros E. unfold kids. pose proof (layout_view_lookup _ _ l E) as El.
  assert (arrs h' = arrs h) as -> by (by injection E).
  destruct (objs h' !! l) as [nd'|], (objs h !! l) as [nd|]; simpl in El;
    try done.
  injection El as _ _ ->. done.
Qed.

Lemma layout_view_vkids h h' l :
  layout_view h' = layout_view h → vkids h' l = vkids h l.
Proof.
  intros E. unfold vkids. rewrite (layout_view_kids h h' l E).
  pose proof (layout_view_lookup _ _ l E) as El.
  destruct (objs h' !! l) as [nd'|], (objs h !! l) as [nd|]; simpl in El;
    try done.
  injection El as _ -> _. done.
Qed.

Lemma layout_view_visible n : ∀ h h' ns,
  layout_view h' = layout_view h → visible n h' ns = visible n h ns.
Proof.
  induction n as [|n IH]; intros h h' ns E; simpl; [done|].
  induction ns as [|x ns IHns]; simpl; [done|].
  by rewrite IHns, (layout_view_vkids h h' x E), (IH h h' _ E).
Qed.

Lemma visible_cons n h c cs :
  visible n h (c :: cs) = visible n h [c] ++ visible n h cs.
Proof. destruct n; simpl; [done|]. by rewrite (right_id_L [] (++)). Qed.

Lemma visible_nil n h : visible n h [] = [].
Proof. by destruct n. Qed.

(** An update of [children] or [depth] keeps every link that was right,
    as long as the node it writes ends up linked. *)
Lemma linked_update f n h h' :
  update f n h = Some h' →
  layout_view h' = layout_view h →
  (linked h n → linked h' n) →
  ∀ x, linked h x → linked h' x.
Proof.
  intros Hu E Hn x Hx. destruct (decide (x = n)) as [->|Hne]; [by apply Hn|].
  unfold linked, shown_children in *.
  rewrite (layout_view_vkids h h' x E), (update_lookup _ _ _ _ x Hu).
  rewrite decide_False by done. by rewrite (update_arrs _ _ _ _ Hu).
Qed.

(** The layout pass lists the visible nodes in pre-order and leaves the
    [children] of each of them equal to its visible children. *)
Lemma tree_nodes_from_visible fuel :
  ∀ n h l d, n ≤ fuel → tree_at n h l →
  ∃ h', tree_nodes_from fuel h l d = Some (h', visible n h [l]) ∧
        layout_view h' = layout_view h ∧
        (∀ x, linked h x → linked h' x) ∧
        (∀ x, x ∈ visible n h [l] → linked h' x).
Proof.
  induction fuel as [|fuel IH]; intros n h l d Hle Ht.
  { destruct n; [done | lia]. }
  destruct n as [|n]; [done|]. pose proof Ht as (nd0 & Hl & Hc). simpl.
  destruct (update_total (set_depth (Some d)) l h nd0 Hl)
    as (h1 & Hu1 & Hl1 & Ea1). rewrite Hu1. simpl. rewrite Hl1. simpl.
  pose proof (update_layout_view _ _ _ _ Hu1 (λ _, ltac:(done))) as E1.
  assert (∀ x, linked h x → linked h1 x) as HK1.
  { apply (linked_update _ _ _ _ Hu1 E1).
    unfold linked, shown_children.
    rewrite (layout_view_vkids h h1 l E1), Hl, Hl1, Ea1. done. }
  rewrite (right_id_L [] (++)).
  assert (vkids h l = if truthy (_collapsed nd0) then [] else kids h l) as Hvk
    by (unfold vkids; by rewrite Hl).
  assert (Hleaf : vkids h l = [] →
    ∃ h', (h ← update (set_children None) l h1; Some (h, [l]))
            = Some (h', l :: visible n h (vkids h l)) ∧
          layout_view h' = layout_view h ∧
          (∀ x, linked h x → linked h' x) ∧
          (∀ x, x ∈ l :: visible n h (vkids h l) → linked h' x)).
  { intros Hnil. rewrite Hnil, visible_nil.
    destruct (update_total (set_children None) l h1 _ Hl1)
      as (h2 & Hu2 & Hl2 & Ea2).
    pose proof (update_layout_view _ _ _ _ Hu2 (λ _, ltac:(done))) as E2.
    assert (linked h2 l) as Hl2'.
    { unfold linked, shown_children.
      rewrite (layout_view_vkids h1 h2 l E2), (layout_view_vkids h h1 l E1).
      rewrite Hl2, Hnil. done. }
    exists h2. rewrite Hu2. split; [done|]. split; [congruence|]. split.
    - intros x Hx. by apply (linked_update _ _ _ _ Hu2 E2), HK1.
    - by intros x ->%list_elem_of_singleton. }
  destruct (truthy (_collapsed nd0)) eqn:Hflag;
    [by apply Hleaf|destruct (_children nd0) as [a|] eqn:Ha].
  - destruct Hc as (cs & Hcs & Hall). rewrite Ea1, Hcs. simpl.
    pose proof (kids_lookup _ _ _ _ _ Hl Ha Hcs) as Hk.
    case_bool_decide as Hne.
    + rewrite Hvk, Hk.
      destruct (update_total (set_children (Some a)) l h1 _ Hl1)
        as (h2 & Hu2 & Hl2 & Ea2). rewrite Hu2. simpl.
      pose proof (update_layout_view _ _ _ _ Hu2 (λ _, ltac:(done))) as E2.
      assert (layout_view h2 = layout_view h) as E02 by congruence.
      assert (linked h2 l) as Hl2'.
      { unfold linked, shown_children.
        rewrite (layout_view_vkids h h2 l E02), Hvk, Hk, Hl2. simpl.
        by rewrite Ea2, Ea1. }
      assert (∀ x, linked h x → linked h2 x) as HK2.
      { intros x Hx. by apply (linked_update _ _ _ _ Hu2 E2), HK1. }
      assert (Hloop : ∀ cs h3 out3,
        Forall (tree_at n h3) cs →
        ∃ h4,
          forEach (λ (acc : heap * list loc) c,
              '(h, sub) ← tree_nodes_from fuel acc.1 c (S d);
              Some (h, acc.2 ++ sub)) (h3, out3) cs
            = Some (h4, out3 ++ visible n h3 cs) ∧
          layout_view h4 = layout_view h3 ∧
          (∀ x, linked h3 x → linked h4 x) ∧
          (∀ x, x ∈ visible n h3 cs → linked h4 x)).
      { clear -IH Hle. induction cs as [|c cs IHcs]; intros h3 out3 Hcs.
        - exists h3. rewrite visible_nil, (right_id_L [] (++)). simpl.
          split; [done|]. split; [done|]. split; [done|].
          by intros ? ?%elem_of_nil.
        - apply Forall_cons in Hcs as [Hc Hcs]. simpl forEach.
          destruct (IH n h3 c (S d)) as (h4 & -> & E4 & K4 & V4);
            [lia | done |]. simpl.
          destruct (IHcs h4 (out3 ++ visible n h3 [c])) as (h5 & -> & E5 & K5 & V5).
          { eapply Forall_impl; [done|]. intros y.
            apply tree_at_view. by apply layout_view_search. }
          exists h5. rewrite (visible_cons n h3 c cs).
          rewrite (layout_view_visible n h3 h4 cs E4), (assoc_L (++)).
          split; [done|]. split; [congruence|]. split; [by auto|].
          intros x [Hx|Hx]%elem_of_app; [by apply K5, V4|].
          apply V5. by rewrite (layout_view_visible n h3 h4 cs E4). }
      destruct (Hloop cs h2 []) as (h4 & -> & E4 & K4 & V4).
      { eapply Forall_impl; [done|]. intros y.
        apply tree_at_view. by apply layout_view_search. }
      simpl. rewrite (layout_view_visible n h h2 cs E02).
      exists h4. split; [done|]. split; [congruence|]. split; [by auto|].
      intros x [->|Hx]%elem_of_cons; [by apply K4|].
      apply V4. by rewrite (layout_view_visible n h h2 cs E02).
    + apply Hleaf. rewrite Hvk, Hk. destruct cs; [done|]. simpl in Hne. lia.
  - apply Hleaf. rewrite Hvk. unfold kids. by rewrite Hl, Ha.
Qed.

Lemma tree_links_linked h nodes :
  Forall (linked h) nodes → tree_links h nodes = Some (visible_links h nodes).
Proof.
  induction 1 as [|x nodes Hx _ IH]; simpl; [done|].
  unfold linked, shown_children in Hx. rewrite IH.
  destruct (objs h !! x) as [nd|]; simpl in *; [|done].
  by rewrite Hx.
Qed.

Lemma linked_is_Some h x : linked h x → is_Some (objs h !! x).
Proof.
  unfold linked, shown_children. destruct (objs h !! x); [eauto | done].
Qed.

Lemma vkids_tree_at n h l : tree_at (S n) h l → Forall (tree_at n h) (vkids h l).
Proof.
  intros Ht. unfold vkids. destruct (objs h !! l) as [nd|]; [|constructor].
  destruct (truthy (_collapsed nd)); [constructor | by apply kids_Forall].
Qed.

Lemma visible_links_app h l1 l2 :
  visible_links h (l1 ++ l2) = visible_links h l1 ++ visible_links h l2.
Proof. apply flat_map_app. Qed.

(** Among the visible nodes of a forest, every node but the roots is the
    target of exactly one link. *)
Lemma visible_links_length n : ∀ h ns,
  Forall (tree_at n h) ns →
  length (visible_links h (visible n h ns)) + length ns
  = length (visible n h ns).
Proof.
  induction n as [|n IH]; intros h ns Hall.
  { destruct ns as [|x ns]; [done|]. by apply Forall_cons in Hall as [[] _]. }
  induction Hall as [|x ns Hx _ IHns]; [done|].
  change (visible (S n) h (x :: ns))
    with ((x :: visible n h (vkids h x)) ++ visible (S n) h ns).
  rewrite visible_links_app, !length_app.
  change (visible_links h (x :: visible n h (vkids h x)))
    with (((λ c, (x, c)) <$> vkids h x)
          ++ visible_links h (visible n h (vkids h x))).
  rewrite length_app, length_fmap.
  pose proof (IH h (vkids h x) (vkids_tree_at n h x Hx)) as Hk.
  simpl length in *. lia.
Qed.

(** X12.  [generateTree] on a tree returns the visible nodes, in
    pre-order from the root and with no node under a collapsed one, and
    one link per visible node and visible child of it: every listed node
    but the root is the target of exactly one link.  Visibility is that
    of the flags the call leaves in the store. *)
Theorem generateTree_shows_visible n fuel c rs rootNode :
  arrs (store c) !! State.data (state c) = Some rs →
  rs !! 0 = Some rootNode →
  tree_at n (store c) rootNode → n ≤ fuel →
  ∃ h' nodes links,
    generateTree fuel c = Some (h', (nodes, links)) ∧
    nodes = visible n h' [rootNode] ∧
    links = visible_links h' nodes ∧
    length links + 1 = length nodes.
Proof.
  intros Hrs Hroot Ht Hle. unfold generateTree, tree_nodes.
  rewrite Hrs. simpl. rewrite Hroot. simpl.
  destruct (tree_nodes_from_visible fuel n (store c) rootNode 0 Hle Ht)
    as (h1 & -> & E1 & _ & V1). simpl.
  assert (Hfinish : ∀ h0 h2, tree_at n h0 rootNode →
    layout_view h2 = layout_view h0 →
    (∀ x, x ∈ visible n h0 [rootNode] → linked h2 x) →
    ∃ h' nodes links,
      (links ← tree_links h2 (visible n h0 [rootNode]);
       Some (h2, (visible n h0 [rootNode], links)))
        = Some (h', (nodes, links)) ∧
      nodes = visible n h' [rootNode] ∧
      links = visible_links h' nodes ∧
      length links + 1 = length nodes).
  { intros h0 h2 Ht0 E V.
    rewrite <- (layout_view_visible n h0 h2 [rootNode] E) in V |- *.
    rewrite tree_links_linked by (by apply Forall_forall). simpl.
    do 3 eexists. split; [reflexivity|].
    split; [done|]. split; [done|].
    rewrite <- (visible_links_length n h2 [rootNode]); [simpl; lia|].
    apply Forall_singleton. apply (tree_at_view n h0); [|done].
    by apply layout_view_search. }
  destruct (Props.initialDepth (props c)) as [k|];
    [destruct (negb _ && _)|]; simpl; [|by apply Hfinish..].
  destruct (setInitialTreeDepth_spec (visible n (store c) [rootNode]) k h1)
    as (h2 & H2 & _).
  { apply Forall_forall. intros x Hx. by apply linked_is_Some, V1. }
  rewrite H2. simpl.
  assert (tree_at n h2 rootNode) as Ht2.
  { apply (tree_at_view n (store c)); [|done].
    rewrite (shape_search _ _ (setInitialTreeDepth_shape _ _ _ _ H2)).
    by apply layout_view_search. }
  destruct (tree_nodes_from_visible fuel n h2 rootNode 0 Hle Ht2)
    as (h3 & -> & E3 & _ & V3). simpl.
  by apply Hfinish.
Qed.

Lemma generateTree_shows_visible_witness :
  let c := Sample.component_C in
  arrs (store c) !! State.data (state c) = Some [1%positive] ∧
  [1%positive] !! 0 = Some 1%positive ∧
  tree_at 3 (store c) 1%positive ∧ 3 ≤ 4 ∧
  ∃ h' nodes links,
    generateTree 4 c = Some (h', (nodes, links)) ∧
    nodes = visible 3 h' [1%positive] ∧
    links = visible_links h' nodes ∧
    length links + 1 = length nodes.
Proof.
  intros c.
  assert (tree_at 3 (store c) 1%positive) as Ht by (subst c; solve_tree_at).
  split; [vm_compute; reflexivity|]. split; [done|]. split; [done|].
  split; [lia|].
  apply (generateTree_shows_visible 3 4 c [1%positive] 1%positive);
    first [ done | lia | vm_compute; reflexivity ].
Defined.

(** On the sample tree with C collapsed the layout shows A, B and C and
    two links; D is hidden. *)
Lemma sample_generateTree_collapsed :
  snd <$> generateTree 4 Sample.component_C =
  Some ([1; 2; 3]%positive, [(1, 2); (1, 3)]%positive).
Proof. vm_compute. reflexivity. Qed.

(** ** Collapsing the neighbours *)

(** [forEach(collapseNode)] over roots of trees: every subtree ends
    collapsed, no flag is cleared, and nothing outside the subtrees is
    written. *)
Lemma forEach_collapseNode n fuel : ∀ ls h,
  n ≤ fuel → Forall (tree_at n h) ls →
  ∃ h', forEach (collapseNode fuel) h ls = Some h' ∧ collapsed_more h h' ∧
        (∀ c l, c ∈ ls → reach h c l → is_collapsed h' l true) ∧
        (∀ l, (∀ c, c ∈ ls → ¬ reach h c l) → objs h' !! l = objs h !! l).
Proof.
  induction ls as [|c ls IH]; intros h Hle Hall; simpl.
  - exists h. split; [done|]. split; [apply collapsed_more_refl|].
    split; [by intros ?? ?%elem_of_nil | done].
  - apply Forall_cons in Hall as [Hc Hall].
    destruct (collapseNode_fuel n fuel h c Hle Hc) as (h1 & Hrun & [E1 M1] & R1).
    rewrite Hrun. simpl.
    destruct (IH h1 Hle) as (h2 & -> & [E2 M2] & R2 & F2).
    { eapply Forall_impl; [done|]. intros ?. by apply tree_at_shape. }
    exists h2. split; [done|]. split; [split; [congruence | auto]|]. split.
    + intros x l [->|Hx]%elem_of_cons Hr; [by apply M2, R1|].
      apply (R2 x l Hx). by apply (reach_shape h h1).
    + intros l Hout. rewrite F2.
      * apply (collapseNode_outside _ _ _ _ l Hrun).
        apply Hout, elem_of_cons. by left.
      * intros x Hx Hr. apply (Hout x); [apply elem_of_cons; by right|].
        by apply (reach_shape h1 h).
Qed.

(** The neighbours of the target: the nodes of the forest whose [depth]
    field is the target's and whose [id] is not. *)
Lemma neighbors_spec n fuel h tn ns :
  n < fuel → Forall (tree_at n h) ns →
  ∃ nbs,
    (atDepth ← findNodesAtDepth fuel h (depth tn) ns [];
     filter_nodes (λ nd, negb (bool_decide (id nd = id tn))) h atDepth)
      = Some nbs ∧
    Forall (tree_at n h) nbs ∧
    ∀ x, x ∈ nbs ↔
         x ∈ preorder n h ns ∧ sat h (has_depth (depth tn)) x ∧
         node_id h x ≠ id tn.
Proof.
  intros Hlt Hall.
  rewrite (findNodesAtDepth_levelwalk fuel n) by done. simpl.
  pose proof (levelwalk_tree_at n h (has_depth (depth tn)) ns Hall) as Hlw.
  rewrite (filter_nodes_tree n) by done.
  eexists. split; [done|]. split.
  - apply Forall_forall. intros x [_ Hx]%list_elem_of_filter.
    by eapply Forall_forall in Hlw.
  - intros x. rewrite list_elem_of_filter.
    assert (x ∈ levelwalk n h (has_depth (depth tn)) ns ↔
            x ∈ filter (sat h (has_depth (depth tn))) (preorder n h ns)) as ->.
    { pose proof (levelwalk_perm n h (has_depth (depth tn)) ns) as Hp.
      split; intros Hx; [by rewrite <- Hp | by rewrite Hp]. }
    rewrite list_elem_of_filter.
    assert (sat h (λ nd, negb (bool_decide (id nd = id tn))) x ↔
            is_Some (objs h !! x) ∧ node_id h x ≠ id tn) as ->.
    { unfold sat, node_id. destruct (objs h !! x) as [nd|]; simpl.
      - case_bool_decide as Hid; simpl.
        + split; [done | by intros [_ []]].
        + split; [intros _; split; [eauto | done] | done].
      - split; [done | by intros [[] _]]. }
    split.
    + intros ([_ ?] & ? & ?). tauto.
    + intros (Hin & Hs & Hid). split; [|done].
      split; [|done]. unfold sat in Hs. destruct (objs h !! x); [eauto|done].
Qed.

Lemma depths_from_member n : ∀ h k ns x,
  depths_from n h k ns → x ∈ preorder n h ns →
  ∃ m j, sat h (has_depth (Some j)) x ∧ depths_from m h (S j) (kids h x).
Proof.
  induction n as [|n IH]; intros h k ns x Hd; simpl in *;
    [by intros ?%elem_of_nil|].
  rewrite list_elem_of_In, in_flat_map. intros (r & Hr & Hx).
  apply list_elem_of_In in Hr, Hx. eapply Forall_forall in Hd as [Hs Hk]; [|done].
  apply elem_of_cons in Hx as [->|Hx]; [by exists n, k|].
  by apply (IH h (S k) (kids h r)).
Qed.

(** When depth fields hold path lengths, what lies strictly below a node
    has a greater depth. *)
Lemma depths_from_reach h x l :
  reach h x l → ∀ m k, sat h (has_depth (Some k)) x →
  depths_from m h (S k) (kids h x) →
  l = x ∨ ∃ j, k < j ∧ sat h (has_depth (Some j)) l.
Proof.
  induction 1 as [|x c l Hc Hr IH]; intros m k Hs Hd; [by left|].
  right. destruct m as [|m]; simpl in Hd.
  { rewrite Hd in Hc. by apply elem_of_nil in Hc. }
  eapply Forall_forall in Hd as [Hsc Hdc]; [|done].
  destruct (IH m (S k) Hsc Hdc) as [->|(j & Hj & Hsj)].
  - exists (S k). split; [lia | done].
  - exists j. split; [lia | done].
Qed.

(** X13.  [collapseNeighborNodes] on a forest returns; it collapses,
    with its whole subtree, every node whose [depth] field is the
    target's and whose id is not (whatever its parent), clears no flag,
    and writes to nothing outside those subtrees.  When the depth fields
    hold the path lengths, the target itself is untouched. *)
Theorem collapseNeighborNodes_spec n fuel h t tn ns :
  n < fuel → Forall (tree_at n h) ns → objs h !! t = Some tn →
  ∃ h', collapseNeighborNodes fuel h t ns = Some h' ∧
        collapsed_more h h' ∧
        (∀ x l, x ∈ preorder n h ns → sat h (has_depth (depth tn)) x →
                node_id h x ≠ id tn → reach h x l → is_collapsed h' l true) ∧
        (∀ l, (∀ x, x ∈ preorder n h ns → sat h (has_depth (depth tn)) x →
                    node_id h x ≠ id tn → ¬ reach h x l) →
              objs h' !! l = objs h !! l) ∧
        (depths_from n h 0 ns → t ∈ preorder n h ns →
         objs h' !! t = Some tn).
Proof.
  intros Hlt Hall Ht. unfold collapseNeighborNodes. rewrite Ht. simpl.
  destruct (neighbors_spec n fuel h tn ns Hlt Hall) as (nbs & Hnbs & Hnt & Hin).
  apply bind_Some in Hnbs as (atDepth & -> & Hf). simpl. rewrite Hf. simpl.
  destruct (forEach_collapseNode n fuel nbs h) as (h' & -> & Hmore & Hcoll & Hout);
    [lia | done |].
  exists h'. split; [done|]. split; [done|].
  assert (∀ l, (∀ x, x ∈ preorder n h ns → sat h (has_depth (depth tn)) x →
                     node_id h x ≠ id tn → ¬ reach h x l) →
               objs h' !! l = objs h !! l) as Hframe.
  { intros l Hl. apply Hout. intros x Hx. apply Hin in Hx as (? & ? & ?).
    by apply Hl. }
  split; [|split; [done|]].
  - intros x l Hx Hs Hid Hr. apply (Hcoll x l); [|done]. apply Hin. done.
  - intros Hd Htin. rewrite <- Ht. apply Hframe.
    intros x Hx Hs Hid Hr.
    destruct (depths_from_member n h 0 ns x Hd Hx) as (m & j & Hsj & Hdj).
    destruct (depths_from_member n h 0 ns t Hd Htin) as (_ & jt & Hst & _).
    assert (depth tn = Some jt) as Hdt.
    { unfold sat, has_depth in Hst. rewrite Ht in Hst. simpl in Hst.
      injection Hst as Hst. by apply bool_decide_eq_true in Hst. }
    rewrite Hdt in Hs. apply (sat_has_depth _ _ _ _ Hsj) in Hs. subst jt.
    destruct (depths_from_reach h x t Hr m j Hsj Hdj) as [->|(j' & Hlt' & Hs')].
    + apply Hid. unfold node_id. by rewrite Ht.
    + apply (sat_has_depth _ _ _ _ Hst) in Hs'. lia.
Qed.

Lemma collapseNeighborNodes_spec_witness :
  let tn := Sample.laid "B" "b" false None 1 in
  3 < 4 ∧ Forall (tree_at 3 Sample.store) [1%positive] ∧
  objs Sample.store !! 2%positive = Some tn ∧
  ∃ h', collapseNeighborNodes 4 Sample.store 2%positive [1%positive] = Some h' ∧
        collapsed_more Sample.store h' ∧
        (∀ x l, x ∈ preorder 3 Sample.store [1%positive] →
                sat Sample.store (has_depth (depth tn)) x →
                node_id Sample.store x ≠ id tn → reach Sample.store x l →
                is_collapsed h' l true) ∧
        (∀ l, (∀ x, x ∈ preorder 3 Sample.store [1%positive] →
                    sat Sample.store (has_depth (depth tn)) x →
                    node_id Sample.store x ≠ id tn →
                    ¬ reach Sample.store x l) →
              objs h' !! l = objs Sample.store !! l) ∧
        (depths_from 3 Sample.store 0 [1%positive] →
         2%positive ∈ preorder 3 Sample.store [1%positive] →
         objs h' !! 2%positive = Some tn).
Proof.
  intros tn.
  assert (Forall (tree_at 3 Sample.store) [1%positive]) as Ht by solve_tree_at.
  split; [lia|]. split; [done|]. split; [done|].
  apply (collapseNeighborNodes_spec 3 4 Sample.store 2%positive tn [1%positive]);
    [lia | done | done].
Defined.

(** On the sample tree, collapsing the neighbours of B collapses C and D
    and leaves A and B alone. *)
Lemma sample_collapseNeighborNodes :
  (h ← collapseNeighborNodes 4 Sample.store 2%positive [1%positive];
   Some ((λ l, _collapsed <$> objs h !! l) <$> [1; 2; 3; 4]%positive)) =
  Some [Some (Some false); Some (Some false); Some (Some true); Some (Some true)].
Proof. vm_compute. reflexivity. Qed.

(** ** Geometry at the edges *)

(** X14.  With [min <= max], resolving the geometry again with the
    resolved scale as the requested zoom changes nothing. *)
Theorem calculateD3Geometry_idempotent (p : Props.t) :
  (min (Props.scaleExtent p) <= max (Props.scaleExtent p))%Q →
  calculateD3Geometry
    (with_zoom (Geometry.scale (calculateD3Geometry p)) p) =
  calculateD3Geometry p.
Proof.
  intros Hext. unfold calculateD3Geometry, with_zoom. simpl. f_equal.
  destruct (Qlt_le_dec (max (Props.scaleExtent p)) (Props.zoom p)) as [Hhi|Hhi].
  - destruct (Qlt_le_dec _ _) as [H1|H1]; [by apply Qlt_irrefl in H1|].
    destruct (Qlt_le_dec _ _) as [H2|H2]; [|done].
    exfalso. apply (Qlt_irrefl (min (Props.scaleExtent p))).
    by eapply Qle_lt_trans.
  - destruct (Qlt_le_dec (Props.zoom p) (min (Props.scaleExtent p))) as [Hlo|Hlo].
    + destruct (Qlt_le_dec _ _) as [H1|H1].
      * exfalso. apply (Qlt_irrefl (min (Props.scaleExtent p))).
        by eapply Qle_lt_trans.
      * destruct (Qlt_le_dec _ _) as [H2|H2]; [|done].
        by apply Qlt_irrefl in H2.
    + destruct (Qlt_le_dec _ _) as [H1|H1].
      * exfalso. apply (Qlt_irrefl (Props.zoom p)). by eapply Qle_lt_trans.
      * destruct (Qlt_le_dec _ _) as [H2|H2]; [|done].
        exfalso. apply (Qlt_irrefl (Props.zoom p)). by eapply Qlt_le_trans.
Qed.

Lemma calculateD3Geometry_idempotent_witness :
  let p := Props.Make (Obj 1%positive) true false 500 None false
             5 (Extent (1 # 10) 2) (Point 0 0) true true in
  (min (Props.scaleExtent p) <= max (Props.scaleExtent p))%Q ∧
  calculateD3Geometry
    (with_zoom (Geometry.scale (calculateD3Geometry p)) p) =
  calculateD3Geometry p.
Proof.
  intros p.
  assert (min (Props.scaleExtent p) <= max (Props.scaleExtent p))%Q as Hext
    by (vm_compute; discriminate).
  split; [done|]. apply (calculateD3Geometry_idempotent p), Hext.
Defined.

(** X15.  With an inverted extent, [max < min], the resolved scale is
    never the requested zoom unless it is a bound: it is [max] when the
    zoom exceeds [max], and [min], which lies above [max], otherwise. *)
Theorem calculateD3Geometry_inverted (p : Props.t) :
  (max (Props.scaleExtent p) < min (Props.scaleExtent p))%Q →
  Geometry.scale (calculateD3Geometry p) =
  if Qlt_le_dec (max (Props.scaleExtent p)) (Props.zoom p)
  then max (Props.scaleExtent p)
  else min (Props.scaleExtent p).
Proof.
  intros Hinv. unfold calculateD3Geometry. simpl.
  destruct (Qlt_le_dec _ _) as [Hhi|Hhi]; [done|].
  destruct (Qlt_le_dec _ _) as [Hlo|Hlo]; [done|].
  exfalso. apply (Qlt_irrefl (max (Props.scaleExtent p))).
  eapply Qlt_le_trans; [done|]. by eapply Qle_trans.
Qed.

Lemma calculateD3Geometry_inverted_witness :
  let p := Props.Make (Obj 1%positive) true false 500 None false
             1 (Extent 3 2) (Point 0 0) true true in
  (max (Props.scaleExtent p) < min (Props.scaleExtent p))%Q ∧
  Geometry.scale (calculateD3Geometry p) = 3%Q.
Proof.
  intros p.
  assert (max (Props.scaleExtent p) < min (Props.scaleExtent p))%Q as Hinv
    by (vm_compute; reflexivity).
  split; [done|]. by rewrite (calculateD3Geometry_inverted p Hinv).
Defined.

(** ** What identity assignment builds *)

Lemma raw_preorder_cons n h x ls :
  raw_preorder n h (x :: ls) = raw_preorder n h [x] ++ raw_preorder n h ls.
Proof. destruct n as [|n]; [done|]. simpl. by rewrite app_nil_r. Qed.

Lemma raw_preorder_one n h x :
  raw_preorder (S n) h [x] = x :: raw_preorder n h (raw_kids h x).
Proof. simpl. by rewrite app_nil_r. Qed.

Lemma raw_preorder_member n : ∀ h ns y,
  Forall (raw_tree_at n h) ns → y ∈ raw_preorder n h ns →
  ∃ m, raw_tree_at m h y.
Proof.
  induction n as [|n IH]; intros h ns y Hall; simpl;
    [by intros ?%elem_of_nil|].
  rewrite list_elem_of_In, in_flat_map. intros (r & Hr & Hy).
  apply list_elem_of_In in Hr, Hy. eapply Forall_forall in Hall; [|done].
  apply elem_of_cons in Hy as [->|Hy]; [by exists (S n)|].
  apply (IH h (raw_kids h r)); [|done].
  apply Forall_forall. intros c Hc. by eapply raw_kids_tree_at.
Qed.

Lemma raw_preorder_assigned n : ∀ h h' ns,
  assigned h h' → Forall (raw_tree_at n h) ns →
  raw_preorder n h' ns = raw_preorder n h ns.
Proof.
  induction n as [|n IH]; intros h h' ns HA Hall; [done|]. simpl.
  induction Hall as [|x ls Hx Hls IHls]; [done|]. simpl.
  rewrite IHls. destruct (raw_tree_at_assigned (S n) h h' x HA Hx) as [_ ->].
  rewrite (IH h h' (raw_kids h x) HA); [done|].
  apply Forall_forall. intros c Hc. by eapply raw_kids_tree_at.
Qed.

Lemma update_other f n h h' x :
  update f n h = Some h' → x ≠ n → objs h' !! x = objs h !! x.
Proof.
  intros Hu Hx. rewrite (update_lookup _ _ _ _ x Hu).
  case_decide; [congruence | done].
Qed.

(** Later writes elsewhere do not disturb a visited node. *)
Lemma derived_later u h0 h1 h2 i l :
  derived u h0 h1 i l → objs h2 !! l = objs h1 !! l →
  (∀ a cs, arrs h1 !! a = Some cs → arrs h2 !! a = Some cs) →
  derived u h0 h2 i l.
Proof.
  intros (nd0 & nd & H0 & H1 & Hid & Hn & Hd & Hk) E A.
  exists nd0, nd. rewrite E. do 5 (split; [done|]).
  destruct (raw_kids h0 l); [done|].
  destruct Hk as (a & ? & ? & ?). exists a. auto.
Qed.

(** Earlier writes elsewhere do not show in a visited node. *)
Lemma derived_earlier u h0 h1 h2 i l :
  derived u h1 h2 i l → objs h0 !! l = objs h1 !! l →
  raw_kids h0 l = raw_kids h1 l → derived u h0 h2 i l.
Proof.
  intros (nd0 & nd & H0 & H1 & Hk) E K. exists nd0, nd. rewrite E, K. done.
Qed.

(** Identity assignment on a raw forest without sharing: the counter
    advances by the number of nodes, the [i]-th node of the pre-order
    gets the [i]-th identifier, and nothing outside the forest is
    written. *)
Lemma assignInternalProperties_derives uuid_v4 fuel :
  ∀ n h k data d,
  n < fuel → data_list h data = Some d → Forall (raw_tree_at n h) d →
  NoDup (raw_preorder n h d) →
  ∃ h' a,
    assignInternalProperties uuid_v4 fuel (h, k) data
      = Some (h', k + length (raw_preorder n h d), a) ∧
    assigned h h' ∧ arrs h' !! a = Some d ∧
    (∀ l, l ∉ raw_preorder n h d → objs h' !! l = objs h !! l) ∧
    (∀ i l, raw_preorder n h d !! i = Some l →
            derived uuid_v4 h h' (k + i) l).
Proof.
  induction fuel as [|fuel IH]; intros n h k data d Hlt Hd Hall Hnd; [lia|].
  simpl. rewrite Hd. simpl.
  match goal with |- context [forEach ?f _ _] => set (CB := f) end.
  assert (Hnode : ∀ h1 k1 l, raw_tree_at n h1 l →
    NoDup (raw_preorder n h1 [l]) →
    ∃ h2, CB (h1, k1) l = Some (h2, k1 + length (raw_preorder n h1 [l])) ∧
          assigned h1 h2 ∧
          (∀ x, x ∉ raw_preorder n h1 [l] → objs h2 !! x = objs h1 !! x) ∧
          (∀ i x, raw_preorder n h1 [l] !! i = Some x →
                  derived uuid_v4 h1 h2 (k1 + i) x)).
  { intros h1 k1 l Ht Hnd1. destruct n as [|n]; [done|].
    rewrite raw_preorder_one in Hnd1 |- *.
    apply NoDup_cons in Hnd1 as [Hlsub Hndsub].
    pose proof Ht as (nd1 & Hl & Hc). unfold CB.
    set (sub := raw_preorder n h1 (raw_kids h1 l)) in *. simpl.
    destruct (update_total (set_id (Some (uuid_v4 k1))) l h1 nd1 Hl)
      as (ha & Hua & Hla & Eaa). rewrite Hua. simpl. rewrite Hla. simpl.
    assert (assigned h1 ha) as HAa.
    { eapply assigned_update; [done|].
      intros nd Hnd'. split; [by left|]. by apply list_kept_same. }
    assert (∃ hb ndb,
      (if _collapsed nd1 is None
       then update (set_collapsed (Some false)) l ha else Some ha) = Some hb ∧
      assigned ha hb ∧ objs hb !! l = Some ndb ∧
      children ndb = children nd1 ∧ arrs hb = arrs ha ∧
      (∀ x, x ≠ l → objs hb !! x = objs ha !! x) ∧
      id ndb = Some (uuid_v4 k1) ∧ name ndb = name nd1 ∧
      depth ndb = depth nd1 ∧ _children ndb = _children nd1)
      as (hb & ndb & -> & HAb & Hlb & Hcb & Eab & Hob & Hidb & Hnb & Hdb & Hkb).
    { destruct (_collapsed nd1) as [b|] eqn:Ec.
      - exists ha, (set_id (Some (uuid_v4 k1)) nd1).
        split; [done|]. split; [apply assigned_refl|]. by repeat split.
      - destruct (update_total (set_collapsed (Some false)) l ha _ Hla)
          as (hb & Hub & Hlb & Eab).
        exists hb, (set_collapsed (Some false) (set_id (Some (uuid_v4 k1)) nd1)).
        split; [done|]. split.
        { eapply assigned_update; [done|]. intros nd Hnd'.
          rewrite Hla in Hnd'. injection Hnd' as <-.
          split; [right; by split | by apply list_kept_same]. }
        split; [done|]. split; [done|]. split; [done|].
        split; [|by repeat split].
        intros x Hx. by apply (update_other _ _ _ _ x Hub). }
    simpl.
    assert (assigned h1 hb) as HA1b by (by eapply assigned_trans).
    assert (∀ x, x ≠ l → objs hb !! x = objs h1 !! x) as Ho1b.
    { intros x Hx. rewrite (Hob x Hx). by apply (update_other _ _ _ _ x Hua). }
    assert (raw_kids h1 l = default [] (children nd1 ≫= (arrs h1 !!.))) as Hkids.
    { unfold raw_kids. rewrite Hl. by destruct (children nd1). }
    assert (raw_kids h1 l = [] →
      ∃ h2, Some (hb, S k1) = Some (h2, k1 + length (l :: sub)) ∧
            assigned h1 h2 ∧
            (∀ x, x ∉ l :: sub → objs h2 !! x = objs h1 !! x) ∧
            (∀ i x, (l :: sub) !! i = Some x →
                    derived uuid_v4 h1 h2 (k1 + i) x)) as Hleaf.
    { intros Hk0. assert (sub = []) as ->.
      { unfold sub. rewrite Hk0. by destruct n. }
      exists hb. split; [simpl; do 2 f_equal; lia|]. split; [done|]. split.
      - intros x Hx. apply Ho1b. intros ->. apply Hx, elem_of_cons. by left.
      - intros [|i] x Hi; [|by destruct i]. injection Hi as <-.
        exists nd1, ndb. rewrite Nat.add_0_r, Hk0. by repeat split. }
    destruct (children nd1) as [c|] eqn:Ech; [|by apply Hleaf].
    destruct Hc as (cs & Hcs & Hcsall). simpl in Hkids. rewrite Hcs in Hkids.
    simpl in Hkids. rewrite Eab, Eaa, Hcs. simpl.
    case_bool_decide as Hne;
      [|apply Hleaf; rewrite Hkids; destruct cs; [done | simpl in Hne; lia]].
    assert (Forall (raw_tree_at n h1) cs) as Hcs1 by done.
    assert (raw_preorder n hb cs = sub) as Esub.
    { unfold sub. rewrite Hkids. by apply raw_preorder_assigned. }
    destruct (IH n hb (S k1) (Arr c) cs) as (hc & a & Hrun & HAc & Haa & Hfr & Hder).
    { lia. }
    { simpl. by rewrite Eab, Eaa. }
    { eapply Forall_impl; [done|]. intros x Hx.
      by apply (raw_tree_at_assigned n h1 hb x HA1b). }
    { by rewrite Esub. }
    rewrite Esub in Hrun, Hfr, Hder. rewrite Hrun. simpl.
    assert (objs hc !! l = Some ndb) as Hlc by (by rewrite (Hfr l Hlsub)).
    pose proof HAc as [Ac Nc].
    destruct (Nc l ndb Hlb) as (ndc & Hlc' & _ & Lc).
    rewrite Hlc in Hlc'. injection Hlc' as <-.
    destruct (update_total (set_children (Some a)) l hc ndb Hlc)
      as (hd & Hud & Hld & Ead). rewrite Hud. simpl.
    destruct (update_total (set__children (Some a)) l hd _ Hld)
      as (he & Hue & Hle & Eae). rewrite Hue. simpl.
    assert (assigned hc hd) as HAd.
    { eapply assigned_update; [done|]. intros nd Hnd'.
      rewrite Hlc in Hnd'. injection Hnd' as <-. split; [by left|].
      unfold list_kept. rewrite Hcb. intros cs0 Hcs0.
      exists a. split; [done|].
      assert (arrs hc !! c = Some cs) as Hcc by (apply Ac; by rewrite Eab, Eaa).
      congruence. }
    assert (assigned hd he) as HAe.
    { eapply assigned_update; [done|]. intros nd Hnd'.
      split; [by left | by apply list_kept_same]. }
    assert (∀ x, x ≠ l → objs he !! x = objs hc !! x) as Hoce.
    { intros x Hx. rewrite (update_other _ _ _ _ x Hue Hx).
      by apply (update_other _ _ _ _ x Hud). }
    exists he. split; [simpl; do 2 f_equal; lia|]. split.
    { eapply assigned_trans; [exact HA1b|]. eapply assigned_trans; [exact HAc|].
      by eapply assigned_trans. }
    split.
    - intros x Hx. apply not_elem_of_cons in Hx as [Hxl Hxs].
      by rewrite (Hoce x Hxl), (Hfr x Hxs), (Ho1b x Hxl).
    - intros [|i] x Hi.
      + injection Hi as <-. exists nd1, (set__children (Some a)
          (set_children (Some a) ndb)).
        rewrite Nat.add_0_r, Hkids. do 5 (split; [done|]).
        destruct cs as [|c0 cs']; [simpl in Hne; lia|].
        exists a. split; [done|]. split; [done|]. by rewrite Eae, Ead.
      + simpl in Hi. assert (x ≠ l) as Hxl.
        { intros ->. apply Hlsub. by eapply list_elem_of_lookup_2. }
        replace (k1 + S i) with (S k1 + i) by lia.
        apply (derived_later uuid_v4 h1 hc he).
        * apply (derived_earlier uuid_v4 h1 hb hc); [by apply Hder | |].
          { symmetry. by apply Ho1b. }
          { unfold raw_kids. by rewrite (Ho1b x Hxl), Eab, Eaa. }
        * by apply Hoce.
        * intros a0 cs0. by rewrite Eae, Ead. }
  assert (Hloop : ∀ ls h1 k1, Forall (raw_tree_at n h1) ls →
    NoDup (raw_preorder n h1 ls) →
    ∃ h2, forEach CB (h1, k1) ls
            = Some (h2, k1 + length (raw_preorder n h1 ls)) ∧
          assigned h1 h2 ∧
          (∀ x, x ∉ raw_preorder n h1 ls → objs h2 !! x = objs h1 !! x) ∧
          (∀ i x, raw_preorder n h1 ls !! i = Some x →
                  derived uuid_v4 h1 h2 (k1 + i) x)).
  { induction ls as [|x ls IHls]; intros h1 k1 Hls Hnd1.
    - exists h1. assert (raw_preorder n h1 [] = []) as -> by (by destruct n).
      split; [simpl; do 2 f_equal; lia|]. split; [apply assigned_refl|].
      split; [done|]. by intros [|?] ?.
    - apply Forall_cons in Hls as [Hx Hls].
      rewrite raw_preorder_cons in Hnd1 |- *.
      apply NoDup_app in Hnd1 as (Hnx & Hdisj & Hnls).
      change (forEach CB (h1, k1) (x :: ls))
        with (CB (h1, k1) x ≫= λ s', forEach CB s' ls).
      destruct (Hnode h1 k1 x Hx Hnx) as (h2 & -> & HA2 & Hf2 & Hd2).
      match goal with |- context [Some ?w ≫= _] =>
        change (Some w ≫= λ s', forEach CB s' ls) with (forEach CB w ls) end.
      assert (raw_preorder n h2 ls = raw_preorder n h1 ls) as Els
        by (by apply raw_preorder_assigned).
      destruct (IHls h2 (k1 + length (raw_preorder n h1 [x])))
        as (h3 & Hrun & HA3 & Hf3 & Hd3).
      { eapply Forall_impl; [done|]. intros y Hy.
        by apply (raw_tree_at_assigned n h1 h2 y HA2). }
      { by rewrite Els. }
      rewrite Els in Hrun, Hf3, Hd3. rewrite Hrun.
      exists h3. split; [rewrite length_app; do 2 f_equal; lia|].
      split; [by eapply assigned_trans|]. split.
      + intros y Hy. apply not_elem_of_app in Hy as [Hy1 Hy2].
        by rewrite (Hf3 y Hy2), (Hf2 y Hy1).
      + intros i y Hi. apply lookup_app_Some in Hi as [Hi|[Hge Hi]].
        * apply (derived_later uuid_v4 h1 h2 h3); [by apply Hd2| |apply HA3].
          apply Hf3. apply Hdisj. by eapply list_elem_of_lookup_2.
        * assert (y ∈ raw_preorder n h1 ls) as Hyin
            by (by eapply list_elem_of_lookup_2).
          assert (y ∉ raw_preorder n h1 [x]) as Hyout.
          { intros Hy. by apply (Hdisj y Hy). }
          destruct (raw_preorder_member n h1 ls y Hls Hyin) as (m & Hm).
          apply (derived_earlier uuid_v4 h1 h2 h3).
          { replace (k1 + i) with (k1 + length (raw_preorder n h1 [x]) +
              (i - length (raw_preorder n h1 [x]))) by lia. by apply Hd3. }
          { symmetry. by apply Hf2. }
          { symmetry. by apply (raw_tree_at_assigned m h1 h2 y HA2 Hm). } }
  destruct (Hloop d h k Hall Hnd) as (h2 & -> & HA2 & Hf2 & Hd2). simpl.
  destruct (assigned_alloc h2 d _ _ eq_refl) as [HA3 Ha].
  do 2 eexists. split; [reflexivity|]. split; [by eapply assigned_trans|].
  split; [done|]. split; [done|]. intros i l Hi.
  apply (derived_later uuid_v4 h h2); [by apply Hd2 | done | apply HA3].
Qed.

(** Nodes that each hold their raw children under [_children] form the
    same forest through [_children] as the raw one through [children]. *)
Lemma derived_forest n : ∀ h h' ns,
  Forall (raw_tree_at n h) ns →
  (∀ l, l ∈ raw_preorder n h ns →
        ∃ nd', objs h' !! l = Some nd' ∧
          match raw_kids h l with
          | [] => _children nd' = None
          | _ :: _ => ∃ a, _children nd' = Some a ∧
                           arrs h' !! a = Some (raw_kids h l)
          end) →
  Forall (tree_at n h') ns ∧ preorder n h' ns = raw_preorder n h ns ∧
  ∀ l, l ∈ raw_preorder n h ns → kids h' l = raw_kids h l.
Proof.
  induction n as [|n IH]; intros h h' ns Hall Hfact.
  { split; [by eapply Forall_impl|]. split; [done|]. by intros ? ?%elem_of_nil. }
  revert Hfact. induction Hall as [|x ls Hx Hls IHls]; intros Hfact.
  { split; [done|]. split; [done|]. by intros ? ?%elem_of_nil. }
  rewrite raw_preorder_cons, raw_preorder_one in Hfact |- *.
  destruct IHls as (T2 & P2 & K2).
  { intros l Hl. apply Hfact, elem_of_app. by right. }
  destruct (IH h h' (raw_kids h x)) as (T1 & P1 & K1).
  { apply Forall_forall. intros c Hc. by eapply raw_kids_tree_at. }
  { intros l Hl. apply Hfact, elem_of_app. left. apply elem_of_cons. by right. }
  destruct (Hfact x) as (nd' & Hx' & Hk).
  { apply elem_of_app. left. apply elem_of_cons. by left. }
  assert (kids h' x = raw_kids h x) as Ek.
  { unfold kids. rewrite Hx'. destruct (raw_kids h x) eqn:E.
    - by rewrite Hk.
    - destruct Hk as (a & -> & ->). done. }
  split; [|split].
  - apply Forall_cons. split; [|done]. exists nd'. split; [done|].
    destruct (raw_kids h x) eqn:E.
    + by rewrite Hk.
    + destruct Hk as (a & -> & Ha). eauto.
  - change (preorder (S n) h' (x :: ls))
      with ((x :: preorder n h' (kids h' x)) ++ preorder (S n) h' ls).
    by rewrite Ek, P1, P2.
  - intros l [[->|Hl]%elem_of_cons|Hl]%elem_of_app; auto.
Qed.

(** The identifiers of the forest, read off in pre-order, are the ones
    the generator handed out, in order. *)
Lemma derived_ids u h h' k P :
  (∀ i l, P !! i = Some l → derived u h h' (k + i) l) →
  node_id h' <$> P = (λ i, Some (u i)) <$> seq k (length P).
Proof.
  intros Hder. apply list_eq. intros i. rewrite !list_lookup_fmap.
  destruct (P !! i) as [l|] eqn:Hi; simpl.
  - destruct (Hder i l Hi) as (nd0 & nd & _ & Hl & Hid & _).
    rewrite lookup_seq_lt by (by eapply lookup_lt_Some). simpl.
    unfold node_id. rewrite Hl. simpl. by rewrite Hid.
  - rewrite lookup_seq_ge; [done|]. by apply lookup_ge_None.
Qed.

Lemma assignInternalProperties_forest uuid_v4 n fuel h k data d :
  n < fuel → data_list h data = Some d → Forall (raw_tree_at n h) d →
  NoDup (raw_preorder n h d) →
  Forall (no_stale_children h) (raw_preorder n h d) →
  ∃ h' a,
    assignInternalProperties uuid_v4 fuel (h, k) data
      = Some (h', k + length (raw_preorder n h d), a) ∧
    arrs h' !! a = Some d ∧
    Forall (tree_at n h') d ∧
    preorder n h' d = raw_preorder n h d ∧
    (∀ l, l ∈ raw_preorder n h d → kids h' l = raw_kids h l) ∧
    (∀ i l, raw_preorder n h d !! i = Some l →
            derived uuid_v4 h h' (k + i) l).
Proof.
  intros Hlt Hd Hall Hnd Hstale.
  destruct (assignInternalProperties_derives uuid_v4 fuel n h k data d
              Hlt Hd Hall Hnd) as (h' & a & Hrun & _ & Ha & _ & Hder).
  exists h', a. split; [done|]. split; [done|].
  destruct (derived_forest n h h' d Hall) as (T & P & K); [|done].
  intros l Hl. pose proof Hl as (i & Hi)%list_elem_of_lookup_1.
  destruct (Hder i l Hi) as (nd0 & nd & Hl0 & Hl' & _ & _ & _ & Hk).
  exists nd. split; [done|]. eapply Forall_forall in Hstale; [|done].
  destruct (raw_kids h l) eqn:E.
  - destruct Hk as [_ ->]. by apply Hstale.
  - destruct Hk as (a' & _ & ? & ?). eauto.
Qed.

(** X16.  Identity assignment numbers a raw forest without sharing in
    pre-order: the counter advances by the number of nodes, and the ids
    of the nodes, read in pre-order, are the identifiers the generator
    handed out, in order.  When those are pairwise distinct, no two nodes
    carry the same id. *)
Theorem assignInternalProperties_ids uuid_v4 n fuel h k data d :
  n < fuel → data_list h data = Some d → Forall (raw_tree_at n h) d →
  NoDup (raw_preorder n h d) →
  ∃ h' a,
    assignInternalProperties uuid_v4 fuel (h, k) data
      = Some (h', k + length (raw_preorder n h d), a) ∧
    node_id h' <$> raw_preorder n h d =
      (λ i, Some (uuid_v4 i)) <$> seq k (length (raw_preorder n h d)) ∧
    (NoDup (uuid_v4 <$> seq k (length (raw_preorder n h d))) →
     NoDup (node_id h' <$> raw_preorder n h d)).
Proof.
  intros Hlt Hd Hall Hnd.
  destruct (assignInternalProperties_derives uuid_v4 fuel n h k data d
              Hlt Hd Hall Hnd) as (h' & a & Hrun & _ & _ & _ & Hder).
  exists h', a. split; [done|].
  pose proof (derived_ids _ _ _ _ _ Hder) as Eids. split; [done|].
  intros Hu. rewrite Eids.
  rewrite (list_fmap_compose uuid_v4 Some). by apply (NoDup_fmap_2 Some).
Qed.

Ltac solve_NoDup :=
  repeat first
    [ apply NoDup_nil_2
    | apply NoDup_cons_2;
        [ rewrite ?not_elem_of_cons; repeat split;
          first [ discriminate | apply not_elem_of_nil ] | ] ].

Lemma sample_raw_preorder cA cC :
  raw_preorder 3 (Sample.raw cA cC) [1%positive] = [1; 2; 3; 4]%positive.
Proof. vm_compute. reflexivity. Qed.

Lemma sample_raw_NoDup cA cC :
  NoDup (raw_preorder 3 (Sample.raw cA cC) [1%positive]).
Proof. rewrite sample_raw_preorder. solve_NoDup. Qed.

Lemma sample_raw_no_stale cA cC :
  Forall (no_stale_children (Sample.raw cA cC))
    (raw_preorder 3 (Sample.raw cA cC) [1%positive]).
Proof.
  rewrite sample_raw_preorder. unfold no_stale_children.
  repeat first
    [ apply Forall_nil_2
    | apply Forall_cons_2;
        [ intros nd Hnd _; vm_compute in Hnd; injection Hnd as <-; reflexivity
        | ] ].
Qed.

Lemma assignInternalProperties_ids_witness :
  let h := Sample.raw None None in
  3 < 4 ∧ data_list h (Obj 1%positive) = Some [1%positive] ∧
  Forall (raw_tree_at 3 h) [1%positive] ∧
  NoDup (raw_preorder 3 h [1%positive]) ∧
  ∃ h' a,
    assignInternalProperties Sample.uuid_v4 4 (h, 0) (Obj 1%positive)
      = Some (h', 0 + length (raw_preorder 3 h [1%positive]), a) ∧
    node_id h' <$> raw_preorder 3 h [1%positive] =
      (λ i, Some (Sample.uuid_v4 i))
        <$> seq 0 (length (raw_preorder 3 h [1%positive])) ∧
    (NoDup (Sample.uuid_v4 <$> seq 0 (length (raw_preorder 3 h [1%positive]))) →
     NoDup (node_id h' <$> raw_preorder 3 h [1%positive])).
Proof.
  intros h.
  assert (Forall (raw_tree_at 3 h) [1%positive]) as Ht
    by (subst h; solve_raw_tree_at).
  pose proof (sample_raw_NoDup None None) as Hnd.
  split; [lia|]. split; [done|]. split; [done|]. split; [done|].
  apply (assignInternalProperties_ids Sample.uuid_v4 3 4 h 0
           (Obj 1%positive) [1%positive]); [lia | done | done | done].
Defined.

(** X17.  Identity assignment on a raw forest without sharing, whose
    leaves carry no [_children] of their own, builds the forest of full
    child lists: it follows the raw one node for node, every node's full
    list holds its raw children, and a node with children has [children]
    and [_children] pointing at one and the same array. *)
Theorem assignInternalProperties_links uuid_v4 n fuel h k data d :
  n < fuel → data_list h data = Some d → Forall (raw_tree_at n h) d →
  NoDup (raw_preorder n h d) →
  Forall (no_stale_children h) (raw_preorder n h d) →
  ∃ h' k' a,
    assignInternalProperties uuid_v4 fuel (h, k) data = Some (h', k', a) ∧
    arrs h' !! a = Some d ∧
    Forall (tree_at n h') d ∧
    preorder n h' d = raw_preorder n h d ∧
    ∀ l, l ∈ raw_preorder n h d →
         kids h' l = raw_kids h l ∧
         (raw_kids h l ≠ [] →
          ∃ nd c, objs h' !! l = Some nd ∧
                  children nd = Some c ∧ _children nd = Some c).
Proof.
  intros Hlt Hd Hall Hnd Hstale.
  destruct (assignInternalProperties_forest uuid_v4 n fuel h k data d
              Hlt Hd Hall Hnd Hstale) as (h' & a & Hrun & Ha & T & P & K & Hder).
  exists h', (k + length (raw_preorder n h d)), a.
  do 4 (split; [done|]). intros l Hl. split; [by apply K|]. intros Hne.
  pose proof Hl as (i & Hi)%list_elem_of_lookup_1.
  destruct (Hder i l Hi) as (nd0 & nd & _ & Hl' & _ & _ & _ & Hk).
  destruct (raw_kids h l); [done|].
  destruct Hk as (c & ? & ? & _). eauto.
Qed.

Lemma assignInternalProperties_links_witness :
  let h := Sample.raw None None in
  3 < 4 ∧ data_list h (Obj 1%positive) = Some [1%positive] ∧
  Forall (raw_tree_at 3 h) [1%positive] ∧
  NoDup (raw_preorder 3 h [1%positive]) ∧
  Forall (no_stale_children h) (raw_preorder 3 h [1%positive]) ∧
  ∃ h' k' a,
    assignInternalProperties Sample.uuid_v4 4 (h, 0) (Obj 1%positive)
      = Some (h', k', a) ∧
    arrs h' !! a = Some [1%positive] ∧
    Forall (tree_at 3 h') [1%positive] ∧
    preorder 3 h' [1%positive] = raw_preorder 3 h [1%positive] ∧
    ∀ l, l ∈ raw_preorder 3 h [1%positive] →
         kids h' l = raw_kids h l ∧
         (raw_kids h l ≠ [] →
          ∃ nd c, objs h' !! l = Some nd ∧
                  children nd = Some c ∧ _children nd = Some c).
Proof.
  intros h.
  assert (Forall (raw_tree_at 3 h) [1%positive]) as Ht
    by (subst h; solve_raw_tree_at).
  pose proof (sample_raw_NoDup None None) as Hnd.
  pose proof (sample_raw_no_stale None None) as Hst.
  split; [lia|]. split; [done|]. split; [done|]. split; [done|].
  split; [done|].
  apply (assignInternalProperties_links Sample.uuid_v4 3 4 h 0
           (Obj 1%positive) [1%positive]); [lia | done | done | done | done].
Defined.

(** A stale [_children] on a raw leaf survives identity assignment: the
    leaf B, handed in with [_children] pointing at C's array, ends with D
    in its full child list. *)
Lemma sample_stale_children :
  let h := Heap (<[2%positive :=
                     Node "B" None None None (Some 22%positive) None]>
                   (objs (Sample.raw None None)))
                (arrs (Sample.raw None None)) in
  raw_kids h 2%positive = [] ∧
  (r ← assignInternalProperties Sample.uuid_v4 4 (h, 0) (Obj 1%positive);
   Some (kids r.1.1 2%positive)) = Some [4%positive].
Proof. split; vm_compute; reflexivity. Qed.

(** ** From raw input to a mounted component *)






(** ** Counting what leaves the component *)

Lemma emitted_refl c : emitted c c 0 0 0.
Proof.
  split; [done|]. exists []. rewrite app_nil_r. split; [done|].
  by destruct (Props.onClick (props c)), (Props.onUpdate (props c)).
Qed.

Lemma emitted_trans c c1 c2 a b d a' b' d' :
  emitted c c1 a b d → emitted c1 c2 a' b' d' →
  emitted c c2 (a + a') (b + b') (d + d').
Proof.
  intros (Ep & es & Ee & Hc & Hs & Hu & Ho) (Ep' & es' & Ee' & Hc' & Hs' & Hu' & Ho').
  split; [congruence|]. exists (es ++ es').
  rewrite Ee', Ee, app_assoc. split; [done|].
  unfold count in *. rewrite !count_app, Hc, Hs, Hu, Ho, Hc', Hs', Hu', Ho', Ep.
  destruct (Props.onClick (props c)), (Props.onUpdate (props c));
    repeat split; lia.
Qed.

Ltac solve_emitted :=
  split; [done|]; eexists;
  split; [rewrite <- ?app_assoc;
          first [reflexivity | symmetry; apply app_nil_r]|];
  repeat split; reflexivity.

Lemma unlock_emitted fuel c c1 :
  unlock fuel c = Some c1 → emitted c c1 0 0 1 ∧ timers c1 = timers c.
Proof.
  destruct c as [p [dref d tr g] [ir tn] h0 ts v0 es]. unfold unlock.
  intros (h' & v & _ & ->)%flush_inv.
  unfold componentDidUpdate, emitted. with_fields.
  destruct (Props.onUpdate p), (Props.onClick p); with_fields;
    (split; [|done]); solve_emitted.
Qed.

Lemma repeat_unlock_emitted fuel k : ∀ c c1,
  repeat_unlock fuel k c = Some c1 →
  emitted c c1 0 0 k ∧ timers c1 = timers c.
Proof.
  induction k as [|k IH]; intros c c1; simpl.
  { intros [= <-]. split; [apply emitted_refl | done]. }
  intros (c0 & Hu & Hr)%bind_Some.
  destruct (unlock_emitted _ _ _ Hu) as [E1 T1].
  destruct (IH _ _ Hr) as [E2 T2].
  split; [|congruence]. apply (emitted_trans c c0 c1 0 0 1 0 0 k E1 E2).
Qed.

Lemma handleNodeToggle_emitted fuel now nodeId c c1 :
  handleNodeToggle fuel now nodeId c = Some c1 →
  ∃ b, emitted c c1 1 b 0 ∧ length (timers c1) = length (timers c) + b.
Proof.
  destruct c as [p [dref d tr g] [ir tn] h0 ts v0 es].
  unfold handleNodeToggle. with_fields.
  intros (nodeSet & _ & H)%bind_Some.
  apply bind_Some in H as (matches & _ & H). revert H. cbv zeta.
  destruct (Props.collapsible p && negb tr).
  - intros (t & _ & H)%bind_Some.
    apply bind_Some in H as (nd & _ & H).
    apply bind_Some in H as (h & _ & H).
    apply bind_Some in H as (c2 & Hflush & [= <-]).
    apply flush_inv in Hflush as (h' & v & _ & ->).
    exists 1. unfold handleOnClickCb, componentDidUpdate, emitted. with_fields.
    destruct (Props.onUpdate p); with_fields; destruct (Props.onClick p);
      with_fields; (split; [|rewrite length_app; simpl; lia]); solve_emitted.
  - intros [= <-]. exists 0. unfold handleOnClickCb, emitted. with_fields.
    destruct (Props.onClick p), (Props.onUpdate p); with_fields;
      (split; [|lia]); solve_emitted.
Qed.

Lemma click_emitted fuel now nodeId c c1 :
  click fuel now nodeId c = Some c1 →
  ∃ b d, emitted c c1 1 b d ∧
         length (timers c1) + d = length (timers c) + b.
Proof.
  unfold click. intros (c0 & Hu & Ht)%bind_Some.
  destruct (repeat_unlock_emitted _ _ _ _ Hu) as [E1 T1].
  destruct (handleNodeToggle_emitted _ _ _ _ _ Ht) as (b & E2 & T2).
  destruct (with_timers_fields
              (filter (λ t, ¬ (t ≤ now)%Z) (timers c)) c)
    as (_ & _ & Ep & Et & Ee).
  exists b, (length (filter (λ t, (t ≤ now)%Z) (timers c))). split.
  - pose proof (emitted_trans _ _ _ _ _ _ _ _ _ E1 E2) as (Ep' & es & Ees & Hc).
    split; [congruence|]. exists es. rewrite <- Ee, <- Ep.
    destruct Hc as (? & ? & ? & ?). split; [done|].
    destruct (Props.onClick _), (Props.onUpdate _); repeat split; lia.
  - rewrite T2, T1, Et.
    pose proof (filter_app_complement (λ t, (t ≤ now)%Z) (timers c)) as Hp.
    apply Permutation_length in Hp. rewrite length_app in Hp. lia.
Qed.

Lemma run_clicks_emitted fuel evs : ∀ c c',
  run_clicks fuel evs c = Some c' →
  ∃ b d, emitted c c' (length evs) b d ∧
         length (timers c') + d = length (timers c) + b.
Proof.
  induction evs as [|[now nodeId] evs IH]; intros c c'; simpl.
  { intros [= <-]. exists 0, 0. split; [apply emitted_refl | lia]. }
  intros (c1 & H1 & Hr)%bind_Some.
  destruct (click_emitted _ _ _ _ _ H1) as (b1 & d1 & E1 & T1).
  destruct (IH _ _ Hr) as (b2 & d2 & E2 & T2).
  exists (b1 + b2), (d1 + d2). split; [|lia].
  apply (emitted_trans c c1 c' 1 b1 d1 (length evs) b2 d2 E1 E2).
Qed.

(** X19.  What a run of clicks, timers included, leaves behind: [onClick]
    is called once per click, accepted or not; [onUpdate] is called once
    per tree-state commit and once per lock release; neither is called
    when it is not a function; and every commit arms one timer, which
    releases the lock at most once. *)
Theorem run_clicks_accounting fuel evs c c' :
  run_clicks fuel evs c = Some c' →
  ∃ es, effects c' = effects c ++ es ∧
    count is_OnClick es =
      (if Props.onClick (props c) then length evs else 0) ∧
    count is_OnUpdate es =
      (if Props.onUpdate (props c)
       then count is_SetData es + count is_Unlock es else 0) ∧
    length (timers c') + count is_Unlock es =
      length (timers c) + count is_SetData es.
Proof.
  intros Hrun.
  destruct (run_clicks_emitted _ _ _ _ Hrun)
    as (b & d & (_ & es & Ee & Hc & Hs & Hu & Ho) & Ht).
  exists es. rewrite Hs, Hu. done.
Qed.

Lemma run_clicks_accounting_witness :
  ∃ c',
    run_clicks 4 [(0%Z, "c"); (100%Z, "b"); (510%Z, "b"); (520%Z, "zz")]
      Sample.component = Some c' ∧
    ∃ es, effects c' = effects Sample.component ++ es ∧
      count is_OnClick es =
        (if Props.onClick (props Sample.component) then 4 else 0) ∧
      count is_OnUpdate es =
        (if Props.onUpdate (props Sample.component)
         then count is_SetData es + count is_Unlock es else 0) ∧
      length (timers c') + count is_Unlock es =
        length (timers Sample.component) + count is_SetData es.
Proof.
  eexists. split; [vm_compute; reflexivity|].
  apply (run_clicks_accounting 4
           [(0%Z, "c"); (100%Z, "b"); (510%Z, "b"); (520%Z, "zz")]
           Sample.component).
  vm_compute. reflexivity.
Defined.

(** The same run on the sample: four clicks, two of them accepted (the
    click on B at 100 and the one on an unknown id at 520 meet the lock),
    one lock release in between. *)
Lemma sample_accounting :
  (c ← run_clicks 4 [(0%Z, "c"); (100%Z, "b"); (510%Z, "b"); (520%Z, "zz")]
         Sample.component;
   Some (count is_OnClick (effects c), count is_SetData (effects c),
         count is_Unlock (effects c), count is_OnUpdate (effects c),
         length (timers c))) = Some (4, 2, 1, 3, 1).
Proof. vm_compute. reflexivity. Qed.

(** ** The search by depth in general *)

(** X20.  On any forest the search by depth returns; what it finds is
    appended to the accumulator it was given, and is exactly the nodes of
    the forest whose [depth] field equals the depth asked for, each as
    often as the forest holds it; nodes below a match are searched too. *)
Theorem findNodesAtDepth_accumulates n fuel h d nodeSet accumulator :
  n < fuel → Forall (tree_at n h) nodeSet →
  ∃ r, findNodesAtDepth fuel h d nodeSet [] = Some r ∧
       findNodesAtDepth fuel h d nodeSet accumulator = Some (accumulator ++ r) ∧
       r ≡ₚ filter (sat h (has_depth d)) (preorder n h nodeSet).
Proof.
  intros Hlt Hall. exists (levelwalk n h (has_depth d) nodeSet).
  split; [by apply (findNodesAtDepth_levelwalk fuel n)|].
  split; [by apply (findNodesAtDepth_levelwalk fuel n)|].
  apply levelwalk_perm.
Qed.

Lemma findNodesAtDepth_accumulates_witness :
  3 < 4 ∧ Forall (tree_at 3 Sample.store) [1%positive] ∧
  ∃ r, findNodesAtDepth 4 Sample.store (Some 1) [1%positive] [] = Some r ∧
       findNodesAtDepth 4 Sample.store (Some 1) [1%positive] [4%positive]
         = Some ([4%positive] ++ r) ∧
       r ≡ₚ filter (sat Sample.store (has_depth (Some 1)))
              (preorder 3 Sample.store [1%positive]).
Proof.
  assert (Forall (tree_at 3 Sample.store) [1%positive]) as Ht by solve_tree_at.
  split; [lia|]. split; [done|].
  apply (findNodesAtDepth_accumulates 3 4 Sample.store (Some 1)
           [1%positive] [4%positive]); [lia | done].
Defined.
